(** * who-is-my-friend: the room server (server.js)

    A shallow embedding of the Socket.IO room server: the game catalog,
    rooms and players, the reveal computation, the room-state broadcast,
    and the event handlers as functions from the server state to the next
    state and the list of messages emitted. *)

From Stdlib Require Import Ascii String.
From stdpp Require Import gmap strings list fin_maps pretty.

(** ** JavaScript values

    A value that is a string, or [undefined]/[null], is an [option string].
    [truthy] is JavaScript truthiness on such a value: [undefined], [null]
    and the empty string are falsy. *)

Definition truthy (v : option string) : bool :=
  match v with
  | Some s => bool_decide (s ≠ "")
  | None => false
  end.

(** [a === b] where [a] may be [undefined] and [b] may be [null]: equal only
    when both are strings and the strings are equal. *)
Definition strictEq (a b : option string) : bool :=
  match a, b with
  | Some x, Some y => bool_decide (x = y)
  | _, _ => false
  end.

(** ** The game catalog (data/games/*.json) *)

Module Role.
Record t := mk {
  id : string;
  name : string;
  partyId : option string
}.
End Role.

Module RevealRule.
Record t := mk {
  roleId : option string;
  scope : option string;
  visibleRoleIds : option (list string);
  visiblePartyIds : option (list string);
  includeSelf : option bool
}.
End RevealRule.

Module Game.
Record t := mk {
  id : string;
  name : string;
  roles : list Role.t;
  revealRules : list RevealRule.t
}.
End Game.

(** ** Rooms and players *)

Inductive Phase := lobby | roles | ready | reveal.

Global Instance Phase_eq_dec : EqDecision Phase.
Proof. solve_decision. Defined.

Module Player.
Record t := mk {
  id : string;
  name : string;
  socketId : string;
  sessionId : string;
  roleId : option string;
  hasSubmittedRole : bool;
  connected : bool;
  disconnectTimer : option nat
}.
End Player.

(** [room.players] is a JavaScript [Map] from player id to player, always
    written under the key [player.id]: the list of its values in insertion
    order. *)
Module Room.
Record t := mk {
  code : string;
  ownerId : string;
  gameId : option string;
  phase : Phase;
  players : list Player.t
}.
End Room.

(** [Map.prototype.get], [delete] and [set] on [room.players]. *)
Definition Map_get (k : string) (m : list Player.t) : option Player.t :=
  List.find (λ p, bool_decide (Player.id p = k)) m.

Definition Map_delete (k : string) (m : list Player.t) : list Player.t :=
  List.filter (λ p, bool_decide (Player.id p ≠ k)) m.

Definition Map_has (k : string) (m : list Player.t) : bool :=
  bool_decide (k ∈ Player.id <$> m).

Definition Map_set (p : Player.t) (m : list Player.t) : list Player.t :=
  if Map_has (Player.id p) m
  then (λ q, if bool_decide (Player.id q = Player.id p) then p else q) <$> m
  else m ++ [p].

(** ** Messages sent to clients *)

Module PlayerView.
Record t := mk {
  id : string;
  name : string;
  hasSubmittedRole : bool
}.
End PlayerView.

Module RoomState.
Record t := mk {
  code : string;
  ownerId : string;
  gameId : option string;
  phase : Phase;
  players : list PlayerView.t
}.
End RoomState.

Module VisiblePlayer.
Record t := mk {
  playerId : string;
  name : string;
  roleId : option string
}.
End VisiblePlayer.

Module Reveal.
Record t := mk {
  gameId : option string;
  visiblePlayers : list VisiblePlayer.t
}.
End Reveal.

(** ** serializeRoom *)

Definition serializePlayer (player : Player.t) : PlayerView.t :=
  {| PlayerView.id := Player.id player;
     PlayerView.name := Player.name player;
     PlayerView.hasSubmittedRole := Player.hasSubmittedRole player |}.

Definition serializeRoom (room : Room.t) : RoomState.t :=
  {| RoomState.code := Room.code room;
     RoomState.ownerId := Room.ownerId room;
     RoomState.gameId := Room.gameId room;
     RoomState.phase := Room.phase room;
     RoomState.players := serializePlayer <$> Room.players room |}.

(** ** getRevealForPlayer *)

(** [new Map(list.map(x => [x.id, x]))]: a later entry replaces an earlier
    one under the same key. *)
Definition roleMap (rs : list Role.t) : gmap string Role.t :=
  foldl (λ m role, <[Role.id role := role]> m) ∅ rs.

Definition gameMapOf (games : list Game.t) : gmap string Game.t :=
  foldl (λ m game, <[Game.id game := game]> m) ∅ games.

(** [map.get(k)] where [k] may be [null]. *)
Definition getOpt {A} (m : gmap string A) (k : option string) : option A :=
  k ≫= (m !!.).

(** [set.has(k)] on a set of strings where [k] may be [null]. *)
Definition hasOpt (s : gset string) (k : option string) : bool :=
  match k with
  | Some x => bool_decide (x ∈ s)
  | None => false
  end.

Definition revealEntry (item : Player.t) : VisiblePlayer.t :=
  {| VisiblePlayer.playerId := Player.id item;
     VisiblePlayer.name := Player.name item;
     VisiblePlayer.roleId := Player.roleId item |}.

(** The rule used when no entry of [game.revealRules] matches:
    [{ scope: "self" }]. *)
Definition selfRule : RevealRule.t :=
  {| RevealRule.roleId := None;
     RevealRule.scope := Some "self";
     RevealRule.visibleRoleIds := None;
     RevealRule.visiblePartyIds := None;
     RevealRule.includeSelf := None |}.

Definition findRule (game : Game.t) (player : Player.t) : option RevealRule.t :=
  List.find (λ entry, strictEq (RevealRule.roleId entry) (Player.roleId player))
            (Game.revealRules game).

(** The callback of [players.filter] in the custom branch. *)
Definition customVisible (game : Game.t) (rule : RevealRule.t)
    (player item : Player.t) : bool :=
  let roleById := roleMap (Game.roles game) in
  let visibleRoleIds : gset string :=
    list_to_set (default [] (RevealRule.visibleRoleIds rule)) in
  let visiblePartyIds : gset string :=
    list_to_set (default [] (RevealRule.visiblePartyIds rule)) in
  let includeSelf := bool_decide (RevealRule.includeSelf rule = Some true) in
  if includeSelf && bool_decide (Player.id item = Player.id player) then true
  else
    let role := getOpt roleById (Player.roleId item) in
    if hasOpt visibleRoleIds (Player.roleId item) then true
    else
      match role with
      | Some role =>
          truthy (Role.partyId role) && hasOpt visiblePartyIds (Role.partyId role)
      | None => false
      end.

Section Catalog.

Variable games : list Game.t.

Definition gameMap : gmap string Game.t := gameMapOf games.

Definition getRevealForPlayer (room : Room.t) (player : Player.t) : Reveal.t :=
  match getOpt gameMap (Room.gameId room) with
  | None => {| Reveal.gameId := Room.gameId room; Reveal.visiblePlayers := [] |}
  | Some game =>
      let rule := default selfRule (findRule game player) in
      let scope := RevealRule.scope rule in
      let players := Room.players room in
      if bool_decide (scope = Some "all") then
        {| Reveal.gameId := Room.gameId room;
           Reveal.visiblePlayers := revealEntry <$> players |}
      else if bool_decide (scope = Some "self") then
        {| Reveal.gameId := Room.gameId room;
           Reveal.visiblePlayers := [revealEntry player] |}
      else
        let visiblePlayers := List.filter (customVisible game rule player) players in
        {| Reveal.gameId := Room.gameId room;
           Reveal.visiblePlayers := revealEntry <$> visiblePlayers |}
  end.

End Catalog.

(** ** normalizeName

    [String.prototype.trim] and [toLowerCase] are the JavaScript runtime's;
    the server's functions take them as parameters.  [asciiTrim] and
    [asciiToLowerCase] give their behaviour on ASCII text, for running the
    handlers on concrete requests. *)

Definition isSpace (c : ascii) : bool :=
  let n := nat_of_ascii c in
  bool_decide (n = 32 ∨ 9 ≤ n ≤ 13)%nat.

Fixpoint trimStart (s : string) : string :=
  match s with
  | String c s' => if isSpace c then trimStart s' else s
  | EmptyString => EmptyString
  end.

Definition asciiTrim (s : string) : string :=
  String.rev (trimStart (String.rev (trimStart s))).

Definition lowerChar (c : ascii) : ascii :=
  let n := nat_of_ascii c in
  if bool_decide (65 ≤ n ≤ 90)%nat then ascii_of_nat (n + 32) else c.

Fixpoint asciiToLowerCase (s : string) : string :=
  match s with
  | String c s' => String (lowerChar c) (asciiToLowerCase s')
  | EmptyString => EmptyString
  end.

(** ** The server state

    [rooms] maps a code to a room object; room objects live in [heap] under
    their address, because the callback of a disconnect timer keeps the room
    and the player object it was created for, whatever happens to the tables
    afterwards.  A player object is named by its id (a fresh UUID); while it
    is in a room's [players] it is stored there, and once deleted from it
    the object is kept in [detached].  [timers] holds the pending
    [setTimeout] callbacks: handle, captured room and captured player. *)

Module SocketEntry.
Record t := mk {
  code : string;
  playerId : string;
  sessionId : string
}.
End SocketEntry.

Module SessionEntry.
Record t := mk {
  code : string;
  playerId : string
}.
End SessionEntry.

Module State.
Record t := mk {
  rooms : gmap string nat;
  heap : gmap nat Room.t;
  detached : gmap string Player.t;
  socketIndex : gmap string SocketEntry.t;
  sessionIndex : gmap string SessionEntry.t;
  timers : gmap nat (nat * string);
  nextTimer : nat
}.
End State.

Definition initial : State.t :=
  {| State.rooms := ∅; State.heap := ∅; State.detached := ∅;
     State.socketIndex := ∅; State.sessionIndex := ∅;
     State.timers := ∅; State.nextTimer := 0 |}.

Definition setRooms (f : gmap string nat → gmap string nat) (σ : State.t) : State.t :=
  State.mk (f (State.rooms σ)) (State.heap σ) (State.detached σ)
           (State.socketIndex σ) (State.sessionIndex σ) (State.timers σ)
           (State.nextTimer σ).

Definition setHeap (f : gmap nat Room.t → gmap nat Room.t) (σ : State.t) : State.t :=
  State.mk (State.rooms σ) (f (State.heap σ)) (State.detached σ)
           (State.socketIndex σ) (State.sessionIndex σ) (State.timers σ)
           (State.nextTimer σ).

Definition setDetached (f : gmap string Player.t → gmap string Player.t)
    (σ : State.t) : State.t :=
  State.mk (State.rooms σ) (State.heap σ) (f (State.detached σ))
           (State.socketIndex σ) (State.sessionIndex σ) (State.timers σ)
           (State.nextTimer σ).

Definition setSocketIndex (f : gmap string SocketEntry.t → gmap string SocketEntry.t)
    (σ : State.t) : State.t :=
  State.mk (State.rooms σ) (State.heap σ) (State.detached σ)
           (f (State.socketIndex σ)) (State.sessionIndex σ) (State.timers σ)
           (State.nextTimer σ).

Definition setSessionIndex (f : gmap string SessionEntry.t → gmap string SessionEntry.t)
    (σ : State.t) : State.t :=
  State.mk (State.rooms σ) (State.heap σ) (State.detached σ)
           (State.socketIndex σ) (f (State.sessionIndex σ)) (State.timers σ)
           (State.nextTimer σ).

Definition setTimers (f : gmap nat (nat * string) → gmap nat (nat * string))
    (σ : State.t) : State.t :=
  State.mk (State.rooms σ) (State.heap σ) (State.detached σ)
           (State.socketIndex σ) (State.sessionIndex σ) (f (State.timers σ))
           (State.nextTimer σ).

(** [clearTimeout(handle)] where [handle] may be [null]. *)
Definition clearTimeout (handle : option nat) (σ : State.t) : State.t :=
  match handle with
  | Some t => setTimers (delete t) σ
  | None => σ
  end.

(** [setTimeout(callback, disconnectGraceMs)]: the new handle and the state
    with the callback pending. *)
Definition setTimeout (room : nat) (playerId : string) (σ : State.t) : nat * State.t :=
  let t := State.nextTimer σ in
  (t, State.mk (State.rooms σ) (State.heap σ) (State.detached σ)
               (State.socketIndex σ) (State.sessionIndex σ)
               (<[t := (room, playerId)]> (State.timers σ)) (S t)).

(** *** Field updates on rooms and players *)

Definition setOwnerId (v : string) (room : Room.t) : Room.t :=
  Room.mk (Room.code room) v (Room.gameId room) (Room.phase room) (Room.players room).

Definition setGameId (v : option string) (room : Room.t) : Room.t :=
  Room.mk (Room.code room) (Room.ownerId room) v (Room.phase room) (Room.players room).

Definition setPhase (v : Phase) (room : Room.t) : Room.t :=
  Room.mk (Room.code room) (Room.ownerId room) (Room.gameId room) v (Room.players room).

Definition setPlayers (f : list Player.t → list Player.t) (room : Room.t) : Room.t :=
  Room.mk (Room.code room) (Room.ownerId room) (Room.gameId room) (Room.phase room)
          (f (Room.players room)).

(** Apply [f] to the player object stored under [playerId]. *)
Definition updPlayer (playerId : string) (f : Player.t → Player.t)
    (m : list Player.t) : list Player.t :=
  (λ p, if bool_decide (Player.id p = playerId) then f p else p) <$> m.

Definition setRole (roleId : option string) (submitted : bool) (p : Player.t) : Player.t :=
  Player.mk (Player.id p) (Player.name p) (Player.socketId p) (Player.sessionId p)
            roleId submitted (Player.connected p) (Player.disconnectTimer p).

Definition setDisconnectTimer (v : option nat) (p : Player.t) : Player.t :=
  Player.mk (Player.id p) (Player.name p) (Player.socketId p) (Player.sessionId p)
            (Player.roleId p) (Player.hasSubmittedRole p) (Player.connected p) v.

Definition setConnected (v : bool) (p : Player.t) : Player.t :=
  Player.mk (Player.id p) (Player.name p) (Player.socketId p) (Player.sessionId p)
            (Player.roleId p) (Player.hasSubmittedRole p) v (Player.disconnectTimer p).

Definition setBinding (socketId sessionId : string) (p : Player.t) : Player.t :=
  Player.mk (Player.id p) (Player.name p) socketId sessionId
            (Player.roleId p) (Player.hasSubmittedRole p) (Player.connected p)
            (Player.disconnectTimer p).

(** ** Outgoing messages *)

Inductive Event :=
  | room_error (message : string)
  | room_joined (playerId : string) (isOwner : bool) (code : string) (sessionId : string)
  | room_state (state : RoomState.t)
  | room_reveal (payload : Reveal.t)
  | room_reset
  | room_left.

(** [socket.emit], [io.to(target).emit], [socket.join], [socket.leave]. *)
Inductive Out :=
  | socket_emit (socket : string) (e : Event)
  | io_to_emit (target : string) (e : Event)
  | socket_join (socket : string) (code : string)
  | socket_leave (socket : string) (code : string).

Definition emitRoomState (room : Room.t) : list Out :=
  [io_to_emit (Room.code room) (room_state (serializeRoom room))].

Definition emitError (socket : string) (message : string) : list Out :=
  [socket_emit socket (room_error message)].

(** ** generateRoomCode

    One draw is the value of [Math.floor(1000 + Math.random() * 9000)]; the
    loop consumes draws until one is not the code of a live room.  [None]:
    the draws given ran out with the loop still running. *)

Fixpoint generateRoomCode (rooms : gmap string nat) (draws : list N) : option string :=
  match draws with
  | [] => None
  | n :: rest =>
      let code := pretty n in
      if bool_decide (is_Some (rooms !! code)) then generateRoomCode rooms rest
      else Some code
  end.

(** The values the runtime supplies to a handler: the results of the calls
    to [crypto.randomUUID()] for the session and for the player, and the
    draws of the code loop. *)
Record Entropy := mkEntropy {
  sessionUUID : string;
  playerUUID : string;
  draws : list N
}.

Definition createPlayer (uuid name socketId sessionId : string) : Player.t :=
  {| Player.id := uuid;
     Player.name := name;
     Player.socketId := socketId;
     Player.sessionId := sessionId;
     Player.roleId := None;
     Player.hasSubmittedRole := false;
     Player.connected := true;
     Player.disconnectTimer := None |}.

(** [rooms.get(code)]: the room object and its content. *)
Definition getRoom (code : string) (σ : State.t) : option (nat * Room.t) :=
  r ← State.rooms σ !! code;
  room ← State.heap σ !! r;
  Some (r, room).

(** Mutation of the room object at [r]. *)
Definition updRoom (r : nat) (f : Room.t → Room.t) (σ : State.t) : State.t :=
  setHeap (alter f r) σ.

(** [emitRoomState(io, room)] for the room object at [r]. *)
Definition emitRoomStateAt (r : nat) (σ : State.t) : list Out :=
  match State.heap σ !! r with
  | Some room => emitRoomState room
  | None => []
  end.

(** [bindSession(sessionId, code, player, socket)], the player object being
    the one stored under [playerId] in the room object at [r]. *)
Definition bindSession (sessionId code : string) (r : nat) (playerId : string)
    (socket : string) (σ : State.t) : State.t :=
  match State.heap σ !! r ≫= (λ room, Map_get playerId (Room.players room)) with
  | None => σ
  | Some player =>
      let σ := clearTimeout (Player.disconnectTimer player) σ in
      let σ := updRoom r (setPlayers (updPlayer playerId
                 (λ p, setDisconnectTimer None
                         (setConnected true (setBinding socket sessionId p))))) σ in
      let σ := setSocketIndex
                 (<[socket := SocketEntry.mk code (Player.id player) sessionId]>) σ in
      setSessionIndex (<[sessionId := SessionEntry.mk code (Player.id player)]>) σ
  end.

Definition resetRoles (room : Room.t) : Room.t :=
  setPlayers (fmap (setRole None false)) room.

(** The owner after a departure: [room.players.values().next().value.id]
    when the departed player was the owner.  [players] is the roster after
    the deletion, not empty. *)
Definition nextOwnerId (departed : string) (ownerId : string)
    (players : list Player.t) : string :=
  if bool_decide (ownerId = departed) then
    match players with
    | nextOwner :: _ => Player.id nextOwner
    | [] => ownerId
    end
  else ownerId.

(** [removePlayerFromRoom(io, room, playerId, sessionId, socketId)]. *)
Definition removePlayerFromRoom (r : nat) (playerId sessionId socketId : string)
    (σ : State.t) : State.t * list Out :=
  match State.heap σ !! r with
  | None => (σ, [])
  | Some room =>
      match Map_get playerId (Room.players room) with
      | None => (σ, [])
      | Some player =>
          let σ := clearTimeout (Player.disconnectTimer player) σ in
          let σ := setDetached (<[playerId := setDisconnectTimer None player]>) σ in
          let σ := updRoom r (setPlayers (Map_delete playerId)) σ in
          let σ := if truthy (Some sessionId)
                   then setSessionIndex (delete sessionId) σ else σ in
          let σ := if truthy (Some socketId)
                   then setSocketIndex (delete socketId) σ else σ in
          let remaining := Map_delete playerId (Room.players room) in
          if bool_decide (length remaining = 0) then
            (setRooms (delete (Room.code room)) σ, [])
          else
            let σ := updRoom r (λ room, setOwnerId
                       (nextOwnerId playerId (Room.ownerId room) (Room.players room))
                       room) σ in
            (σ, emitRoomStateAt r σ)
      end
  end.

(** The callback of the disconnect timer, with the room object [r] and the
    player object [playerId] it captured. *)
Definition graceExpired (r : nat) (playerId : string) (σ : State.t)
    : State.t * list Out :=
  match State.heap σ !! r with
  | None => (σ, [])
  | Some room =>
      let inRoom := Map_get playerId (Room.players room) in
      match from_option Some (State.detached σ !! playerId) inRoom with
      | None => (σ, [])
      | Some player =>
          if Player.connected player then (σ, [])
          else
            let σ := if bool_decide (is_Some inRoom)
                     then setDetached (<[playerId := player]>) σ else σ in
            let σ := updRoom r (setPlayers (Map_delete (Player.id player))) σ in
            let σ := setSessionIndex (delete (Player.sessionId player)) σ in
            let remaining := Map_delete (Player.id player) (Room.players room) in
            if bool_decide (length remaining = 0) then
              (setRooms (delete (Room.code room)) σ, [])
            else
              let σ := updRoom r (λ room, setOwnerId
                         (nextOwnerId (Player.id player) (Room.ownerId room)
                                      (Room.players room))
                         room) σ in
              (σ, emitRoomStateAt r σ)
      end
  end.

(** ** The event handlers of a connection

    [socket] is [socket.id].  A handler returns the next state and the
    messages it emitted, in order. *)

Section Server.

Variable games : list Game.t.
Variables trim toLowerCase : string → string.

(** [String(name || "").trim().toLowerCase()]. *)
Definition normalizeName (name : option string) : string :=
  toLowerCase (trim (default "" name)).

(** [rawSessionId || crypto.randomUUID()]. *)
Definition sessionIdOf (rawSessionId : option string) (e : Entropy) : string :=
  if truthy rawSessionId then default "" rawSessionId else sessionUUID e.

Definition isOwnerSocket (socket : string) (room : Room.t) (σ : State.t) : bool :=
  match State.socketIndex σ !! socket with
  | None => false
  | Some index => bool_decide (SocketEntry.playerId index = Room.ownerId room)
  end.

Definition allSubmitted (room : Room.t) : bool :=
  forallb Player.hasSubmittedRole (Room.players room).

Definition on_session_restore (socket : string) (sessionId : option string)
    (σ : State.t) : State.t * list Out :=
  if negb (truthy sessionId) then (σ, [])
  else
    let sessionId := default "" sessionId in
    match State.sessionIndex σ !! sessionId with
    | None => (σ, [])
    | Some session =>
        match getRoom (SessionEntry.code session) σ with
        | None => (setSessionIndex (delete sessionId) σ, [])
        | Some (r, room) =>
            match Map_get (SessionEntry.playerId session) (Room.players room) with
            | None => (setSessionIndex (delete sessionId) σ, [])
            | Some player =>
                let σ := bindSession sessionId (Room.code room) r (Player.id player)
                                     socket σ in
                let out :=
                  [socket_join socket (Room.code room);
                   socket_emit socket
                     (room_joined (Player.id player)
                        (bool_decide (Player.id player = Room.ownerId room))
                        (Room.code room) sessionId)]
                  ++ emitRoomStateAt r σ in
                match State.heap σ !! r with
                | None => (σ, out)
                | Some room =>
                    match Map_get (Player.id player) (Room.players room) with
                    | None => (σ, out)
                    | Some player =>
                        if bool_decide (Room.phase room = reveal)
                           && truthy (Player.roleId player)
                        then (σ, out ++ [io_to_emit (Player.socketId player)
                                 (room_reveal (getRevealForPlayer games room player))])
                        else (σ, out)
                    end
                end
            end
        end
    end.

Definition on_room_create (socket : string) (name rawSessionId : option string)
    (e : Entropy) (σ : State.t) : option (State.t * list Out) :=
  let sessionId := sessionIdOf rawSessionId e in
  if negb (truthy name) then Some (σ, emitError socket "Name is required")
  else
    match generateRoomCode (State.rooms σ) (draws e) with
    | None => None
    | Some code =>
        let player := createPlayer (playerUUID e) (default "" name) socket sessionId in
        let room :=
          {| Room.code := code;
             Room.ownerId := Player.id player;
             Room.gameId := None;
             Room.phase := lobby;
             Room.players := Map_set player [] |} in
        let r := fresh (dom (State.heap σ)) in
        let σ := setHeap (<[r := room]>) σ in
        let σ := setRooms (<[code := r]>) σ in
        let σ := bindSession sessionId code r (Player.id player) socket σ in
        Some (σ, [socket_join socket code;
                  socket_emit socket (room_joined (Player.id player) true code sessionId)]
                 ++ emitRoomStateAt r σ)
    end.

Definition on_room_join (socket : string) (code name rawSessionId : option string)
    (e : Entropy) (σ : State.t) : State.t * list Out :=
  let sessionId := sessionIdOf rawSessionId e in
  if negb (truthy code) || negb (truthy name) then
    (σ, emitError socket "Code and name are required")
  else
    let code := default "" code in
    match getRoom code σ with
    | None => (σ, emitError socket "Room not found")
    | Some (r, room) =>
        let normalizedName := normalizeName name in
        let nameTaken :=
          existsb (λ player, bool_decide
                     (normalizeName (Some (Player.name player)) = normalizedName))
                  (Room.players room) in
        if nameTaken then
          (σ, emitError socket "That name is already taken in this room")
        else if bool_decide (Room.phase room ≠ lobby) then
          (σ, emitError socket "Game already started")
        else
          let player := createPlayer (playerUUID e) (default "" name) socket sessionId in
          let σ := updRoom r (setPlayers (Map_set player)) σ in
          let σ := bindSession sessionId code r (Player.id player) socket σ in
          (σ, [socket_join socket code;
               socket_emit socket (room_joined (Player.id player) false code sessionId)]
              ++ emitRoomStateAt r σ)
    end.

Definition on_room_selectGame (socket : string) (code gameId : string)
    (σ : State.t) : State.t * list Out :=
  match getRoom code σ with
  | None => (σ, emitError socket "Room not found")
  | Some (r, room) =>
      if negb (isOwnerSocket socket room σ) then
        (σ, emitError socket "Only the host can select the game")
      else if negb (bool_decide (is_Some (gameMap games !! gameId))) then
        (σ, emitError socket "Unknown game")
      else
        let σ := updRoom r (λ room,
                   resetRoles (setPhase lobby (setGameId (Some gameId) room))) σ in
        (σ, emitRoomStateAt r σ)
  end.

Definition on_room_start (socket : string) (code : string)
    (σ : State.t) : State.t * list Out :=
  match getRoom code σ with
  | None => (σ, emitError socket "Room not found")
  | Some (r, room) =>
      if negb (isOwnerSocket socket room σ) then
        (σ, emitError socket "Only the host can start the game")
      else if negb (truthy (Room.gameId room)) then
        (σ, emitError socket "Select a game first")
      else
        let σ := updRoom r (λ room, resetRoles (setPhase roles room)) σ in
        (σ, emitRoomStateAt r σ)
  end.

Definition on_room_reset (socket : string) (code : string)
    (σ : State.t) : State.t * list Out :=
  match getRoom code σ with
  | None => (σ, emitError socket "Room not found")
  | Some (r, room) =>
      if negb (isOwnerSocket socket room σ) then
        (σ, emitError socket "Only the host can reset the game")
      else
        let σ := updRoom r (λ room,
                   resetRoles (setPhase lobby (setGameId None room))) σ in
        (σ, emitRoomStateAt r σ ++ [io_to_emit (Room.code room) room_reset])
  end.

Definition on_room_leave (socket : string) (σ : State.t) : State.t * list Out :=
  match State.socketIndex σ !! socket with
  | None => (σ, [])
  | Some index =>
      match getRoom (SocketEntry.code index) σ with
      | None =>
          let σ := setSocketIndex (delete socket) σ in
          if truthy (Some (SocketEntry.sessionId index))
          then (setSessionIndex (delete (SocketEntry.sessionId index)) σ, [])
          else (σ, [])
      | Some (r, room) =>
          let '(σ, out) :=
            removePlayerFromRoom r (SocketEntry.playerId index)
                                 (SocketEntry.sessionId index) socket σ in
          (σ, [socket_leave socket (Room.code room)] ++ out
              ++ [socket_emit socket room_left])
      end
  end.

Definition on_role_submit (socket : string) (code roleId : string)
    (σ : State.t) : State.t * list Out :=
  match getRoom code σ, State.socketIndex σ !! socket with
  | Some (r, room), Some index =>
      if bool_decide (Room.phase room ≠ roles) then
        (σ, emitError socket "Roles are not open yet")
      else
        match Map_get (SocketEntry.playerId index) (Room.players room) with
        | None => (σ, emitError socket "Player not found")
        | Some player =>
            let known :=
              match getOpt (gameMap games) (Room.gameId room) with
              | None => false
              | Some game =>
                  bool_decide (is_Some
                    (List.find (λ role, bool_decide (Role.id role = roleId))
                               (Game.roles game)))
              end in
            if negb known then (σ, emitError socket "Unknown role")
            else
              let σ := updRoom r (setPlayers (updPlayer (Player.id player)
                         (setRole (Some roleId) true))) σ in
              let out := emitRoomStateAt r σ in
              match State.heap σ !! r with
              | None => (σ, out)
              | Some room =>
                  if allSubmitted room then
                    let σ := updRoom r (setPhase ready) σ in
                    (σ, out ++ emitRoomStateAt r σ)
                  else (σ, out)
              end
        end
  | _, _ => (σ, emitError socket "Room not found")
  end.

Definition on_room_revealConfirm (socket : string) (code : string)
    (σ : State.t) : State.t * list Out :=
  match getRoom code σ with
  | None => (σ, emitError socket "Room not found")
  | Some (r, room) =>
      if negb (isOwnerSocket socket room σ) then
        (σ, emitError socket "Only the host can reveal roles")
      else if bool_decide (Room.phase room ≠ ready) then
        (σ, emitError socket "Roles are not ready to reveal")
      else if negb (allSubmitted room) then
        (σ, emitError socket "Not everyone has confirmed a role")
      else
        let σ := updRoom r (setPhase reveal) σ in
        let room := setPhase reveal room in
        (σ, emitRoomState room
            ++ ((λ member, io_to_emit (Player.socketId member)
                   (room_reveal (getRevealForPlayer games room member)))
                <$> Room.players room))
  end.

Definition on_disconnect (socket : string) (σ : State.t) : State.t * list Out :=
  match State.socketIndex σ !! socket with
  | None => (σ, [])
  | Some index =>
      match getRoom (SocketEntry.code index) σ with
      | None => (setSocketIndex (delete socket) σ, [])
      | Some (r, room) =>
          let σ := setSocketIndex (delete socket) σ in
          match Map_get (SocketEntry.playerId index) (Room.players room) with
          | None => (σ, [])
          | Some player =>
              let σ := clearTimeout (Player.disconnectTimer player) σ in
              let '(t, σ) := setTimeout r (Player.id player) σ in
              let σ := updRoom r (setPlayers (updPlayer (Player.id player)
                         (λ p, setDisconnectTimer (Some t) (setConnected false p)))) σ in
              (σ, emitRoomStateAt r σ)
          end
      end
  end.

(** *** Requests and the transition relation *)

Inductive Request :=
  | session_restore (sessionId : option string)
  | room_create (name rawSessionId : option string)
  | room_join (code name rawSessionId : option string)
  | room_selectGame (code gameId : string)
  | room_start (code : string)
  | room_reset_request (code : string)
  | room_leave
  | role_submit (code roleId : string)
  | room_revealConfirm (code : string)
  | disconnect.

Definition handle (socket : string) (req : Request) (e : Entropy) (σ : State.t)
    : option (State.t * list Out) :=
  match req with
  | session_restore sessionId => Some (on_session_restore socket sessionId σ)
  | room_create name rawSessionId => on_room_create socket name rawSessionId e σ
  | room_join code name rawSessionId =>
      Some (on_room_join socket code name rawSessionId e σ)
  | room_selectGame code gameId => Some (on_room_selectGame socket code gameId σ)
  | room_start code => Some (on_room_start socket code σ)
  | room_reset_request code => Some (on_room_reset socket code σ)
  | room_leave => Some (on_room_leave socket σ)
  | role_submit code roleId => Some (on_role_submit socket code roleId σ)
  | room_revealConfirm code => Some (on_room_revealConfirm socket code σ)
  | disconnect => Some (on_disconnect socket σ)
  end.

(** A pending timer fires: it stops being pending and its callback runs. *)
Definition on_timeout (t : nat) (σ : State.t) : option (State.t * list Out) :=
  match State.timers σ !! t with
  | None => None
  | Some (r, playerId) => Some (graceExpired r playerId (setTimers (delete t) σ))
  end.

(** [crypto.randomUUID()] never returns the id of a player object that
    exists: one in a room object or one that was deleted from its room. *)
Definition freshPlayerId (uuid : string) (σ : State.t) : Prop :=
  State.detached σ !! uuid = None ∧
  ∀ r room, State.heap σ !! r = Some room → Map_get uuid (Room.players room) = None.

(** What can happen next: a request on a socket, or a pending timer firing. *)
Inductive Label :=
  | on_socket (socket : string) (req : Request) (e : Entropy)
  | on_timer (t : nat).

Definition run (l : Label) (σ : State.t) : option (State.t * list Out) :=
  match l with
  | on_socket socket req e => handle socket req e σ
  | on_timer t => on_timeout t σ
  end.

Definition admissible (l : Label) (σ : State.t) : Prop :=
  match l with
  | on_socket _ _ e => freshPlayerId (playerUUID e) σ
  | on_timer _ => True
  end.

Definition step (σ : State.t) (l : Label) (out : list Out) (σ' : State.t) : Prop :=
  admissible l σ ∧ run l σ = Some (σ', out).

Inductive reachable : State.t → Prop :=
  | reachable_initial : reachable initial
  | reachable_step σ l out σ' : reachable σ → step σ l out σ' → reachable σ'.

End Server.

(** ** A concrete catalog, concrete rooms and a concrete run *)

Definition avalon : Game.t :=
  {| Game.id := "avalon";
     Game.name := "The Resistance: Avalon";
     Game.roles :=
       [Role.mk "merlin" "Merlin" (Some "good");
        Role.mk "assassin" "Assassin" (Some "evil");
        Role.mk "percival" "Percival" (Some "good")];
     Game.revealRules :=
       [RevealRule.mk (Some "merlin") None (Some ["assassin"]) None None;
        RevealRule.mk (Some "percival") None None (Some ["evil"]) None] |}.

Definition fascistRule : RevealRule.t :=
  RevealRule.mk (Some "fascist") None (Some ["fascist"; "hitler"]) None None.

Definition secretHitler : Game.t :=
  {| Game.id := "secret-hitler";
     Game.name := "Secret Hitler";
     Game.roles :=
       [Role.mk "liberal" "Liberal" (Some "liberal");
        Role.mk "fascist" "Fascist" (Some "fascist");
        Role.mk "hitler" "Hitler" (Some "fascist")];
     Game.revealRules := [fascistRule] |}.

Definition catalog : list Game.t := [avalon; secretHitler].

Definition ann : Player.t := Player.mk "p1" "Ann" "A" "s1" (Some "fascist") true true None.
Definition bob : Player.t := Player.mk "p2" "Bob" "B" "s2" (Some "hitler") true true None.
Definition cy : Player.t := Player.mk "p3" "Cy" "C" "s3" (Some "liberal") true true None.

Definition hitlerRoom : Room.t :=
  {| Room.code := "1000";
     Room.ownerId := "p1";
     Room.gameId := Some "secret-hitler";
     Room.phase := reveal;
     Room.players := [ann; bob; cy] |}.

(** The same room with other roles submitted. *)
Definition hitlerRoom' : Room.t :=
  {| Room.code := "1000";
     Room.ownerId := "p1";
     Room.gameId := Some "secret-hitler";
     Room.phase := reveal;
     Room.players :=
       [setRole (Some "liberal") true ann; setRole (Some "liberal") true bob;
        setRole (Some "hitler") true cy] |}.

Definition avalonRoom : Room.t :=
  {| Room.code := "1000";
     Room.ownerId := "p1";
     Room.gameId := Some "avalon";
     Room.phase := reveal;
     Room.players :=
       [setRole (Some "merlin") true ann; setRole (Some "assassin") true bob;
        setRole (Some "percival") true cy] |}.

(** [freshPlayerId] as a check. *)
Definition freshPlayerIdb (uuid : string) (σ : State.t) : bool :=
  bool_decide (State.detached σ !! uuid = None)
  && bool_decide (map_Forall (λ _ room, Map_get uuid (Room.players room) = None)
                             (State.heap σ)).

(** Running a list of requests from a state, with the ASCII runtime; [None]
    when a request comes with a player id that is not fresh or with too few
    draws. *)
Fixpoint runRequests (reqs : list (string * Request * Entropy)) (σ : State.t)
    : option State.t :=
  match reqs with
  | [] => Some σ
  | (socket, req, e) :: reqs =>
      if freshPlayerIdb (playerUUID e) σ then
        match handle catalog asciiTrim asciiToLowerCase socket req e σ with
        | Some (σ', _) => runRequests reqs σ'
        | None => None
        end
      else None
  end.

Definition entropyA : Entropy := mkEntropy "s1" "p1" [1000%N].
Definition entropyB : Entropy := mkEntropy "s2" "p2" [1000%N].
Definition entropyC : Entropy := mkEntropy "s3" "p3" [1000%N; 1000%N; 4711%N].

(** For the requests that create no player. *)
Definition entropy0 : Entropy := mkEntropy "s0" "p0" [].

(** Ann creates room 1000 and Bob joins it. *)
Definition inLobby : list (string * Request * Entropy) :=
  [("A", room_create (Some "Ann") None, entropyA);
   ("B", room_join (Some "1000") (Some "Bob") None, entropyB)].

(** Then Ann selects Avalon and opens the roles. *)
Definition inRoles : list (string * Request * Entropy) :=
  inLobby ++
  [("A", room_selectGame "1000" "avalon", entropy0);
   ("A", room_start "1000", entropy0)].

(** Then both submit a role and Ann reveals. *)
Definition inReveal : list (string * Request * Entropy) :=
  inRoles ++
  [("A", role_submit "1000" "merlin", entropy0);
   ("B", role_submit "1000" "assassin", entropy0);
   ("A", room_revealConfirm "1000", entropy0)].

Definition phaseOf (code : string) (σ : option State.t) : option Phase :=
  σ ← σ; '(_, room) ← getRoom code σ; Some (Room.phase room).

Definition namesOf (code : string) (σ : option State.t) : option (list string) :=
  σ ← σ; '(_, room) ← getRoom code σ; Some (Player.name <$> Room.players room).

(** The order of the phases within a round. *)
Definition phaseRank (p : Phase) : nat :=
  match p with
  | lobby => 0
  | roles => 1
  | ready => 2
  | reveal => 3
  end.

(** A player with the role erased: what two rosters must agree on for the
    broadcast to be the same. *)
Definition eraseRoleId (p : Player.t) : Player.t :=
  Player.mk (Player.id p) (Player.name p) (Player.socketId p) (Player.sessionId p)
            None (Player.hasSubmittedRole p) (Player.connected p)
            (Player.disconnectTimer p).

Definition sameExceptRoleIds (room1 room2 : Room.t) : Prop :=
  Room.code room1 = Room.code room2 ∧
  Room.ownerId room1 = Room.ownerId room2 ∧
  Room.gameId room1 = Room.gameId room2 ∧
  Room.phase room1 = Room.phase room2 ∧
  eraseRoleId <$> Room.players room1 = eraseRoleId <$> Room.players room2.

Definition lobbyState : State.t := default initial (runRequests inLobby initial).
Definition rolesState : State.t := default initial (runRequests inRoles initial).
Definition revealState : State.t := default initial (runRequests inReveal initial).

(** Whether a message is a [room:error]. *)
Definition isError (o : Out) : bool :=
  match o with
  | socket_emit _ (room_error _) | io_to_emit _ (room_error _) => true
  | _ => false
  end.

(** The room object that [room:create] builds. *)
Definition createdRoom (socket : string) (name rawSessionId : option string)
    (e : Entropy) (code : string) : Room.t :=
  {| Room.code := code;
     Room.ownerId := playerUUID e;
     Room.gameId := None;
     Room.phase := lobby;
     Room.players :=
       [createPlayer (playerUUID e) (default "" name) socket
                     (sessionIdOf rawSessionId e)] |}.

(** ** Vocabulary of the statements *)

Definition playerIds (room : Room.t) : list string :=
  Player.id <$> Room.players room.

(** How one request or timer can move the phase of a room. *)
Definition phaseChange (l : Label) (before after : Phase) : Prop :=
  after = before ∨
  match l with
  | on_socket _ (room_selectGame _ _) _ => after = lobby
  | on_socket _ (room_reset_request _) _ => after = lobby
  | on_socket _ (room_start _) _ => after = roles
  | on_socket _ (role_submit _ _) _ => before = roles ∧ after = ready
  | on_socket _ (room_revealConfirm _) _ => before = ready ∧ after = reveal
  | _ => False
  end.

(** The labels that may set the phase whatever it was. *)
Definition setsPhase (l : Label) : bool :=
  match l with
  | on_socket _ (room_selectGame _ _) _ => true
  | on_socket _ (room_reset_request _) _ => true
  | on_socket _ (room_start _) _ => true
  | _ => false
  end.

(** What the owner's phase-setting requests establish when they succeed. *)
Definition phaseSet (l : Label) (σ' : State.t) : Prop :=
  match l with
  | on_socket _ (room_selectGame code _) _ => phaseOf code (Some σ') = Some lobby
  | on_socket _ (room_reset_request code) _ => phaseOf code (Some σ') = Some lobby
  | on_socket _ (room_start code) _ => phaseOf code (Some σ') = Some roles
  | _ => True
  end.

(** The two ways a player departs: an explicit [room:leave], and the
    disconnect timer firing. *)
Definition isDeparture (l : Label) : bool :=
  match l with
  | on_socket _ room_leave _ => true
  | on_timer _ => true
  | _ => false
  end.

(** A room object keeps its identity across a step: same code, same owner,
    members only added — and added only to a room that has members or is in
    the room table. *)
Definition keepsRoom (σ : State.t) (r : nat) (x y : Room.t) : Prop :=
  Room.code y = Room.code x ∧
  Room.ownerId y = Room.ownerId x ∧
  (∀ i, i ∈ playerIds x → i ∈ playerIds y) ∧
  (Room.players x = [] →
   Room.players y = [] ∨ ∃ code, State.rooms σ !! code = Some r).

(** The room object after [playerId] was deleted from its roster and, the
    roster not being empty, the owner was settled. *)
Definition departedRoom (playerId : string) (room : Room.t) : Room.t :=
  let remaining := Map_delete playerId (Room.players room) in
  if bool_decide (length remaining = 0) then setPlayers (λ _, remaining) room
  else setOwnerId (nextOwnerId playerId (Room.ownerId room) remaining)
                  (setPlayers (λ _, remaining) room).

(** The effect of a departure of [playerId] from the room object [r] on the
    room table and the room objects. *)
Definition departs (σ σ' : State.t) (r : nat) (playerId : string) : Prop :=
  ∃ room,
    State.heap σ !! r = Some room
    ∧ State.heap σ' !! r = Some (departedRoom playerId room)
    ∧ (∀ r', r' ≠ r → State.heap σ' !! r' = State.heap σ !! r')
    ∧ State.rooms σ' =
        if bool_decide (length (Map_delete playerId (Room.players room)) = 0)
        then delete (Room.code room) (State.rooms σ)
        else State.rooms σ.

Definition untouched (σ σ' : State.t) : Prop :=
  State.rooms σ' = State.rooms σ ∧ State.heap σ' = State.heap σ.

(** The invariant of the room table: a live room is a room object under its
    own code with at least one player, and the owner of a room object with
    players is one of them. *)
Definition ownerPresent (room : Room.t) : Prop :=
  Room.players room = [] ∨ Room.ownerId room ∈ playerIds room.

Definition roomsInv (σ : State.t) : Prop :=
  (∀ code r, State.rooms σ !! code = Some r →
     ∃ room, State.heap σ !! r = Some room
             ∧ Room.code room = code ∧ Room.players room ≠ [])
  ∧ (∀ r room, State.heap σ !! r = Some room → ownerPresent room).

(** Room objects related one by one, the same ones on both sides. *)
Definition heapRel (R : nat → Room.t → Room.t → Prop) (h h' : gmap nat Room.t) : Prop :=
  ∀ r, match h !! r, h' !! r with
       | Some x, Some y => R r x y
       | None, None => True
       | _, _ => False
       end.

(** What one step may do to a room object that stays in place. *)
Definition roomStep (σ : State.t) (l : Label) (r : nat) (x y : Room.t) : Prop :=
  keepsRoom σ r x y ∧ phaseChange l (Room.phase x) (Room.phase y).

(** A mutation that leaves code, owner, members and phase as they are. *)
Definition neutral (f : Room.t → Room.t) : Prop :=
  ∀ y, Room.code (f y) = Room.code y
       ∧ Room.ownerId (f y) = Room.ownerId y
       ∧ playerIds (f y) = playerIds y
       ∧ Room.phase (f y) = Room.phase y.

(** A step that deletes and creates no room: the room table is the same and
    every room object is still there, moved by [roomStep]. *)
Definition stepInPlace (l : Label) (σ σ' : State.t) : Prop :=
  State.rooms σ' = State.rooms σ
  ∧ heapRel (roomStep σ l) (State.heap σ) (State.heap σ').

(** Ann alone in room 1000, disconnected, her grace timer pending. *)
Definition aloneDisconnected : list (string * Request * Entropy) :=
  [("A", room_create (Some "Ann") None, entropyA);
   ("A", disconnect, entropy0)].

Definition aloneState : State.t :=
  default initial (runRequests aloneDisconnected initial).

(** The room object at address [r], for a state known to have one. *)
Definition roomAt (r : nat) (σ : State.t) : Room.t :=
  default hitlerRoom (State.heap σ !! r).

Definition runASCII (l : Label) (σ : State.t) : State.t :=
  default σ (fst <$> run catalog asciiTrim asciiToLowerCase l σ).

(** * Further definitions

    Vocabulary for the further properties of the handlers. *)

(** A decimal digit; a string of decimal digits. *)
Definition isDigit (c : ascii) : bool :=
  let n := nat_of_ascii c in bool_decide (48 ≤ n ≤ 57).

Fixpoint allDigits (s : string) : bool :=
  match s with
  | String c s' => isDigit c && allDigits s'
  | EmptyString => true
  end.

(** Whether a message is a [room:reveal]; whether it is sent with
    [io.to(...).emit]. *)
Definition isReveal (o : Out) : bool :=
  match o with
  | socket_emit _ (room_reveal _) | io_to_emit _ (room_reveal _) => true
  | _ => false
  end.

Definition isBroadcast (o : Out) : bool :=
  match o with
  | io_to_emit _ _ => true
  | _ => false
  end.

(** The player object after the disconnect handler marked it. *)
Definition disconnected (t : nat) (p : Player.t) : Player.t :=
  setDisconnectTimer (Some t) (setConnected false p).

(** The state after [disconnect] on a socket bound to a player of a live room. *)
Definition afterDisconnect (socket : string) (r : nat) (player : Player.t)
    (σ : State.t) : State.t :=
  let t := State.nextTimer σ in
  updRoom r (setPlayers (updPlayer (Player.id player) (disconnected t)))
    (setTimeout r (Player.id player)
       (clearTimeout (Player.disconnectTimer player)
          (setSocketIndex (delete socket) σ))).2.

(** ** What a step can do to a room object

    The changes the handlers and the timer callback make to a room object
    that exists, one constructor for each kind; [room_invariant] below shows
    that a run makes no other. *)

Section Mutations.

Variable games : list Game.t.
Variables trim toLowerCase : string → string.

(** An update of a player object that leaves id, name and role fields. *)
Definition keepsPlayer (g : Player.t → Player.t) : Prop :=
  ∀ p, Player.id (g p) = Player.id p
       ∧ Player.name (g p) = Player.name p
       ∧ Player.roleId (g p) = Player.roleId p
       ∧ Player.hasSubmittedRole (g p) = Player.hasSubmittedRole p.

Definition normalizedNames (room : Room.t) : list string :=
  (λ p, normalizeName trim toLowerCase (Some (Player.name p))) <$> Room.players room.

Inductive mutation : Room.t → Room.t → Prop :=
  | mut_players y k g :
      keepsPlayer g →
      mutation y (setPlayers (updPlayer k g) y)
  | mut_join y p :
      Room.phase y = lobby →
      Map_get (Player.id p) (Room.players y) = None →
      Player.roleId p = None →
      Player.hasSubmittedRole p = false →
      normalizeName trim toLowerCase (Some (Player.name p)) ∉ normalizedNames y →
      mutation y (setPlayers (Map_set p) y)
  | mut_selectGame y gameId :
      is_Some (gameMap games !! gameId) →
      mutation y (resetRoles (setPhase lobby (setGameId (Some gameId) y)))
  | mut_start y :
      truthy (Room.gameId y) = true →
      mutation y (resetRoles (setPhase roles y))
  | mut_reset y :
      mutation y (resetRoles (setPhase lobby (setGameId None y)))
  | mut_submit y k roleId game :
      Room.phase y = roles →
      getOpt (gameMap games) (Room.gameId y) = Some game →
      roleId ∈ Role.id <$> Game.roles game →
      mutation y (setPlayers (updPlayer k (setRole (Some roleId) true)) y)
  | mut_advance y :
      Room.phase y = roles →
      allSubmitted y = true →
      mutation y (setPhase ready y)
  | mut_reveal y :
      Room.phase y = ready →
      allSubmitted y = true →
      mutation y (setPhase reveal y)
  | mut_depart y k :
      mutation y (departedRoom k y).

(** Zero or more mutations in a row. *)
Definition mutated (r : nat) (x y : Room.t) : Prop := rtc mutation x y.

End Mutations.

(** ** Invariants of a room object *)

(** A player has submitted exactly when a role is recorded, and a recorded
    role is a role of the game selected for the room. *)
Definition rolesConsistent (games : list Game.t) (room : Room.t) : Prop :=
  ∀ p, p ∈ Room.players room →
    (Player.hasSubmittedRole p = true ↔ is_Some (Player.roleId p))
    ∧ ∀ roleId, Player.roleId p = Some roleId →
        ∃ game, getOpt (gameMap games) (Room.gameId room) = Some game
                ∧ roleId ∈ Role.id <$> Game.roles game.

(** The selected game, if any, is in the catalog, and one is selected
    whenever the phase is past [lobby]. *)
Definition gameResolved (games : list Game.t) (room : Room.t) : Prop :=
  (∀ gameId, Room.gameId room = Some gameId → is_Some (gameMap games !! gameId))
  ∧ (Room.phase room ≠ lobby → truthy (Room.gameId room) = true).

(** In [ready] and [reveal] everyone has submitted. *)
Definition submittedWhenReady (room : Room.t) : Prop :=
  Room.phase room = ready ∨ Room.phase room = reveal → allSubmitted room = true.

(** ** Pending timers

    A pending timer is armed when the player object it captured is in the
    roster of the room object it captured, marked disconnected, with this
    timer as its handle. *)
Definition armed (h : gmap nat Room.t) (t r : nat) (playerId : string) : Prop :=
  ∃ room p,
    h !! r = Some room
    ∧ Map_get playerId (Room.players room) = Some p
    ∧ Player.connected p = false
    ∧ Player.disconnectTimer p = Some t.

Definition allArmed (timers : gmap nat (nat * string)) (h : gmap nat Room.t) : Prop :=
  ∀ t r playerId, timers !! t = Some (r, playerId) → armed h t r playerId.

Definition timersArmed (σ : State.t) : Prop :=
  allArmed (State.timers σ) (State.heap σ).

(** The player [playerId] of [x], if any, is in [y] with the same connection
    state. *)
Definition keepsArmedAt (playerId : string) (x y : Room.t) : Prop :=
  ∀ p, Map_get playerId (Room.players x) = Some p →
    ∃ p', Map_get playerId (Room.players y) = Some p'
          ∧ Player.connected p' = Player.connected p
          ∧ Player.disconnectTimer p' = Player.disconnectTimer p.

(** The timer table after [clearTimeout(handle)]. *)
Definition cleared (handle : option nat) (timers : gmap nat (nat * string))
    : gmap nat (nat * string) :=
  match handle with
  | Some t => delete t timers
  | None => timers
  end.

(** A room object with players is in the room table under its own code. *)
Definition roomsListed (σ : State.t) : Prop :=
  ∀ r room, State.heap σ !! r = Some room → Room.players room ≠ [] →
    State.rooms σ !! Room.code room = Some r.

(** ** Requests by kind *)

(** The requests the handlers reserve to the owner of the room, with the
    code they name. *)
Definition ownerRequest (req : Request) : option string :=
  match req with
  | room_selectGame code _ | room_start code | room_reset_request code
  | room_revealConfirm code => Some code
  | _ => None
  end.

(** The requests that call [resetRoles]. *)
Definition roundRequest (req : Request) : option string :=
  match req with
  | room_selectGame code _ | room_start code | room_reset_request code => Some code
  | _ => None
  end.

(** ** Further states of room 1000 *)

(** Ann and Bob have both submitted a role. *)
Definition inReady : list (string * Request * Entropy) :=
  inRoles ++
  [("A", role_submit "1000" "merlin", entropy0);
   ("B", role_submit "1000" "assassin", entropy0)].

Definition readyState : State.t := default initial (runRequests inReady initial).

(** Bob's connection dropped in the lobby; his grace timer is pending. *)
Definition bobAway : list (string * Request * Entropy) :=
  inLobby ++ [("B", disconnect, entropy0)].

Definition bobAwayState : State.t := default initial (runRequests bobAway initial).

(** * The client's join form and requests

    [app/home-client.tsx]: the handlers of the four inputs of the join code,
    and the two functions that send [room:create] and [room:join].  A
    handler is a function of the state it reads ([joinCode], the names, the
    socket) and of its event.  Text is the UTF-8 bytes of the JavaScript
    string: on text that is decimal digits, the only text the code field
    ever holds, bytes and UTF-16 code units are the same, and
    [replace(/\D/g, "")] removes every other byte or code unit alike. *)

Module Client.

Definition joinCodeLength : nat := 4.

(** [text.replace(/\D/g, "")]. *)
Fixpoint digitsOnly (text : string) : string :=
  match text with
  | EmptyString => EmptyString
  | String c rest => if isDigit c then String c (digitsOnly rest) else digitsOnly rest
  end.

(** [s.slice(0, n)]. *)
Definition slice0 (n : nat) (s : string) : string := String.substring 0 n s.

(** [s[i] ?? ""]. *)
Definition charAt (s : string) (i : nat) : string :=
  match String.get i s with
  | Some c => String c EmptyString
  | None => EmptyString
  end.

(** [Array.from({ length: joinCodeLength }, (_, i) => s[i] ?? "")]. *)
Definition digitsOf (s : string) : list string := charAt s <$> seq 0 joinCodeLength.

(** [digits.join("")]; a hole of the array is joined as the empty string. *)
Definition join (digits : list string) : string := foldr String.append EmptyString digits.

(** [digits[index] = d]: past the end, JavaScript extends the array with
    holes. *)
Definition arraySet (index : nat) (d : string) (digits : list string) : list string :=
  if bool_decide (index < length digits) then <[index := d]> digits
  else digits ++ replicate (index - length digits) EmptyString ++ [d].

(** [raw[raw.length - 1]]. *)
Definition lastChar (raw : string) : string := charAt raw (String.length raw - 1).

(** The next [joinCode] after [handleJoinCodeDigitChange(index, event)],
    [value] being [event.target.value]. *)
Definition handleJoinCodeDigitChange (index : nat) (value : string)
    (joinCode : string) : string :=
  let raw := digitsOnly value in
  let digits := digitsOf joinCode in
  join (arraySet index (if truthy (Some raw) then lastChar raw else EmptyString) digits).

(** The next [joinCode] after [handleJoinCodePaste(event)], [text] being the
    text of the clipboard. *)
Definition handleJoinCodePaste (text : string) (joinCode : string) : string :=
  let pasted := slice0 joinCodeLength (digitsOnly text) in
  if negb (truthy (Some pasted)) then joinCode
  else join (digitsOf pasted).

(** The next [joinCode] after the effect on [searchParams.get("code")]. *)
Definition codeFromQuery (code : option string) (joinCode : string) : string :=
  if truthy code then slice0 joinCodeLength (digitsOnly (default EmptyString code))
  else joinCode.

(** What can set [joinCode]. *)
Inductive FormEvent :=
  | digit_change (index : nat) (value : string)
  | paste (text : string)
  | query (code : option string).

Definition onFormEvent (joinCode : string) (ev : FormEvent) : string :=
  match ev with
  | digit_change index value => handleJoinCodeDigitChange index value joinCode
  | paste text => handleJoinCodePaste text joinCode
  | query code => codeFromQuery code joinCode
  end.

(** The form renders [joinCodeLength] inputs: [index] is one of them. *)
Definition rendered (ev : FormEvent) : Prop :=
  match ev with
  | digit_change index _ => index < joinCodeLength
  | _ => True
  end.

(** One cell of the code: empty or one decimal digit. *)
Definition cell (x : string) : Prop :=
  x = EmptyString ∨ ∃ c, isDigit c = true ∧ x = String c EmptyString.

Section Runtime.

(** [String.prototype.trim] and the [length] of a string. *)
Variable trim : string → string.
Variable jsLength : string → nat.

(** [/^\d{4}$/.test(joinCode.trim())]. *)
Definition isJoinCodeValid (joinCode : string) : bool :=
  bool_decide (String.length (trim joinCode) = 4) && allDigits (trim joinCode).

(** [createRoom]: the request emitted, if any.  [socket] is the socket of
    the component or null. *)
Definition createRoom (socket : option string) (createName : string)
    (sessionId : option string) : option Request :=
  let trimmedCreateName := trim createName in
  if negb (bool_decide (is_Some socket)) || negb (truthy (Some trimmedCreateName))
     || bool_decide (10 < jsLength trimmedCreateName)
  then None
  else Some (room_create (Some trimmedCreateName) (Some (default EmptyString sessionId))).

(** [joinRoom]: the request emitted, if any. *)
Definition joinRoom (socket : option string) (joinName joinCode : string)
    (sessionId : option string) : option Request :=
  let trimmedJoinName := trim joinName in
  if negb (bool_decide (is_Some socket)) || negb (truthy (Some trimmedJoinName))
     || bool_decide (10 < jsLength trimmedJoinName)
     || negb (truthy (Some (trim joinCode)))
  then None
  else Some (room_join (Some (trim joinCode)) (Some trimmedJoinName)
                       (Some (default EmptyString sessionId))).

End Runtime.

End Client.

(** * Properties *)

(** ** Lists, maps and sets *)

Lemma elem_of_filter_bool {A} (f : A → bool) (l : list A) (x : A) :
  x ∈ List.filter f l ↔ x ∈ l ∧ f x = true.
Proof. rewrite !list_elem_of_In. apply filter_In. Qed.

Lemma hasOpt_true (ids : list string) (v : option string) :
  hasOpt (list_to_set ids) v = true ↔ ∃ x, v = Some x ∧ x ∈ ids.
Proof.
  destruct v as [x|]; simpl.
  - rewrite bool_decide_eq_true, elem_of_list_to_set.
    split; [eauto | by intros (y & [= ->] & ?)].
  - split; [done | by intros (x & ? & _)].
Qed.

Lemma truthy_true (v : option string) :
  truthy v = true ↔ ∃ s, v = Some s ∧ s ≠ "".
Proof.
  destruct v as [s|]; simpl.
  - rewrite bool_decide_eq_true.
    split; [eauto | by intros (y & [= ->] & ?)].
  - split; [done | by intros (s & ? & _)].
Qed.

(** ** The reveal payload *)

(** The filter of the custom branch, clause by clause. *)
Lemma customVisible_true game rule player item :
  customVisible game rule player item = true ↔
    (RevealRule.includeSelf rule = Some true ∧ Player.id item = Player.id player)
    ∨ (∃ roleId, Player.roleId item = Some roleId
         ∧ roleId ∈ default [] (RevealRule.visibleRoleIds rule))
    ∨ (∃ roleId role partyId,
         Player.roleId item = Some roleId
         ∧ roleMap (Game.roles game) !! roleId = Some role
         ∧ Role.partyId role = Some partyId ∧ partyId ≠ ""
         ∧ partyId ∈ default [] (RevealRule.visiblePartyIds rule)).
Proof.
  unfold customVisible.
  destruct (bool_decide (RevealRule.includeSelf rule = Some true)) eqn:Hself;
    [apply bool_decide_eq_true in Hself | apply bool_decide_eq_false in Hself];
    simpl.
  1: destruct (bool_decide (Player.id item = Player.id player)) eqn:Hid;
       [apply bool_decide_eq_true in Hid; tauto |
        apply bool_decide_eq_false in Hid].
  all: destruct (hasOpt _ (Player.roleId item)) eqn:Hrole;
    [ apply hasOpt_true in Hrole; tauto | ].
  all: assert (Hno : ¬ ∃ roleId, Player.roleId item = Some roleId
         ∧ roleId ∈ default [] (RevealRule.visibleRoleIds rule))
    by (rewrite <- hasOpt_true, Hrole; discriminate).
  all: unfold getOpt; destruct (Player.roleId item) as [rid|] eqn:Hrid; simpl.
  all: try destruct (roleMap (Game.roles game) !! rid) as [role|] eqn:Hget.
  all: rewrite ?andb_true_iff, ?truthy_true, ?hasOpt_true.
  all: split; [ | intros [[? ?]|[?|(rid' & role' & pid & ? & ? & ? & ? & ?)]];
                  simplify_eq; try done; eauto 10 ].
  all: try discriminate.
  all: intros [(s & Hs & ?) (x & Hx & ?)]; simplify_eq; right; right; eauto 10.
Qed.

Lemma getReveal_custom games room player game rule :
  getOpt (gameMap games) (Room.gameId room) = Some game →
  findRule game player = Some rule →
  RevealRule.scope rule ≠ Some "all" →
  RevealRule.scope rule ≠ Some "self" →
  getRevealForPlayer games room player =
    {| Reveal.gameId := Room.gameId room;
       Reveal.visiblePlayers :=
         revealEntry <$> List.filter (customVisible game rule player) (Room.players room) |}.
Proof.
  intros Hgame Hrule Hall Hself. unfold getRevealForPlayer.
  rewrite Hgame, Hrule. simpl.
  rewrite !bool_decide_eq_false_2 by done. done.
Qed.

(** The example of the specification: Merlin sees the assassin, Percival
    sees the evil party, and the assassin, who has no rule, sees only
    themselves. *)
Example reveal_avalon :
  Reveal.visiblePlayers
    (getRevealForPlayer catalog avalonRoom (setRole (Some "merlin") true ann))
  = [revealEntry (setRole (Some "assassin") true bob)]
  ∧ Reveal.visiblePlayers
      (getRevealForPlayer catalog avalonRoom (setRole (Some "percival") true cy))
    = [revealEntry (setRole (Some "assassin") true bob)]
  ∧ Reveal.visiblePlayers
      (getRevealForPlayer catalog avalonRoom (setRole (Some "assassin") true bob))
    = [revealEntry (setRole (Some "assassin") true bob)].
Proof. repeat split; vm_compute; reflexivity. Qed.

(** C1 (as amended): under a rule of custom scope, the acting player's own
    entry is in the reveal payload exactly when the rule has
    [includeSelf: true], or the player's own role is listed in
    [visibleRoleIds], or the party of the player's own role is listed in
    [visiblePartyIds]. *)
Theorem own_entry_custom_scope games room player game rule :
  getOpt (gameMap games) (Room.gameId room) = Some game →
  findRule game player = Some rule →
  RevealRule.scope rule ≠ Some "all" →
  RevealRule.scope rule ≠ Some "self" →
  player ∈ Room.players room →
  revealEntry player ∈ Reveal.visiblePlayers (getRevealForPlayer games room player) ↔
    RevealRule.includeSelf rule = Some true
    ∨ (∃ roleId, Player.roleId player = Some roleId
         ∧ roleId ∈ default [] (RevealRule.visibleRoleIds rule))
    ∨ (∃ roleId role partyId,
         Player.roleId player = Some roleId
         ∧ roleMap (Game.roles game) !! roleId = Some role
         ∧ Role.partyId role = Some partyId ∧ partyId ≠ ""
         ∧ partyId ∈ default [] (RevealRule.visiblePartyIds rule)).
Proof.
  intros Hgame Hrule Hall Hself Hin.
  rewrite (getReveal_custom _ _ _ _ _ Hgame Hrule Hall Hself). simpl.
  rewrite list_elem_of_fmap. split.
  - intros (item & Heq & Hitem). apply elem_of_filter_bool in Hitem as [_ Hvis].
    apply customVisible_true in Hvis. injection Heq as Hid _ Hrole.
    rewrite <- Hrole in Hvis. tauto.
  - intros Hvis. exists player. split; [done|].
    apply elem_of_filter_bool. split; [done|].
    apply customVisible_true. tauto.
Qed.

Lemma own_entry_custom_scope_witness :
  ann ∈ Room.players hitlerRoom ∧
  (revealEntry ann
     ∈ Reveal.visiblePlayers (getRevealForPlayer catalog hitlerRoom ann) ↔
   RevealRule.includeSelf fascistRule = Some true
   ∨ (∃ roleId, Player.roleId ann = Some roleId
        ∧ roleId ∈ default [] (RevealRule.visibleRoleIds fascistRule))
   ∨ (∃ roleId role partyId,
        Player.roleId ann = Some roleId
        ∧ roleMap (Game.roles secretHitler) !! roleId = Some role
        ∧ Role.partyId role = Some partyId ∧ partyId ≠ ""
        ∧ partyId ∈ default [] (RevealRule.visiblePartyIds fascistRule))).
Proof.
  assert (Hin : ann ∈ Room.players hitlerRoom) by (simpl; left).
  split; [exact Hin|].
  apply (own_entry_custom_scope catalog hitlerRoom ann secretHitler fascistRule).
  - reflexivity.
  - reflexivity.
  - simpl. discriminate.
  - simpl. discriminate.
  - exact Hin.
Defined.

(** C1 (as stated) fails: the fascist rule has custom scope and no
    [includeSelf], and a fascist still gets their own entry, because
    ["fascist"] is in the rule's [visibleRoleIds]. *)
Lemma own_entry_without_includeSelf :
  getOpt (gameMap catalog) (Room.gameId hitlerRoom) = Some secretHitler ∧
  findRule secretHitler ann = Some fascistRule ∧
  RevealRule.scope fascistRule = None ∧
  ann ∈ Room.players hitlerRoom ∧
  ¬ (revealEntry ann
       ∈ Reveal.visiblePlayers (getRevealForPlayer catalog hitlerRoom ann) ↔
     RevealRule.includeSelf fascistRule = Some true).
Proof.
  split; [reflexivity|]. split; [reflexivity|]. split; [reflexivity|].
  split; [simpl; left|].
  intros [Hto _].
  assert (Hin : revealEntry ann
            ∈ Reveal.visiblePlayers (getRevealForPlayer catalog hitlerRoom ann)).
  { vm_compute. left. }
  apply Hto in Hin. discriminate Hin.
Qed.

(** C10: a matching rule without a [scope] field is evaluated as a custom
    rule, filtering the roster by [includeSelf], [visibleRoleIds] and
    [visiblePartyIds]; the self payload is the result when no rule matches. *)
Theorem missing_scope_is_custom games room player game :
  getOpt (gameMap games) (Room.gameId room) = Some game →
  match findRule game player with
  | Some rule =>
      RevealRule.scope rule = None →
      getRevealForPlayer games room player =
        {| Reveal.gameId := Room.gameId room;
           Reveal.visiblePlayers :=
             revealEntry <$>
               List.filter (customVisible game rule player) (Room.players room) |}
  | None =>
      getRevealForPlayer games room player =
        {| Reveal.gameId := Room.gameId room;
           Reveal.visiblePlayers := [revealEntry player] |}
  end.
Proof.
  intros Hgame. destruct (findRule game player) as [rule|] eqn:Hrule.
  - intros Hscope.
    apply (getReveal_custom _ _ _ _ _ Hgame Hrule); rewrite Hscope; discriminate.
  - unfold getRevealForPlayer. rewrite Hgame, Hrule. reflexivity.
Qed.

Lemma missing_scope_is_custom_witness :
  getRevealForPlayer catalog hitlerRoom ann =
    {| Reveal.gameId := Some "secret-hitler";
       Reveal.visiblePlayers := [revealEntry ann; revealEntry bob] |}
  ∧ getRevealForPlayer catalog hitlerRoom cy =
    {| Reveal.gameId := Some "secret-hitler";
       Reveal.visiblePlayers := [revealEntry cy] |}.
Proof.
  split.
  - pose proof (missing_scope_is_custom catalog hitlerRoom ann secretHitler eq_refl) as H.
    change (findRule secretHitler ann) with (Some fascistRule) in H.
    rewrite (H eq_refl). vm_compute. reflexivity.
  - pose proof (missing_scope_is_custom catalog hitlerRoom cy secretHitler eq_refl) as H.
    change (findRule secretHitler cy) with (@None RevealRule.t) in H.
    rewrite H. reflexivity.
Defined.

(** ** The room-state broadcast *)

Lemma serializePlayer_erase p q :
  eraseRoleId p = eraseRoleId q → serializePlayer p = serializePlayer q.
Proof.
  unfold eraseRoleId, serializePlayer. intros [= Hid Hname _ _ Hsub _ _].
  by rewrite Hid, Hname, Hsub.
Qed.

(** C6: the broadcast payload does not depend on the players' roles: two
    rooms that differ only in [roleId] fields serialize to the same payload,
    and each player's part of it is the player's id, name and
    [hasSubmittedRole], in roster order. *)
Theorem serializeRoom_hides_roles room1 room2 :
  sameExceptRoleIds room1 room2 →
  serializeRoom room1 = serializeRoom room2
  ∧ RoomState.players (serializeRoom room1) =
      (λ p, PlayerView.mk (Player.id p) (Player.name p) (Player.hasSubmittedRole p))
        <$> Room.players room1.
Proof.
  intros (Hcode & Howner & Hgame & Hphase & Hplayers). split; [|reflexivity].
  unfold serializeRoom. rewrite Hcode, Howner, Hgame, Hphase. f_equal.
  assert (Hs : serializePlayer <$> (eraseRoleId <$> Room.players room1)
             = serializePlayer <$> (eraseRoleId <$> Room.players room2))
    by (by rewrite Hplayers).
  rewrite <- !list_fmap_compose in Hs.
  etrans; [|etrans; [exact Hs|]]; apply list_fmap_ext; intros ? p _; simpl;
    by destruct p.
Qed.

Lemma serializeRoom_hides_roles_witness :
  sameExceptRoleIds hitlerRoom hitlerRoom' ∧
  serializeRoom hitlerRoom = serializeRoom hitlerRoom'.
Proof.
  assert (H : sameExceptRoleIds hitlerRoom hitlerRoom').
  { repeat split; reflexivity. }
  split; [exact H|].
  exact (proj1 (serializeRoom_hides_roles hitlerRoom hitlerRoom' H)).
Defined.

(** ** Room codes *)

Lemma generateRoomCode_unique_aux (rooms : gmap string nat) (draws : list N) :
  (∀ code, generateRoomCode rooms draws = Some code ↔
     ∃ taken n rest,
       draws = taken ++ n :: rest ∧ code = pretty n ∧ rooms !! code = None
       ∧ ∀ m, m ∈ taken → is_Some (rooms !! pretty m))
  ∧ (∀ code, generateRoomCode rooms draws = Some code → rooms !! code = None)
  ∧ (generateRoomCode rooms draws = None ↔
       ∀ m, m ∈ draws → is_Some (rooms !! pretty m)).
Proof.
  assert (Hchar : ∀ code, generateRoomCode rooms draws = Some code ↔
     ∃ taken n rest,
       draws = taken ++ n :: rest ∧ code = pretty n ∧ rooms !! code = None
       ∧ ∀ m, m ∈ taken → is_Some (rooms !! pretty m)).
  { intros code. induction draws as [|d draws IH]; simpl.
    - split; [done|]. intros (taken & n & rest & Heq & _). by destruct taken.
    - case_bool_decide as Hd.
      + rewrite IH. split.
        * intros (taken & n & rest & -> & -> & Hfree & Htaken).
          exists (d :: taken), n, rest. repeat split; [done|].
          intros m [->|Hm]%elem_of_cons; auto.
        * intros (taken & n & rest & Heq & -> & Hfree & Htaken).
          destruct taken as [|d' taken]; simpl in Heq; simplify_eq.
          { rewrite Hfree in Hd. by destruct Hd. }
          exists taken, n, rest. repeat split; [done|].
          intros m Hm. apply Htaken. by right.
      + rewrite <- eq_None_not_Some in Hd. split.
        * intros [= <-]. exists [], d, draws. repeat split; [done|].
          intros m Hm. by apply elem_of_nil in Hm.
        * intros (taken & n & rest & Heq & -> & Hfree & Htaken).
          destruct taken as [|d' taken]; simpl in Heq; simplify_eq; [done|].
          specialize (Htaken d' ltac:(left)). rewrite Hd in Htaken.
          by destruct Htaken. }
  split; [exact Hchar|]. split.
  - intros code (taken & n & rest & _ & _ & Hfree & _)%Hchar. exact Hfree.
  - clear Hchar. induction draws as [|d draws IH]; simpl.
    + split; [|done]. intros _ m Hm. by apply elem_of_nil in Hm.
    + case_bool_decide as Hd.
      * rewrite IH. split.
        -- intros Hall m [->|Hm]%elem_of_cons; auto.
        -- intros Hall m Hm. apply Hall. by right.
      * split; [done|]. intros Hall. destruct Hd. apply Hall. left.
Qed.

(** C9: the code loop returns the first draw that is not the code of a live
    room, having skipped the draws before it because they collide; so the
    code it returns is never held by a live room, and it returns as soon as
    one draw is free. *)
Theorem generateRoomCode_unique (rooms : gmap string nat) (draws : list N) :
  (∀ code, generateRoomCode rooms draws = Some code ↔
     ∃ taken n rest,
       draws = taken ++ n :: rest ∧ code = pretty n ∧ rooms !! code = None
       ∧ ∀ m, m ∈ taken → is_Some (rooms !! pretty m))
  ∧ (∀ code, generateRoomCode rooms draws = Some code → rooms !! code = None)
  ∧ (generateRoomCode rooms draws = None ↔
       ∀ m, m ∈ draws → is_Some (rooms !! pretty m)).
Proof. apply generateRoomCode_unique_aux. Qed.

Lemma generateRoomCode_unique_witness :
  generateRoomCode {["1000" := 0]} [1000%N; 1000%N; 4711%N] = Some "4711"
  ∧ ({["1000" := 0]} : gmap string nat) !! "4711" = None.
Proof.
  split; [reflexivity|].
  apply (proj1 (proj2 (generateRoomCode_unique {["1000" := 0]}
                         [1000%N; 1000%N; 4711%N]))).
  reflexivity.
Defined.

(** ** Reading and writing room objects *)

Lemma getRoom_Some code σ r room :
  getRoom code σ = Some (r, room) ↔
  State.rooms σ !! code = Some r ∧ State.heap σ !! r = Some room.
Proof.
  unfold getRoom. destruct (State.rooms σ !! code) as [r'|]; simpl.
  - destruct (State.heap σ !! r') as [room'|] eqn:Hheap; simpl.
    + split; [by intros [= <- <-] | intros [[= <-] Hr]; congruence].
    + split; [done | intros [[= <-] Hr]; congruence].
  - split; [done | by intros [? _]].
Qed.

Lemma heap_updRoom_eq r f σ room :
  State.heap σ !! r = Some room →
  State.heap (updRoom r f σ) !! r = Some (f room).
Proof. intros H. unfold updRoom. simpl. by rewrite lookup_alter_eq, H. Qed.

Lemma allSubmitted_true room :
  allSubmitted room = true ↔
  ∀ p, p ∈ Room.players room → Player.hasSubmittedRole p = true.
Proof.
  unfold allSubmitted. rewrite forallb_forall.
  by setoid_rewrite list_elem_of_In.
Qed.

Lemma allSubmitted_false room :
  allSubmitted room = false ↔
  ∃ p, p ∈ Room.players room ∧ Player.hasSubmittedRole p = false.
Proof.
  unfold allSubmitted. induction (Room.players room) as [|q l IH]; simpl.
  - split; [done|]. intros (p & Hp & _). by apply elem_of_nil in Hp.
  - rewrite andb_false_iff, IH. split.
    + intros [Hq|(p & Hp & Hs)]; [exists q | exists p]; split; auto; by constructor.
    + intros (p & [->|Hp]%elem_of_cons & Hs); eauto.
Qed.

Lemma emitError_in socket message :
  socket_emit socket (room_error message) ∈ emitError socket message.
Proof. unfold emitError. left. Qed.

(** ** Role submission *)

(** C5: a role submission that succeeds in phase [roles] leaves the room in
    phase [ready] exactly when, with the submission applied, every player of
    the room has [hasSubmittedRole]; when some player has not, the phase is
    still [roles].  The roster keeps its size. *)
Theorem submit_auto_advance games socket code roleId σ σ' out r room :
  getRoom code σ = Some (r, room) →
  Room.phase room = roles →
  on_role_submit games socket code roleId σ = (σ', out) →
  (∀ message, socket_emit socket (room_error message) ∉ out) →
  ∃ index room',
    State.socketIndex σ !! socket = Some index
    ∧ State.heap σ' !! r = Some room'
    ∧ Room.players room' =
        updPlayer (SocketEntry.playerId index) (setRole (Some roleId) true)
                  (Room.players room)
    ∧ length (Room.players room') = length (Room.players room)
    ∧ (Room.phase room' = ready ↔
         ∀ p, p ∈ Room.players room' → Player.hasSubmittedRole p = true)
    ∧ (Room.phase room' = roles ↔
         ∃ p, p ∈ Room.players room' ∧ Player.hasSubmittedRole p = false).
Proof.
  intros Hroom Hphase Hrun Hok.
  pose proof Hroom as [_ Hheap]%getRoom_Some.
  unfold on_role_submit in Hrun. rewrite Hroom in Hrun.
  destruct (State.socketIndex σ !! socket) as [index|] eqn:Hindex;
    [|injection Hrun as <- <-; destruct (Hok _ (emitError_in _ _))].
  rewrite bool_decide_eq_false_2 in Hrun by (rewrite Hphase; tauto).
  destruct (Map_get (SocketEntry.playerId index) (Room.players room))
    as [player|] eqn:Hplayer;
    [|injection Hrun as <- <-; destruct (Hok _ (emitError_in _ _))].
  match type of Hrun with (if negb ?known then _ else _) = _ =>
    destruct known;
      [|injection Hrun as <- <-; destruct (Hok _ (emitError_in _ _))] end.
  simpl in Hrun.
  assert (Hid : Player.id player = SocketEntry.playerId index).
  { apply find_some in Hplayer as [_ Hid]. by apply bool_decide_eq_true in Hid. }
  rewrite Hid in Hrun.
  set (submitted := setPlayers (updPlayer (SocketEntry.playerId index)
                                  (setRole (Some roleId) true))) in Hrun.
  rewrite lookup_alter_eq, Hheap in Hrun. simpl in Hrun.
  exists index.
  pose proof (allSubmitted_true (submitted room)) as Htrue.
  pose proof (allSubmitted_false (submitted room)) as Hfalse.
  destruct (allSubmitted (submitted room)) eqn:Hall; injection Hrun as <- <-.
  - exists (setPhase ready (submitted room)).
    split; [done|]. split.
    { apply heap_updRoom_eq. by apply heap_updRoom_eq. }
    split; [done|]. split; [apply length_fmap|].
    change (Room.players (setPhase ready (submitted room)))
      with (Room.players (submitted room)).
    change (Room.phase (setPhase ready (submitted room))) with ready.
    split; [tauto|]. split; [done|]. intros Hex%Hfalse. done.
  - exists (submitted room).
    split; [done|]. split; [by apply heap_updRoom_eq|].
    split; [done|]. split; [apply length_fmap|].
    change (Room.phase (submitted room)) with (Room.phase room). rewrite Hphase.
    split; [|tauto]. split; [done|]. intros Hex%Htrue. done.
Qed.

Lemma submit_auto_advance_witness :
  ∃ room',
    State.heap (on_role_submit catalog "A" "1000" "merlin" rolesState).1 !! 0
      = Some room'
    ∧ length (Room.players room') = 2
    ∧ (Room.phase room' = roles ↔
         ∃ p, p ∈ Room.players room' ∧ Player.hasSubmittedRole p = false).
Proof.
  destruct (submit_auto_advance catalog "A" "1000" "merlin" rolesState
              (on_role_submit catalog "A" "1000" "merlin" rolesState).1
              (on_role_submit catalog "A" "1000" "merlin" rolesState).2
              0 (default hitlerRoom (State.heap rolesState !! 0)))
    as (index & room' & _ & Hheap & _ & Hlen & _ & Hroles).
  - vm_compute. reflexivity.
  - vm_compute. reflexivity.
  - vm_compute. reflexivity.
  - intros message Hin. apply list_elem_of_In in Hin. vm_compute in Hin.
    destruct Hin as [Hin|[]]. discriminate Hin.
  - exists room'. split; [exact Hheap|]. split; [exact Hlen|]. exact Hroles.
Defined.

(** ** Joining *)

Lemma existsb_elem_of {A} (f : A → bool) (l : list A) :
  existsb f l = true ↔ ∃ x, x ∈ l ∧ f x = true.
Proof. rewrite existsb_exists. by setoid_rewrite list_elem_of_In. Qed.

(** C7 (as amended): a join request naming an existing room whose phase is
    not [lobby] is always rejected with one error message and leaves the
    state unchanged; the message is "Game already started" exactly when the
    request carries a non-empty name that no member of the room has (names
    compared after [normalizeName]).  A missing or empty name is reported as
    "Code and name are required" and a taken name as "That name is already
    taken in this room": both are tested before the phase. *)
Theorem join_after_start_rejected trim toLowerCase socket code name rawSessionId
    e σ σ' out r room :
  getRoom code σ = Some (r, room) →
  code ≠ "" →
  Room.phase room ≠ lobby →
  on_room_join trim toLowerCase socket (Some code) name rawSessionId e σ = (σ', out) →
  σ' = σ
  ∧ ∃ message,
      out = emitError socket message
      ∧ (message = "Game already started" ↔
           truthy name = true
           ∧ ∀ p, p ∈ Room.players room →
               normalizeName trim toLowerCase (Some (Player.name p))
               ≠ normalizeName trim toLowerCase name)
      ∧ (truthy name = false → message = "Code and name are required")
      ∧ (truthy name = true →
         (∃ p, p ∈ Room.players room
               ∧ normalizeName trim toLowerCase (Some (Player.name p))
                 = normalizeName trim toLowerCase name) →
         message = "That name is already taken in this room").
Proof.
  intros Hroom Hcode Hphase Hrun. unfold on_room_join in Hrun.
  assert (Htruthy : truthy (Some code) = true)
    by (apply truthy_true; eauto).
  rewrite Htruthy in Hrun. simpl in Hrun.
  destruct (truthy name) eqn:Hname; simpl in Hrun.
  2: { injection Hrun as <- <-. split; [done|]. eexists. split; [done|].
       split; [|done]. split; [done | by intros [? _]]. }
  rewrite Hroom in Hrun.
  match type of Hrun with (if ?taken then _ else _) = _ =>
    destruct taken eqn:Htaken end.
  - injection Hrun as <- <-. split; [done|]. eexists. split; [done|].
    split; [|done]. split; [done|]. intros [_ Hfree].
    apply existsb_elem_of in Htaken as (p & Hp & Heq).
    apply bool_decide_eq_true in Heq. by destruct (Hfree p Hp).
  - rewrite bool_decide_eq_true_2 in Hrun by done.
    assert (Hfree : ∀ p, p ∈ Room.players room →
              normalizeName trim toLowerCase (Some (Player.name p))
              ≠ normalizeName trim toLowerCase name).
    { intros p Hp Heq.
      assert (Hex : existsb (λ player, bool_decide
                       (normalizeName trim toLowerCase (Some (Player.name player))
                        = normalizeName trim toLowerCase name))
                     (Room.players room) = true); [|congruence].
      apply existsb_elem_of. exists p. split; [done|]. by apply bool_decide_eq_true. }
    injection Hrun as <- <-. split; [done|]. eexists. split; [done|].
    split; [by split|]. split; [done|].
    intros _ (p & Hp & Heq). by destruct (Hfree p Hp).
Qed.

Lemma join_after_start_rejected_witness :
  getRoom "1000" rolesState ≠ None ∧
  phaseOf "1000" (Some rolesState) = Some roles ∧
  on_room_join asciiTrim asciiToLowerCase "C" (Some "1000") (Some "Cy") None
               entropyC rolesState
  = (rolesState, emitError "C" "Game already started").
Proof.
  split; [by vm_compute|]. split; [reflexivity|].
  destruct (on_room_join asciiTrim asciiToLowerCase "C" (Some "1000") (Some "Cy")
              None entropyC rolesState) as [σ' out] eqn:Hrun.
  destruct (join_after_start_rejected asciiTrim asciiToLowerCase "C" "1000"
              (Some "Cy") None entropyC rolesState σ' out 0
              (default hitlerRoom (State.heap rolesState !! 0)))
    as (-> & message & -> & Hmsg & _).
  - vm_compute. reflexivity.
  - discriminate.
  - vm_compute. discriminate.
  - exact Hrun.
  - vm_compute in Hrun. injection Hrun as Hout. rewrite <- Hout. reflexivity.
Defined.

(** C7 (as stated) fails: in a room in phase [roles], a join under a name a
    member already has is rejected with the name-taken message, and a join
    without a name with the missing-field message. *)
Lemma join_after_start_other_error :
  phaseOf "1000" (Some rolesState) = Some roles
  ∧ namesOf "1000" (Some rolesState) = Some ["Ann"; "Bob"]
  ∧ on_room_join asciiTrim asciiToLowerCase "C" (Some "1000") (Some " BOB ") None
                 entropyC rolesState
    = (rolesState, emitError "C" "That name is already taken in this room")
  ∧ on_room_join asciiTrim asciiToLowerCase "C" (Some "1000") None None
                 entropyC rolesState
    = (rolesState, emitError "C" "Code and name are required")
  ∧ "That name is already taken in this room" ≠ "Game already started"
  ∧ "Code and name are required" ≠ "Game already started".
Proof.
  split; [reflexivity|]. split; [reflexivity|].
  split; [vm_compute; reflexivity|]. split; [vm_compute; reflexivity|].
  split; discriminate.
Qed.

(** ** Creating a room *)

Lemma on_room_create_effect socket name rawSessionId e σ :
  match on_room_create socket name rawSessionId e σ with
  | Some (σ', out) =>
      if truthy name then
        ∃ code r,
          generateRoomCode (State.rooms σ) (draws e) = Some code
          ∧ State.rooms σ !! code = None
          ∧ State.heap σ !! r = None
          ∧ State.rooms σ' = <[code := r]> (State.rooms σ)
          ∧ State.heap σ' !! r = Some (createdRoom socket name rawSessionId e code)
          ∧ (∀ r', r' ≠ r → State.heap σ' !! r' = State.heap σ !! r')
          ∧ existsb isError out = false
      else σ' = σ ∧ out = emitError socket "Name is required"
  | None =>
      truthy name = true ∧ generateRoomCode (State.rooms σ) (draws e) = None
  end.
Proof.
  unfold on_room_create. destruct (truthy name) eqn:Hname; simpl; [|done].
  destruct (generateRoomCode (State.rooms σ) (draws e)) as [code|] eqn:Hcode;
    [|done].
  set (r := fresh (dom (State.heap σ))).
  set (player := createPlayer (playerUUID e) (default "" name) socket
                   (sessionIdOf rawSessionId e)).
  assert (Hfresh : State.heap σ !! r = None).
  { apply not_elem_of_dom. apply is_fresh. }
  unfold bindSession. simpl. rewrite lookup_insert_eq. simpl.
  rewrite bool_decide_eq_true_2 by done. simpl.
  exists code, r. split; [done|].
  split; [by apply (proj1 (proj2 (generateRoomCode_unique_aux (State.rooms σ) (draws e))))|].
  split; [done|]. split; [done|].
  split; [|split].
  - rewrite lookup_alter_eq, lookup_insert_eq. simpl.
    unfold createdRoom, setPlayers, updPlayer. simpl.
    by rewrite bool_decide_eq_true_2.
  - intros r' Hne. rewrite lookup_alter_ne, lookup_insert_ne by done. done.
  - unfold emitRoomStateAt. simpl.
    rewrite lookup_alter_eq, lookup_insert_eq. reflexivity.
Qed.

(** C8 (as amended): [room:create] is rejected, with the message "Name is
    required" and the state unchanged, exactly when the name is missing or
    the empty string; for every other name — untrimmed, of any length — it
    creates a room in phase [lobby] under a code no live room holds, with the
    creator as its only player and owner, and emits no error.  (It does not
    return while every draw collides with a live room.) *)
Theorem create_requires_name socket name rawSessionId e σ :
  match on_room_create socket name rawSessionId e σ with
  | Some (σ', out) =>
      if truthy name then
        ∃ code r,
          generateRoomCode (State.rooms σ) (draws e) = Some code
          ∧ State.rooms σ !! code = None
          ∧ State.heap σ !! r = None
          ∧ State.rooms σ' = <[code := r]> (State.rooms σ)
          ∧ State.heap σ' !! r = Some (createdRoom socket name rawSessionId e code)
          ∧ (∀ r', r' ≠ r → State.heap σ' !! r' = State.heap σ !! r')
          ∧ existsb isError out = false
      else σ' = σ ∧ out = emitError socket "Name is required"
  | None =>
      truthy name = true ∧ generateRoomCode (State.rooms σ) (draws e) = None
  end.
Proof. apply on_room_create_effect. Qed.

Lemma create_requires_name_witness :
  on_room_create "A" None None entropyA lobbyState
  = Some (lobbyState, emitError "A" "Name is required")
  ∧ on_room_create "A" (Some "") None entropyA lobbyState
    = Some (lobbyState, emitError "A" "Name is required").
Proof.
  split.
  - pose proof (create_requires_name "A" None None entropyA lobbyState) as H.
    destruct (on_room_create "A" None None entropyA lobbyState) as [[σ' out]|].
    + simpl in H. destruct H as [-> ->]. reflexivity.
    + destruct H as [H _]. discriminate H.
  - pose proof (create_requires_name "A" (Some "") None entropyA lobbyState) as H.
    destruct (on_room_create "A" (Some "") None entropyA lobbyState) as [[σ' out]|].
    + simpl in H. destruct H as [-> ->]. reflexivity.
    + destruct H as [H _]. discriminate H.
Defined.

(** C8 (as stated) fails: a name of eleven characters and a name of three
    spaces are both accepted; each creates room 1000 with the name stored as
    sent, and no error is emitted. *)
Lemma create_accepts_long_and_blank_names :
  (String.length (asciiTrim "Bartholomew") = 11
   ∧ ∃ σ' out,
       on_room_create "A" (Some "Bartholomew") None entropyA initial = Some (σ', out)
       ∧ namesOf "1000" (Some σ') = Some ["Bartholomew"]
       ∧ existsb isError out = false)
  ∧ (asciiTrim "   " = ""
     ∧ ∃ σ' out,
         on_room_create "A" (Some "   ") None entropyA initial = Some (σ', out)
         ∧ namesOf "1000" (Some σ') = Some ["   "]
         ∧ existsb isError out = false).
Proof.
  split; (split; [reflexivity|]); eexists _, _;
    (split; [reflexivity|]); split; vm_compute; reflexivity.
Qed.

(** ** Steps that keep every room object in place *)

Lemma heapRel_refl R h : (∀ r x, R r x x) → heapRel R h h.
Proof. intros HR r. by destruct (h !! r). Qed.

Lemma heapRel_alter R h h1 r f :
  heapRel R h h1 →
  (∀ x y, h !! r = Some x → h1 !! r = Some y → R r x y → R r x (f y)) →
  heapRel R h (alter f r h1).
Proof.
  intros Hrel Hf r'. specialize (Hrel r'). rewrite lookup_alter.
  case_decide as Heq; [subst r'|done].
  destruct (h !! r) eqn:Hh, (h1 !! r) eqn:Hh1; simpl; try done. by apply Hf.
Qed.

Lemma roomStep_refl σ l r x : roomStep σ l r x x.
Proof. repeat split; auto. by left. Qed.

Lemma players_nil_ids x y :
  playerIds y = playerIds x → Room.players x = [] → Room.players y = [].
Proof.
  unfold playerIds. intros Hids Hx. rewrite Hx in Hids.
  by apply fmap_nil_inv in Hids.
Qed.

Lemma keepsRoom_same_ids σ r f x y :
  Room.code (f y) = Room.code y →
  Room.ownerId (f y) = Room.ownerId y →
  playerIds (f y) = playerIds y →
  keepsRoom σ r x y → keepsRoom σ r x (f y).
Proof.
  intros Hc Ho Hi (Hcode & Howner & Hids & Hnil). repeat split.
  - by rewrite Hc.
  - by rewrite Ho.
  - intros i Hi'. rewrite Hi. auto.
  - intros [Hy|Hlive]%Hnil; [left|by right]. by apply (players_nil_ids y).
Qed.

Lemma roomStep_neutral σ l r f x y :
  neutral f → roomStep σ l r x y → roomStep σ l r x (f y).
Proof.
  intros Hf [Hkeep Hphase]. destruct (Hf y) as (Hc & Ho & Hi & Hp).
  split; [by apply keepsRoom_same_ids|]. by rewrite Hp.
Qed.

Lemma heapRel_neutral σ l h h1 r f :
  neutral f → heapRel (roomStep σ l) h h1 → heapRel (roomStep σ l) h (alter f r h1).
Proof.
  intros Hf Hrel. apply heapRel_alter; [done|]. intros x y _ _. by apply roomStep_neutral.
Qed.

Lemma ids_updPlayer k f m :
  (∀ p, Player.id (f p) = Player.id p) →
  Player.id <$> updPlayer k f m = Player.id <$> m.
Proof.
  intros Hf. unfold updPlayer. rewrite <- list_fmap_compose.
  apply list_fmap_ext. intros _ p _. simpl. by case_bool_decide.
Qed.

Lemma neutral_updPlayer k f :
  (∀ p, Player.id (f p) = Player.id p) → neutral (setPlayers (updPlayer k f)).
Proof.
  intros Hf y. repeat split. unfold playerIds. simpl. by apply ids_updPlayer.
Qed.

Lemma neutral_resetRoles_with f :
  neutral f → neutral (λ room, resetRoles (f room)).
Proof.
  intros Hf y. destruct (Hf y) as (Hc & Ho & Hi & Hp). repeat split; simpl; try done.
  unfold playerIds in *. simpl. rewrite <- list_fmap_compose. rewrite <- Hi.
  by apply list_fmap_ext.
Qed.

Lemma rooms_bindSession sessionId code r playerId socket σ :
  State.rooms (bindSession sessionId code r playerId socket σ) = State.rooms σ.
Proof.
  unfold bindSession. destruct (_ ≫= _); [|done]. simpl. by destruct (Player.disconnectTimer _).
Qed.

Lemma heapRel_bindSession σ0 l h sessionId code r playerId socket σ :
  heapRel (roomStep σ0 l) h (State.heap σ) →
  heapRel (roomStep σ0 l) h (State.heap (bindSession sessionId code r playerId socket σ)).
Proof.
  intros Hrel. unfold bindSession. destruct (_ ≫= _) as [player|]; [|done].
  simpl. assert (Heq : State.heap (clearTimeout (Player.disconnectTimer player) σ) = State.heap σ)
    by (by destruct (Player.disconnectTimer player)).
  rewrite Heq. apply heapRel_neutral; [|done]. by apply neutral_updPlayer.
Qed.

Lemma heap_clearTimeout t σ : State.heap (clearTimeout t σ) = State.heap σ.
Proof. by destruct t. Qed.
Lemma rooms_clearTimeout t σ : State.rooms (clearTimeout t σ) = State.rooms σ.
Proof. by destruct t. Qed.

Lemma stepInPlace_refl l σ : stepInPlace l σ σ.
Proof. split; [done|]. apply heapRel_refl, roomStep_refl. Qed.

Ltac state_simpl :=
  cbn [State.heap State.rooms setHeap setRooms setSocketIndex setSessionIndex
       setTimers setDetached updRoom setTimeout fst snd];
  rewrite ?rooms_bindSession, ?heap_clearTimeout, ?rooms_clearTimeout.

Ltac in_place :=
  repeat first
    [ apply stepInPlace_refl
    | apply heapRel_refl, roomStep_refl
    | apply heapRel_bindSession
    | apply heapRel_neutral;
        [ first [ by apply neutral_updPlayer
                | by apply (neutral_resetRoles_with id) ] | ]
    | progress state_simpl
    | split; [ reflexivity | ] ].

Lemma on_session_restore_in_place games socket sessionId e σ σ' out :
  on_session_restore games socket sessionId σ = (σ', out) →
  stepInPlace (on_socket socket (session_restore sessionId) e) σ σ'.
Proof.
  unfold on_session_restore. intros Hrun.
  repeat case_match; simplify_eq; unfold stepInPlace; in_place.
Qed.

Lemma ids_Map_set p m i :
  i ∈ Player.id <$> m → i ∈ Player.id <$> Map_set p m.
Proof.
  intros Hi. unfold Map_set. destruct (Map_has (Player.id p) m).
  - rewrite <- list_fmap_compose.
    erewrite list_fmap_ext; [exact Hi|]. intros _ q _. simpl.
    case_bool_decide; congruence.
  - rewrite fmap_app. apply elem_of_app. by left.
Qed.

Lemma roomStep_Map_set σ l r p x y :
  (∃ code, State.rooms σ !! code = Some r) →
  roomStep σ l r x y → roomStep σ l r x (setPlayers (Map_set p) y).
Proof.
  intros Hlive [(Hcode & Howner & Hids & Hnil) Hphase]. repeat split; try done.
  - intros i Hi. unfold playerIds. simpl. apply ids_Map_set. by apply Hids.
  - intros _. by right.
Qed.

Lemma getRoom_rooms code σ r room :
  getRoom code σ = Some (r, room) → State.rooms σ !! code = Some r.
Proof.
  unfold getRoom. destruct (State.rooms σ !! code) as [r'|]; simpl; [|done].
  destruct (State.heap σ !! r') as [room'|] eqn:Hheap; simpl; [|done].
  by intros [= <- <-].
Qed.

Lemma on_room_join_in_place trim toLowerCase socket code name raw e σ σ' out :
  on_room_join trim toLowerCase socket code name raw e σ = (σ', out) →
  stepInPlace (on_socket socket (room_join code name raw) e) σ σ'.
Proof.
  unfold on_room_join. intros Hrun.
  repeat case_match; simplify_eq; unfold stepInPlace; in_place.
  apply heapRel_alter; [in_place|]. intros x y _ _. apply roomStep_Map_set.
  eexists. by eapply getRoom_rooms.
Qed.

Lemma roomStep_phase σ l r x y f :
  (∀ z, Room.code (f z) = Room.code z ∧ Room.ownerId (f z) = Room.ownerId z
        ∧ playerIds (f z) = playerIds z) →
  keepsRoom σ r x y →
  phaseChange l (Room.phase x) (Room.phase (f y)) →
  roomStep σ l r x (f y).
Proof.
  intros Hf Hkeep Hphase. destruct (Hf y) as (Hc & Ho & Hi).
  split; [by apply keepsRoom_same_ids|done].
Qed.

Lemma ids_resetRoles room : playerIds (resetRoles room) = playerIds room.
Proof.
  unfold playerIds, resetRoles. simpl. rewrite <- list_fmap_compose.
  by apply list_fmap_ext.
Qed.

Lemma on_room_selectGame_in_place games socket code gameId e σ σ' out :
  on_room_selectGame games socket code gameId σ = (σ', out) →
  stepInPlace (on_socket socket (room_selectGame code gameId) e) σ σ'.
Proof.
  unfold on_room_selectGame. intros Hrun.
  repeat case_match; simplify_eq; unfold stepInPlace; in_place.
  apply heapRel_alter; [in_place|]. intros x y _ _ [Hkeep _].
  apply (roomStep_phase _ _ _ _ _
           (λ room, resetRoles (setPhase lobby (setGameId (Some gameId) room))));
    [|done|by right].
  intros z. repeat split. by rewrite ids_resetRoles.
Qed.

Lemma on_room_start_in_place socket code e σ σ' out :
  on_room_start socket code σ = (σ', out) →
  stepInPlace (on_socket socket (room_start code) e) σ σ'.
Proof.
  unfold on_room_start. intros Hrun.
  repeat case_match; simplify_eq; unfold stepInPlace; in_place.
  apply heapRel_alter; [in_place|]. intros x y _ _ [Hkeep _].
  apply (roomStep_phase _ _ _ _ _ (λ room, resetRoles (setPhase roles room)));
    [|done|by right].
  intros z. repeat split. by rewrite ids_resetRoles.
Qed.

Lemma on_room_reset_in_place socket code e σ σ' out :
  on_room_reset socket code σ = (σ', out) →
  stepInPlace (on_socket socket (room_reset_request code) e) σ σ'.
Proof.
  unfold on_room_reset. intros Hrun.
  repeat case_match; simplify_eq; unfold stepInPlace; in_place.
  apply heapRel_alter; [in_place|]. intros x y _ _ [Hkeep _].
  apply (roomStep_phase _ _ _ _ _
           (λ room, resetRoles (setPhase lobby (setGameId None room))));
    [|done|by right].
  intros z. repeat split. by rewrite ids_resetRoles.
Qed.

Lemma getRoom_heap code σ r room :
  getRoom code σ = Some (r, room) → State.heap σ !! r = Some room.
Proof.
  unfold getRoom. destruct (State.rooms σ !! code) as [r'|]; simpl; [|done].
  destruct (State.heap σ !! r') as [room'|] eqn:Hheap; simpl; [|done].
  by intros [= <- <-].
Qed.

Lemma on_role_submit_in_place games socket code roleId e σ σ' out :
  on_role_submit games socket code roleId σ = (σ', out) →
  stepInPlace (on_socket socket (role_submit code roleId) e) σ σ'.
Proof.
  unfold on_role_submit. intros Hrun.
  repeat case_match; simplify_eq; unfold stepInPlace; in_place.
  apply heapRel_alter; [in_place|]. intros x y Hx _ [Hkeep _].
  apply (roomStep_phase _ _ _ _ _ (setPhase ready)); [done|done|].
  right. split; [|done].
  match goal with H : getRoom _ _ = Some _ |- _ => apply getRoom_heap in H end.
  match goal with H : bool_decide (_ ≠ roles) = false |- _ =>
    apply bool_decide_eq_false in H; apply dec_stable in H end.
  congruence.
Qed.

Lemma on_room_revealConfirm_in_place games socket code e σ σ' out :
  on_room_revealConfirm games socket code σ = (σ', out) →
  stepInPlace (on_socket socket (room_revealConfirm code) e) σ σ'.
Proof.
  unfold on_room_revealConfirm. intros Hrun.
  repeat case_match; simplify_eq; unfold stepInPlace; in_place.
  apply heapRel_alter; [in_place|]. intros x y Hx _ [Hkeep _].
  apply (roomStep_phase _ _ _ _ _ (setPhase reveal)); [done|done|].
  right. split; [|done].
  match goal with H : getRoom _ _ = Some _ |- _ => apply getRoom_heap in H end.
  match goal with H : bool_decide (_ ≠ ready) = false |- _ =>
    apply bool_decide_eq_false in H; apply dec_stable in H end.
  congruence.
Qed.

Lemma on_disconnect_in_place socket e σ σ' out :
  on_disconnect socket σ = (σ', out) →
  stepInPlace (on_socket socket disconnect e) σ σ'.
Proof.
  unfold on_disconnect, setTimeout. intros Hrun.
  repeat case_match; simplify_eq; unfold stepInPlace; in_place.
Qed.

Ltac departs_tac Hheap :=
  state_simpl;
  split; [ rewrite ?lookup_alter_eq, Hheap; reflexivity | ];
  split; [ intros r' Hne; by rewrite ?lookup_alter_ne by done | reflexivity ].

Lemma removePlayerFromRoom_effect r playerId sessionId socketId σ σ' out :
  removePlayerFromRoom r playerId sessionId socketId σ = (σ', out) →
  untouched σ σ' ∨ departs σ σ' r playerId.
Proof.
  unfold removePlayerFromRoom. intros Hrun.
  destruct (State.heap σ !! r) as [room|] eqn:Hheap;
    [|left; by simplify_eq].
  destruct (Map_get playerId (Room.players room)) as [player|] eqn:Hplayer;
    [|left; by simplify_eq].
  right. exists room. split; [done|]. unfold departedRoom.
  destruct (bool_decide (length (Map_delete playerId (Room.players room)) = 0))
    eqn:Hempty; simplify_eq;
    destruct (truthy (Some socketId)), (truthy (Some sessionId));
    departs_tac Hheap.
Qed.

Lemma graceExpired_effect r playerId σ σ' out :
  graceExpired r playerId σ = (σ', out) →
  untouched σ σ' ∨ ∃ departed, departs σ σ' r departed.
Proof.
  unfold graceExpired. intros Hrun.
  destruct (State.heap σ !! r) as [room|] eqn:Hheap;
    [|left; by simplify_eq].
  destruct (from_option Some (State.detached σ !! playerId)
              (Map_get playerId (Room.players room))) as [player|];
    [|left; by simplify_eq].
  destruct (Player.connected player); [left; by simplify_eq|].
  right. exists (Player.id player), room. split; [done|]. unfold departedRoom.
  destruct (bool_decide (length (Map_delete (Player.id player) (Room.players room)) = 0))
    eqn:Hempty; simplify_eq;
    destruct (bool_decide (is_Some (Map_get playerId (Room.players room))));
    departs_tac Hheap.
Qed.

Lemma on_room_leave_effect socket σ σ' out :
  on_room_leave socket σ = (σ', out) →
  untouched σ σ' ∨ ∃ r departed, departs σ σ' r departed.
Proof.
  unfold on_room_leave. intros Hrun.
  destruct (State.socketIndex σ !! socket) as [index|]; [|left; by simplify_eq].
  destruct (getRoom (SocketEntry.code index) σ) as [[r room]|].
  - destruct (removePlayerFromRoom r _ _ socket σ) as [σ1 out1] eqn:Hrem.
    simplify_eq. apply removePlayerFromRoom_effect in Hrem as [?|?]; eauto.
  - left. by case_match; simplify_eq.
Qed.

Lemma on_timeout_effect t σ σ' out :
  on_timeout t σ = Some (σ', out) →
  untouched σ σ' ∨ ∃ r departed, departs σ σ' r departed.
Proof.
  unfold on_timeout. intros Hrun.
  destruct (State.timers σ !! t) as [[r playerId]|]; [|done].
  injection Hrun as Hrun. apply graceExpired_effect in Hrun as [Hsame|[d Hd]].
  - by left.
  - right. exists r, d. exact Hd.
Qed.

(** ** The invariant *)

Lemma ids_Map_delete k m i :
  i ∈ Player.id <$> Map_delete k m ↔ i ∈ Player.id <$> m ∧ i ≠ k.
Proof.
  unfold Map_delete. rewrite !list_elem_of_fmap. split.
  - intros (p & -> & [Hp Hne]%elem_of_filter_bool).
    apply bool_decide_eq_true in Hne. eauto.
  - intros [(p & -> & Hp) Hne]. exists p. split; [done|].
    apply elem_of_filter_bool. split; [done|]. by apply bool_decide_eq_true.
Qed.

Lemma Map_delete_absent k m :
  k ∉ Player.id <$> m → Map_delete k m = m.
Proof.
  unfold Map_delete. induction m as [|p m IH]; simpl; [done|].
  intros Hk. rewrite not_elem_of_cons in Hk. destruct Hk as [Hne Hk].
  rewrite bool_decide_eq_true_2 by done. by rewrite IH.
Qed.

Lemma length_zero_nil {A} (l : list A) : length l = 0 ↔ l = [].
Proof. by destruct l. Qed.

Lemma nonempty_ids room : Room.players room ≠ [] ↔ ∃ i, i ∈ playerIds room.
Proof.
  unfold playerIds. destruct (Room.players room) as [|p m]; simpl.
  - split; [done|]. intros [i Hi]. by apply elem_of_nil in Hi.
  - split; [|done]. intros _. exists (Player.id p). left.
Qed.

Lemma departedRoom_code k room : Room.code (departedRoom k room) = Room.code room.
Proof. unfold departedRoom. by case_bool_decide. Qed.

Lemma departedRoom_phase k room : Room.phase (departedRoom k room) = Room.phase room.
Proof. unfold departedRoom. by case_bool_decide. Qed.

Lemma departedRoom_players k room :
  Room.players (departedRoom k room) = Map_delete k (Room.players room).
Proof. unfold departedRoom. by case_bool_decide. Qed.

Lemma departedRoom_ownerId k room :
  Room.players (departedRoom k room) ≠ [] →
  Room.ownerId (departedRoom k room) =
    nextOwnerId k (Room.ownerId room) (Map_delete k (Room.players room)).
Proof.
  rewrite departedRoom_players. unfold departedRoom. intros Hne.
  case_bool_decide as Hlen; [|done]. by apply length_zero_nil in Hlen.
Qed.

Lemma departedRoom_absent k room :
  ownerPresent room → k ∉ playerIds room → departedRoom k room = room.
Proof.
  destruct room as [code owner game phase players].
  unfold ownerPresent, playerIds, departedRoom, setPlayers, setOwnerId. simpl.
  intros Howner Hk. rewrite (Map_delete_absent k players Hk).
  case_bool_decide as Hlen; [done|]. f_equal.
  unfold nextOwnerId. case_bool_decide as Heq; [|done]. subst k.
  destruct Howner as [->|Hin]; [done|]. by destruct Hk.
Qed.

Lemma departedRoom_ownerPresent k room :
  ownerPresent room → ownerPresent (departedRoom k room).
Proof.
  intros Howner.
  destruct (decide (Room.players (departedRoom k room) = [])) as [|Hne]; [by left|].
  right. rewrite (departedRoom_ownerId _ _ Hne). unfold playerIds.
  rewrite departedRoom_players in *. unfold nextOwnerId.
  case_bool_decide as Heq.
  - destruct (Map_delete k (Room.players room)) as [|p m]; [done|]. left.
  - apply ids_Map_delete. split; [|done].
    destruct Howner as [Hnil|Hin]; [|done].
    rewrite Hnil in Hne. done.
Qed.

Lemma roomsInv_untouched σ σ' : roomsInv σ → untouched σ σ' → roomsInv σ'.
Proof. intros Hinv [Hr Hh]. unfold roomsInv. by rewrite Hr, Hh. Qed.

Lemma roomsInv_departs σ σ' r k : roomsInv σ → departs σ σ' r k → roomsInv σ'.
Proof.
  intros [Hlive Howner] (room & Hroom & Hroom' & Hother & Hrooms). split.
  - intros code r0 Hcode. rewrite Hrooms in Hcode.
    case_bool_decide as Hlen.
    + apply lookup_delete_Some in Hcode as [Hne Hcode].
      destruct (Hlive _ _ Hcode) as (room0 & Hroom0 & Hc & Hp).
      exists room0. split; [|done]. rewrite Hother; [done|].
      intros ->. congruence.
    + destruct (Hlive _ _ Hcode) as (room0 & Hroom0 & Hc & Hp).
      destruct (decide (r0 = r)) as [->|Hne].
      * exists (departedRoom k room). split; [done|].
        rewrite departedRoom_code, departedRoom_players.
        split; [congruence|]. by rewrite <- length_zero_nil.
      * exists room0. by rewrite Hother.
  - intros r0 room0 Hroom0. destruct (decide (r0 = r)) as [->|Hne].
    + rewrite Hroom' in Hroom0. injection Hroom0 as <-.
      apply departedRoom_ownerPresent. by eapply Howner.
    + rewrite Hother in Hroom0 by done. by eapply Howner.
Qed.

Lemma roomsInv_in_place l σ σ' : roomsInv σ → stepInPlace l σ σ' → roomsInv σ'.
Proof.
  intros [Hlive Howner] [Hrooms Hheap]. split.
  - intros code r Hcode. rewrite Hrooms in Hcode.
    destruct (Hlive _ _ Hcode) as (x & Hx & Hc & Hp).
    specialize (Hheap r). rewrite Hx in Hheap.
    destruct (State.heap σ' !! r) as [y|]; [|done].
    destruct Hheap as [(Hcode' & _ & Hids & _) _].
    exists y. split; [done|]. split; [congruence|].
    apply nonempty_ids. apply nonempty_ids in Hp as [i Hi]. eauto.
  - intros r y Hy. specialize (Hheap r). rewrite Hy in Hheap.
    destruct (State.heap σ !! r) as [x|] eqn:Hx; [|done].
    destruct Hheap as [(_ & Ho & Hids & Hnil) _].
    destruct (Howner _ _ Hx) as [Hempty|Hin].
    + destruct (Hnil Hempty) as [?|[code Hcode]]; [by left|].
      destruct (Hlive _ _ Hcode) as (x' & Hx' & _ & Hp). congruence.
    + right. rewrite Ho. by apply Hids.
Qed.

(** ** The invariant along every run *)

Lemma roomsInv_initial : roomsInv initial.
Proof. split; intros ? ? H; simpl in H; by rewrite lookup_empty in H. Qed.

Lemma roomsInv_create socket name rawSessionId e σ σ' out :
  roomsInv σ →
  on_room_create socket name rawSessionId e σ = Some (σ', out) →
  roomsInv σ'.
Proof.
  intros [Hlive Howner] Hrun.
  pose proof (on_room_create_effect socket name rawSessionId e σ) as Heff.
  rewrite Hrun in Heff. destruct (truthy name).
  2: { destruct Heff as [-> _]. by split. }
  destruct Heff as (code & r & _ & _ & Hfresh & Hrooms & Hnew & Hother & _).
  split.
  - intros code0 r0 Hcode0. rewrite Hrooms in Hcode0.
    apply lookup_insert_Some in Hcode0 as [[<- <-]|[Hne Hcode0]].
    + eexists. split; [exact Hnew|]. by split.
    + destruct (Hlive _ _ Hcode0) as (room0 & Hroom0 & Hc & Hp).
      exists room0. split; [|done]. rewrite Hother; [done|]. congruence.
  - intros r0 room0 Hroom0. destruct (decide (r0 = r)) as [->|Hne].
    + rewrite Hnew in Hroom0. injection Hroom0 as <-. right.
      unfold playerIds. simpl. left.
    + rewrite Hother in Hroom0 by done. by eapply Howner.
Qed.

(** Every request other than [room:create] and [room:leave] keeps the room
    objects in place. *)
Lemma handle_in_place games trim toLowerCase socket req e σ σ' out :
  handle games trim toLowerCase socket req e σ = Some (σ', out) →
  (∀ name raw, req ≠ room_create name raw) →
  req ≠ room_leave →
  stepInPlace (on_socket socket req e) σ σ'.
Proof.
  intros Hrun Hcreate Hleave. destruct req; simpl in Hrun; try injection Hrun as Hrun.
  - by eapply on_session_restore_in_place.
  - by destruct (Hcreate name rawSessionId).
  - by eapply on_room_join_in_place.
  - by eapply on_room_selectGame_in_place.
  - by eapply on_room_start_in_place.
  - by eapply on_room_reset_in_place.
  - done.
  - by eapply on_role_submit_in_place.
  - by eapply on_room_revealConfirm_in_place.
  - by eapply on_disconnect_in_place.
Qed.

Lemma roomsInv_run games trim toLowerCase l σ σ' out :
  roomsInv σ →
  run games trim toLowerCase l σ = Some (σ', out) →
  roomsInv σ'.
Proof.
  intros Hinv Hrun. destruct l as [socket req e|t]; simpl in Hrun.
  - destruct req;
      try (eapply roomsInv_in_place; [done|];
           eapply handle_in_place; [exact Hrun|done|done]).
    + by eapply roomsInv_create.
    + simpl in Hrun. injection Hrun as Hrun.
      apply on_room_leave_effect in Hrun as [?|(r & k & ?)].
      * by eapply roomsInv_untouched.
      * by eapply roomsInv_departs.
  - apply on_timeout_effect in Hrun as [?|(r & k & ?)].
    + by eapply roomsInv_untouched.
    + by eapply roomsInv_departs.
Qed.

Lemma reachable_roomsInv games trim toLowerCase σ :
  reachable games trim toLowerCase σ → roomsInv σ.
Proof.
  induction 1 as [|σ l out σ' _ IH [_ Hrun]].
  - apply roomsInv_initial.
  - by eapply roomsInv_run.
Qed.

Lemma run_departure_effect games trim toLowerCase l σ σ' out :
  isDeparture l = true →
  run games trim toLowerCase l σ = Some (σ', out) →
  untouched σ σ' ∨ ∃ r departed, departs σ σ' r departed.
Proof.
  intros Hdep Hrun. destruct l as [socket req e|t]; simpl in Hrun.
  - destruct req; try done. injection Hrun as Hrun.
    by eapply on_room_leave_effect.
  - by eapply on_timeout_effect.
Qed.

Lemma run_in_place games trim toLowerCase l σ σ' out :
  run games trim toLowerCase l σ = Some (σ', out) →
  isDeparture l = false →
  (∀ socket name raw e, l ≠ on_socket socket (room_create name raw) e) →
  stepInPlace l σ σ'.
Proof.
  intros Hrun Hdep Hcreate. destruct l as [socket req e|t]; [|done].
  simpl in Hrun. eapply handle_in_place; [exact Hrun| |].
  - intros name raw ->. by destruct (Hcreate socket name raw e).
  - by intros ->.
Qed.

Lemma phaseChange_rank l before after :
  phaseChange l before after → setsPhase l = false →
  phaseRank before ≤ phaseRank after.
Proof.
  intros [->|Hchange] Hsets; [done|].
  destruct l as [socket req e|t]; [|done].
  destruct req; try done; destruct Hchange as [-> ->]; simpl; lia.
Qed.

Lemma phaseOf_updRoom code r room f σ :
  getRoom code σ = Some (r, room) →
  phaseOf code (Some (updRoom r f σ)) = Some (Room.phase (f room)).
Proof.
  intros [Hrooms Hheap]%getRoom_Some. unfold phaseOf, getRoom. simpl.
  rewrite Hrooms. simpl. rewrite lookup_alter_eq, Hheap. reflexivity.
Qed.

Lemma owner_request_sets_phase games trim toLowerCase l σ σ' out :
  run games trim toLowerCase l σ = Some (σ', out) →
  existsb isError out = false →
  phaseSet l σ'.
Proof.
  intros Hrun Hok. destruct l as [socket req e|t]; [|done].
  destruct req; try done; simpl in Hrun; injection Hrun as Hrun;
    cbv beta iota delta [phaseSet].
  - unfold on_room_selectGame in Hrun.
    repeat case_match; simplify_eq; try done.
    by erewrite phaseOf_updRoom.
  - unfold on_room_start in Hrun.
    repeat case_match; simplify_eq; try done.
    by erewrite phaseOf_updRoom.
  - unfold on_room_reset in Hrun.
    repeat case_match; simplify_eq; try done.
    by erewrite phaseOf_updRoom.
Qed.

(** C2 (as amended): a room object is never lost, and one step moves its
    phase only as [phaseChange] allows: [role:submit] from [roles] to
    [ready], [room:revealConfirm] from [ready] to [reveal], and
    [room:selectGame], [room:reset] (to [lobby]) and [room:start] (to
    [roles]) from any phase; every other request and the disconnect timer
    leave the phase as it is.  So under every step but those last three the
    phase never moves backward; and those three, when they emit no error,
    leave the room in [lobby], [lobby] and [roles], whatever its phase was. *)
Theorem phase_moves_forward games trim toLowerCase l σ σ' out r room :
  run games trim toLowerCase l σ = Some (σ', out) →
  State.heap σ !! r = Some room →
  (∃ room',
     State.heap σ' !! r = Some room'
     ∧ phaseChange l (Room.phase room) (Room.phase room')
     ∧ (setsPhase l = false →
        phaseRank (Room.phase room) ≤ phaseRank (Room.phase room')))
  ∧ (existsb isError out = false → phaseSet l σ').
Proof.
  intros Hrun Hroom.
  split; [|by eapply owner_request_sets_phase].
  assert (Hmain : ∃ room', State.heap σ' !! r = Some room'
                    ∧ phaseChange l (Room.phase room) (Room.phase room')).
  { destruct (isDeparture l) eqn:Hdep.
    - destruct (run_departure_effect _ _ _ _ _ _ _ Hdep Hrun)
        as [[_ Hheap]|(r0 & k & room0 & Hroom0 & Hroom0' & Hother & _)].
      + exists room. rewrite Hheap. split; [done|by left].
      + destruct (decide (r = r0)) as [->|Hne].
        * exists (departedRoom k room0). split; [done|]. left.
          rewrite departedRoom_phase. congruence.
        * exists room. rewrite Hother by done. split; [done|by left].
    - destruct l as [socket req e|t]; [|done].
      destruct req as [| name raw | | | | | | | |];
        try (eapply run_in_place in Hrun as [_ Hheap]; [|done|done];
             specialize (Hheap r); rewrite Hroom in Hheap;
             destruct (State.heap σ' !! r) as [room'|]; [|done];
             exists room'; split; [done|]; by destruct Hheap).
      simpl in Hrun.
      pose proof (on_room_create_effect socket name raw e σ) as Heff.
      rewrite Hrun in Heff. exists room. split; [|by left].
      destruct (truthy name).
      + destruct Heff as (code & r0 & _ & _ & Hfresh & _ & _ & Hother & _).
        rewrite Hother; [done|]. congruence.
      + by destruct Heff as [-> _]. }
  destruct Hmain as (room' & Hroom' & Hphase). exists room'.
  split; [done|]. split; [done|]. by apply phaseChange_rank.
Qed.

Lemma phase_moves_forward_witness :
  ∃ room',
    State.heap (runASCII (on_socket "B" (role_submit "1000" "assassin") entropy0)
                  (runASCII (on_socket "A" (role_submit "1000" "merlin") entropy0)
                            rolesState)) !! 0 = Some room'
    ∧ Room.phase room' = ready.
Proof.
  destruct (phase_moves_forward catalog asciiTrim asciiToLowerCase
              (on_socket "B" (role_submit "1000" "assassin") entropy0)
              (runASCII (on_socket "A" (role_submit "1000" "merlin") entropy0)
                        rolesState)
              (runASCII (on_socket "B" (role_submit "1000" "assassin") entropy0)
                  (runASCII (on_socket "A" (role_submit "1000" "merlin") entropy0)
                            rolesState))
              (on_role_submit catalog "B" "1000" "assassin"
                 (runASCII (on_socket "A" (role_submit "1000" "merlin") entropy0)
                           rolesState)).2
              0
              (roomAt 0 (runASCII (on_socket "A" (role_submit "1000" "merlin") entropy0)
                           rolesState)))
    as [(room' & Hroom' & _ & _) _].
  - vm_compute. reflexivity.
  - vm_compute. reflexivity.
  - exists room'. split; [exact Hroom'|].
    vm_compute in Hroom'. injection Hroom' as <-. reflexivity.
Defined.

(** *** Concrete runs *)

Lemma freshPlayerIdb_true uuid σ :
  freshPlayerIdb uuid σ = true → freshPlayerId uuid σ.
Proof.
  unfold freshPlayerIdb, freshPlayerId. rewrite andb_true_iff, !bool_decide_eq_true.
  intros [Hd Hh]. split; [done|]. intros r room Hroom. by apply (Hh r room).
Qed.

Lemma runRequests_reachable reqs σ σ' :
  reachable catalog asciiTrim asciiToLowerCase σ →
  runRequests reqs σ = Some σ' →
  reachable catalog asciiTrim asciiToLowerCase σ'.
Proof.
  revert σ. induction reqs as [|[[socket req] e] reqs IH]; intros σ Hreach; simpl.
  - by intros [= <-].
  - destruct (freshPlayerIdb (playerUUID e) σ) eqn:Hfresh; [|done].
    destruct (handle catalog asciiTrim asciiToLowerCase socket req e σ)
      as [[σ1 out]|] eqn:Hrun; [|done].
    apply IH. apply (reachable_step _ _ _ σ (on_socket socket req e) out σ1); [done|].
    split; [by apply freshPlayerIdb_true|done].
Qed.

Lemma lobbyState_reachable : reachable catalog asciiTrim asciiToLowerCase lobbyState.
Proof.
  apply (runRequests_reachable inLobby initial); [apply reachable_initial|].
  vm_compute. reflexivity.
Qed.

Lemma aloneState_reachable : reachable catalog asciiTrim asciiToLowerCase aloneState.
Proof.
  apply (runRequests_reachable aloneDisconnected initial); [apply reachable_initial|].
  vm_compute. reflexivity.
Qed.

(** C2 (as stated) fails: from phase [reveal], the owner's [room:selectGame]
    puts the room back in [lobby], and the owner's [room:start] puts it back
    in [roles]. *)
Lemma selectGame_and_start_move_phase_backward :
  reachable catalog asciiTrim asciiToLowerCase revealState
  ∧ phaseOf "1000" (Some revealState) = Some reveal
  ∧ phaseOf "1000"
      (Some (runASCII (on_socket "A" (room_selectGame "1000" "avalon") entropy0)
                      revealState)) = Some lobby
  ∧ phaseOf "1000"
      (Some (runASCII (on_socket "A" (room_start "1000") entropy0) revealState))
    = Some roles
  ∧ phaseRank lobby < phaseRank reveal
  ∧ phaseRank roles < phaseRank reveal.
Proof.
  split.
  { apply (runRequests_reachable inReveal initial); [apply reachable_initial|].
    vm_compute. reflexivity. }
  split; [vm_compute; reflexivity|]. split; [vm_compute; reflexivity|].
  split; [vm_compute; reflexivity|]. simpl. lia.
Qed.

(** ** The order of the roster *)

Lemma Map_get_None k m : Map_get k m = None ↔ k ∉ Player.id <$> m.
Proof.
  unfold Map_get. induction m as [|p m IH]; simpl.
  - split; [intros _ | done]. apply not_elem_of_nil.
  - rewrite not_elem_of_cons. case_bool_decide as Hp.
    + split; [done|]. intros [Hne _]. by destruct Hne.
    + rewrite IH. split; [by split | by intros [_ ?]].
Qed.

Lemma Map_set_fresh p m :
  Map_get (Player.id p) m = None → Map_set p m = m ++ [p].
Proof.
  intros Hfresh%Map_get_None. unfold Map_set, Map_has.
  by rewrite bool_decide_eq_false_2.
Qed.

Lemma Map_get_app_fresh p m :
  Map_get (Player.id p) m = None → Map_get (Player.id p) (m ++ [p]) = Some p.
Proof.
  unfold Map_get. induction m as [|q m IH]; simpl.
  - intros _. by rewrite bool_decide_eq_true_2.
  - case_bool_decide; [done|]. exact IH.
Qed.

Lemma updPlayer_app_fresh p f m :
  Map_get (Player.id p) m = None →
  updPlayer (Player.id p) f (m ++ [p]) = m ++ [f p].
Proof.
  intros Hfresh%Map_get_None. unfold updPlayer. rewrite fmap_app. simpl.
  rewrite bool_decide_eq_true_2 by done. f_equal.
  induction m as [|q m IH]; simpl; [done|].
  rewrite fmap_cons, not_elem_of_cons in Hfresh. destruct Hfresh as [Hne Hfresh].
  rewrite bool_decide_eq_false_2 by done. f_equal. by apply IH.
Qed.

(** A join that succeeds puts the new player at the end of the roster: the
    roster lists the players in the order they joined. *)
Lemma join_appends_player trim toLowerCase socket code name rawSessionId e σ σ' out
    r room :
  getRoom (default "" code) σ = Some (r, room) →
  freshPlayerId (playerUUID e) σ →
  on_room_join trim toLowerCase socket code name rawSessionId e σ = (σ', out) →
  existsb isError out = false →
  ∃ room',
    State.heap σ' !! r = Some room'
    ∧ Room.players room' =
        Room.players room
        ++ [createPlayer (playerUUID e) (default "" name) socket
                         (sessionIdOf rawSessionId e)].
Proof.
  intros Hroom [_ Hfresh] Hrun Hok.
  pose proof (getRoom_heap _ _ _ _ Hroom) as Hheap.
  specialize (Hfresh _ _ Hheap).
  unfold on_room_join in Hrun. rewrite Hroom in Hrun.
  repeat case_match; simplify_eq; try done.
  set (player := createPlayer (playerUUID e) (default "" name) socket
                   (sessionIdOf rawSessionId e)) in *.
  change (playerUUID e) with (Player.id player) in Hfresh |- *.
  unfold bindSession. state_simpl.
  rewrite lookup_alter_eq, Hheap. simpl.
  change (playerUUID e) with (Player.id player).
  rewrite (Map_set_fresh _ _ Hfresh), (Map_get_app_fresh _ _ Hfresh).
  do 2 state_simpl. rewrite !lookup_alter_eq, Hheap. simpl.
  eexists. split; [reflexivity|]. simpl.
  rewrite (Map_set_fresh _ _ Hfresh).
  by rewrite (updPlayer_app_fresh _ _ _ Hfresh).
Qed.

(** ** Departures *)

(** C3: in a reachable state, after a departure — an explicit leave or the
    disconnect timer — a room object that still has players has one of them
    as its owner; and where a player did depart from it, the roster is the
    old one without that player, in the same order, the owner is unchanged
    if it was someone else, and is the first remaining player (the one who
    joined earliest) if the departed player was the owner. *)
Theorem owner_present_after_departure games trim toLowerCase σ l out σ' r room room' :
  reachable games trim toLowerCase σ →
  isDeparture l = true →
  run games trim toLowerCase l σ = Some (σ', out) →
  State.heap σ !! r = Some room →
  State.heap σ' !! r = Some room' →
  Room.players room' ≠ [] →
  Room.ownerId room' ∈ playerIds room'
  ∧ (room' = room
     ∨ ∃ departed,
         departed ∈ playerIds room
         ∧ Room.players room' = Map_delete departed (Room.players room)
         ∧ (Room.ownerId room ≠ departed → Room.ownerId room' = Room.ownerId room)
         ∧ (Room.ownerId room = departed →
            ∃ nextOwner, head (Room.players room') = Some nextOwner
                         ∧ Room.ownerId room' = Player.id nextOwner)).
Proof.
  intros Hreach Hdep Hrun Hroom Hroom' Hne.
  pose proof (reachable_roomsInv _ _ _ _ Hreach) as Hinv.
  pose proof (roomsInv_run _ _ _ _ _ _ _ Hinv Hrun) as [_ Howner'].
  destruct Hinv as [_ Howner]. split.
  { by destruct (Howner' _ _ Hroom'). }
  destruct (run_departure_effect _ _ _ _ _ _ _ Hdep Hrun)
    as [[_ Hheap]|(r0 & k & room0 & Hroom0 & Hroom0' & Hother & _)].
  { left. congruence. }
  destruct (decide (r = r0)) as [->|Hr]; [|left; rewrite Hother in Hroom'; congruence].
  assert (room0 = room) as -> by congruence.
  assert (room' = departedRoom k room) as -> by congruence.
  destruct (decide (k ∈ playerIds room)) as [Hk|Hk].
  2: { left. apply departedRoom_absent; [by eapply Howner|done]. }
  right. exists k. split; [done|]. split; [apply departedRoom_players|].
  rewrite (departedRoom_ownerId _ _ Hne). rewrite departedRoom_players in *.
  unfold nextOwnerId. split.
  - intros Hother'. by rewrite bool_decide_eq_false_2.
  - intros Hsame. rewrite bool_decide_eq_true_2 by done.
    destruct (Map_delete k (Room.players room)) as [|p m]; [done|]. by exists p.
Qed.

Lemma owner_present_after_departure_witness :
  Room.ownerId (roomAt 0 lobbyState) = "p1"
  ∧ Player.name <$> Room.players (roomAt 0 lobbyState) = ["Ann"; "Bob"]
  ∧ Room.ownerId (roomAt 0 (runASCII (on_socket "A" room_leave entropy0) lobbyState))
      ∈ playerIds (roomAt 0 (runASCII (on_socket "A" room_leave entropy0) lobbyState)).
Proof.
  split; [reflexivity|]. split; [reflexivity|].
  refine (proj1 (owner_present_after_departure catalog asciiTrim asciiToLowerCase
            lobbyState (on_socket "A" room_leave entropy0)
            (on_room_leave "A" lobbyState).2
            (runASCII (on_socket "A" room_leave entropy0) lobbyState)
            0 (roomAt 0 lobbyState)
            (roomAt 0 (runASCII (on_socket "A" room_leave entropy0) lobbyState))
            lobbyState_reachable _ _ _ _ _)).
  - reflexivity.
  - vm_compute. reflexivity.
  - vm_compute. reflexivity.
  - vm_compute. reflexivity.
  - vm_compute. discriminate.
Defined.

(** C4: in a reachable state every code of the room table leads to a room
    object with that code and at least one player; and when a departure —
    an explicit leave or the disconnect timer — empties a room object, its
    code is no longer in the room table, so a lookup of the code finds
    nothing. *)
Theorem no_empty_live_room games trim toLowerCase σ :
  reachable games trim toLowerCase σ →
  (∀ code r, State.rooms σ !! code = Some r →
     ∃ room, getRoom code σ = Some (r, room)
             ∧ Room.code room = code ∧ Room.players room ≠ [])
  ∧ (∀ l out σ' r room room',
       isDeparture l = true →
       run games trim toLowerCase l σ = Some (σ', out) →
       State.heap σ !! r = Some room →
       State.heap σ' !! r = Some room' →
       Room.players room ≠ [] →
       Room.players room' = [] →
       State.rooms σ' !! Room.code room = None
       ∧ getRoom (Room.code room) σ' = None).
Proof.
  intros Hreach. destruct (reachable_roomsInv _ _ _ _ Hreach) as [Hlive _].
  split.
  - intros code r Hcode. destruct (Hlive _ _ Hcode) as (room & Hroom & Hc & Hp).
    exists room. split; [|done]. by apply getRoom_Some.
  - intros l out σ' r room room' Hdep Hrun Hroom Hroom' Hne Hempty.
    assert (Hgone : State.rooms σ' !! Room.code room = None).
    { destruct (run_departure_effect _ _ _ _ _ _ _ Hdep Hrun)
        as [[_ Hheap]|(r0 & k & room0 & Hroom0 & Hroom0' & Hother & Hrooms)].
      { rewrite Hheap in Hroom'. congruence. }
      destruct (decide (r = r0)) as [->|Hr];
        [|rewrite Hother in Hroom' by done; congruence].
      assert (room0 = room) as -> by congruence.
      assert (room' = departedRoom k room) as -> by congruence.
      rewrite departedRoom_players in Hempty. rewrite Hrooms, Hempty. simpl.
      apply lookup_delete_eq. }
    split; [done|]. unfold getRoom. by rewrite Hgone.
Qed.

Lemma no_empty_live_room_witness :
  getRoom "1000" aloneState ≠ None
  ∧ getRoom "1000" (runASCII (on_timer 0) aloneState) = None.
Proof.
  split; [by vm_compute|].
  refine (proj2 (proj2 (no_empty_live_room catalog asciiTrim asciiToLowerCase
            aloneState aloneState_reachable)
            (on_timer 0) (graceExpired 0 "p1" aloneState).2
            (runASCII (on_timer 0) aloneState)
            0 (roomAt 0 aloneState) (roomAt 0 (runASCII (on_timer 0) aloneState))
            _ _ _ _ _ _)).
  - reflexivity.
  - vm_compute. reflexivity.
  - vm_compute. reflexivity.
  - vm_compute. reflexivity.
  - vm_compute. discriminate.
  - vm_compute. reflexivity.
Defined.

(** * Further properties of the server *)

(** ** The reveal payload and the room codes *)

Lemma sublist_filter_bool {A} (f : A → bool) (l : list A) :
  List.filter f l `sublist_of` l.
Proof.
  induction l as [|x l IH]; simpl; [done|].
  destruct (f x); [by apply sublist_skip | by apply sublist_cons].
Qed.

(** X1: the reveal payload computed for a player of a room carries the
    [gameId] of the room, and its visible players are entries of players of
    the room, in the order of the roster and each at most once: whatever the
    game and the rule, nobody from outside the room is shown and nobody is
    shown twice. *)
Theorem reveal_within_roster games room player :
  player ∈ Room.players room →
  Reveal.gameId (getRevealForPlayer games room player) = Room.gameId room
  ∧ Reveal.visiblePlayers (getRevealForPlayer games room player)
      `sublist_of` (revealEntry <$> Room.players room).
Proof.
  intros Hin. unfold getRevealForPlayer.
  destruct (getOpt (gameMap games) (Room.gameId room)) as [game|]; simpl.
  2: { split; [done|]. apply sublist_nil_l. }
  repeat case_bool_decide; simpl; (split; [done|]).
  - done.
  - apply singleton_sublist_l. by apply list_elem_of_fmap_2.
  - apply fmap_sublist, sublist_filter_bool.
Qed.

Lemma reveal_within_roster_witness :
  Reveal.gameId (getRevealForPlayer catalog hitlerRoom ann) = Room.gameId hitlerRoom
  ∧ Reveal.visiblePlayers (getRevealForPlayer catalog hitlerRoom ann)
      `sublist_of` (revealEntry <$> Room.players hitlerRoom).
Proof. apply reveal_within_roster. simpl. left. Defined.

Lemma pretty_N_char_digit x : isDigit (pretty_N_char x) = true.
Proof.
  unfold pretty_N_char. by repeat case_match.
Qed.

Lemma pretty_four_digits (n : N) :
  (1000 ≤ n ≤ 9999)%N →
  String.length (pretty n) = 4 ∧ allDigits (pretty n) = true.
Proof.
  intros Hn. unfold pretty, pretty_N. rewrite decide_False by lia.
  assert (H1 : (0 < N.div n 10)%N) by (apply N.div_str_pos_iff; lia).
  assert (H2 : (0 < N.div (N.div n 10) 10)%N).
  { rewrite N.Div0.div_div. apply N.div_str_pos_iff; lia. }
  assert (H3 : (0 < N.div (N.div (N.div n 10) 10) 10)%N).
  { rewrite !N.Div0.div_div. apply N.div_str_pos_iff; lia. }
  assert (H4 : (N.div (N.div (N.div (N.div n 10) 10) 10) 10 = 0)%N).
  { rewrite !N.Div0.div_div. apply N.div_small. lia. }
  rewrite pretty_N_go_step by lia.
  rewrite pretty_N_go_step by done.
  rewrite pretty_N_go_step by done.
  rewrite pretty_N_go_step by done.
  rewrite H4, pretty_N_go_0. split; [reflexivity|].
  cbn [allDigits]. by rewrite !pretty_N_char_digit.
Qed.

Lemma generateRoomCode_elem rooms draws code :
  generateRoomCode rooms draws = Some code → ∃ n, n ∈ draws ∧ code = pretty n.
Proof.
  induction draws as [|d draws IH]; simpl; [done|].
  case_bool_decide.
  - intros (n & Hn & ->)%IH. exists n. split; [by right|done].
  - intros [= <-]. exists d. split; [left|done].
Qed.

(** X2: when every draw is an integer from 1000 to 9999, as
    [Math.floor(1000 + Math.random() * 9000)] is, the code that
    [generateRoomCode] returns is a string of four decimal digits; it is not
    the empty string, so the handlers' [!code] tests let it through. *)
Theorem room_code_four_digits (rooms : gmap string nat) (draws : list N) code :
  Forall (λ n, 1000 ≤ n ≤ 9999)%N draws →
  generateRoomCode rooms draws = Some code →
  String.length code = 4 ∧ allDigits code = true ∧ truthy (Some code) = true.
Proof.
  intros Hrange (n & Hn & ->)%generateRoomCode_elem.
  rewrite Forall_forall in Hrange. specialize (Hrange n Hn).
  destruct (pretty_four_digits n Hrange) as [Hlen Hdig].
  split; [done|]. split; [done|].
  simpl. apply bool_decide_eq_true. intros Heq. by rewrite Heq in Hlen.
Qed.

Lemma room_code_four_digits_witness :
  generateRoomCode {["1000" := 0]} [1000%N; 4711%N] = Some "4711"
  ∧ String.length "4711" = 4
  ∧ allDigits "4711" = true
  ∧ truthy (Some "4711") = true.
Proof.
  split; [vm_compute; reflexivity|].
  apply (room_code_four_digits {["1000" := 0]} [1000%N; 4711%N] "4711").
  - constructor; [lia|]. constructor; [lia|]. constructor.
  - vm_compute. reflexivity.
Defined.

(** ** Errors *)

Lemma noError_emitRoomStateAt r σ : existsb isError (emitRoomStateAt r σ) = false.
Proof. unfold emitRoomStateAt. by destruct (State.heap σ !! r). Qed.

Lemma noError_removePlayerFromRoom r playerId sessionId socketId σ :
  existsb isError (removePlayerFromRoom r playerId sessionId socketId σ).2 = false.
Proof.
  unfold removePlayerFromRoom. repeat case_match; simpl; try done;
    apply noError_emitRoomStateAt.
Qed.

Lemma noError_reveals games room (members : list Player.t) :
  existsb isError
    ((λ member, io_to_emit (Player.socketId member)
                  (room_reveal (getRevealForPlayer games room member))) <$> members)
  = false.
Proof. induction members as [|m ms IH]; simpl; [done|exact IH]. Qed.

Ltac no_error :=
  rewrite ?existsb_app, ?noError_emitRoomStateAt, ?noError_reveals; simpl;
  rewrite ?noError_emitRoomStateAt, ?noError_reveals; try done.

(** X3: a request that is answered with a [room:error] changes nothing:
    the state after the handler is the state before, and the error is the
    only message, sent to the requesting socket alone. *)
Theorem error_leaves_state games trim toLowerCase socket req e σ σ' out :
  handle games trim toLowerCase socket req e σ = Some (σ', out) →
  existsb isError out = true →
  σ' = σ ∧ ∃ message, out = [socket_emit socket (room_error message)].
Proof.
  intros Hrun Herr. destruct req; simpl in Hrun.
  - unfold on_session_restore in Hrun.
    repeat case_match; simplify_eq; revert Herr; no_error.
  - unfold on_room_create in Hrun.
    repeat case_match; simplify_eq; try (split; [done|]; by eexists);
      revert Herr; no_error.
  - unfold on_room_join in Hrun.
    repeat case_match; simplify_eq; try (split; [done|]; by eexists);
      revert Herr; no_error.
  - unfold on_room_selectGame in Hrun.
    repeat case_match; simplify_eq; try (split; [done|]; by eexists);
      revert Herr; no_error.
  - unfold on_room_start in Hrun.
    repeat case_match; simplify_eq; try (split; [done|]; by eexists);
      revert Herr; no_error.
  - unfold on_room_reset in Hrun.
    repeat case_match; simplify_eq; try (split; [done|]; by eexists);
      revert Herr; no_error.
  - unfold on_room_leave in Hrun.
    repeat case_match; simplify_eq; try (split; [done|]; by eexists);
      revert Herr; no_error.
    match goal with H : removePlayerFromRoom ?r ?p ?s ?k ?σ = (_, ?o) |- _ =>
      pose proof (noError_removePlayerFromRoom r p s k σ) as Hno;
      rewrite H in Hno; simpl in Hno; rewrite Hno end.
    done.
  - unfold on_role_submit in Hrun.
    repeat case_match; simplify_eq; try (split; [done|]; by eexists);
      revert Herr; no_error.
  - unfold on_room_revealConfirm in Hrun.
    repeat case_match; simplify_eq; try (split; [done|]; by eexists);
      revert Herr; no_error.
  - unfold on_disconnect, setTimeout in Hrun.
    repeat case_match; simplify_eq; try (split; [done|]; by eexists);
      revert Herr; no_error.
Qed.

Lemma error_leaves_state_witness :
  (on_room_join asciiTrim asciiToLowerCase "C" (Some "1000") (Some "Cy") None
     entropyC rolesState).1 = rolesState
  ∧ ∃ message,
      (on_room_join asciiTrim asciiToLowerCase "C" (Some "1000") (Some "Cy") None
         entropyC rolesState).2 = [socket_emit "C" (room_error message)].
Proof.
  apply (error_leaves_state catalog asciiTrim asciiToLowerCase "C"
           (room_join (Some "1000") (Some "Cy") None) entropyC rolesState).
  - vm_compute. reflexivity.
  - vm_compute. reflexivity.
Defined.

(** ** Who receives a reveal *)

Lemma noReveal_emitRoomStateAt r σ : existsb isReveal (emitRoomStateAt r σ) = false.
Proof. unfold emitRoomStateAt. by destruct (State.heap σ !! r). Qed.

Lemma noReveal_removePlayerFromRoom r playerId sessionId socketId σ :
  existsb isReveal (removePlayerFromRoom r playerId sessionId socketId σ).2 = false.
Proof.
  unfold removePlayerFromRoom. repeat case_match; simpl; try done;
    apply noReveal_emitRoomStateAt.
Qed.

Lemma existsb_elem (f : Out → bool) (l : list Out) (x : Out) :
  x ∈ l → f x = true → existsb f l = true.
Proof. intros Hx Hf. apply existsb_exists. exists x. by rewrite <- list_elem_of_In. Qed.

Lemma Map_get_elem k m p : Map_get k m = Some p → p ∈ m.
Proof. intros [Hin _]%find_some. by apply list_elem_of_In. Qed.

Ltac no_reveal :=
  rewrite ?existsb_app, ?noReveal_emitRoomStateAt; simpl;
  rewrite ?noReveal_emitRoomStateAt; try done.

(** X4: every [room:reveal] message that a request produces is addressed
    to the socket of a member of a room object that is in phase [reveal]
    once the request is handled, and carries the payload computed for that
    member in that room. *)
Theorem reveal_addressed_to_member games trim toLowerCase socket req e σ σ' out o :
  handle games trim toLowerCase socket req e σ = Some (σ', out) →
  o ∈ out →
  isReveal o = true →
  ∃ r room member,
    State.heap σ' !! r = Some room
    ∧ Room.phase room = reveal
    ∧ member ∈ Room.players room
    ∧ o = io_to_emit (Player.socketId member)
            (room_reveal (getRevealForPlayer games room member)).
Proof.
  intros Hrun Ho Hrev. pose proof (existsb_elem _ _ _ Ho Hrev) as Hex.
  destruct req; simpl in Hrun.
  - unfold on_session_restore in Hrun.
    repeat case_match; simplify_eq; try (revert Hex; by no_reveal).
    apply elem_of_app in Ho as [Ho|Ho%list_elem_of_singleton].
    { pose proof (existsb_elem _ _ _ Ho Hrev) as Hex'. revert Hex'. by no_reveal. }
    match goal with H : bool_decide (Room.phase ?room = reveal) && _ = true |- _ =>
      apply andb_true_iff in H as [Hphase%bool_decide_eq_true _] end.
    eexists _, _, _. split; [eassumption|]. split; [done|].
    split; [by eapply Map_get_elem|done].
  - unfold on_room_create in Hrun.
    repeat case_match; simplify_eq; revert Hex; by no_reveal.
  - unfold on_room_join in Hrun.
    repeat case_match; simplify_eq; revert Hex; by no_reveal.
  - unfold on_room_selectGame in Hrun.
    repeat case_match; simplify_eq; revert Hex; by no_reveal.
  - unfold on_room_start in Hrun.
    repeat case_match; simplify_eq; revert Hex; by no_reveal.
  - unfold on_room_reset in Hrun.
    repeat case_match; simplify_eq; revert Hex; by no_reveal.
  - unfold on_room_leave in Hrun.
    repeat case_match; simplify_eq; revert Hex; no_reveal.
    match goal with H : removePlayerFromRoom ?r ?p ?s ?k ?σ = (_, ?o) |- _ =>
      pose proof (noReveal_removePlayerFromRoom r p s k σ) as Hno;
      rewrite H in Hno; simpl in Hno; rewrite Hno end.
    done.
  - unfold on_role_submit in Hrun.
    repeat case_match; simplify_eq; revert Hex; by no_reveal.
  - unfold on_room_revealConfirm in Hrun.
    repeat case_match; simplify_eq; try (revert Hex; by no_reveal).
    apply elem_of_app in Ho as [Ho|Ho].
    { apply list_elem_of_singleton in Ho. by subst o. }
    apply list_elem_of_fmap in Ho as (member & -> & Hmember).
    match goal with H : getRoom _ _ = Some (?r, ?room) |- _ =>
      apply getRoom_heap in H;
      exists r, (setPhase reveal room), member end.
    split; [by apply heap_updRoom_eq|]. by repeat split.
  - unfold on_disconnect, setTimeout in Hrun.
    repeat case_match; simplify_eq; revert Hex; by no_reveal.
Qed.

Lemma reveal_addressed_to_member_witness :
  ∃ r room member,
    State.heap (on_room_revealConfirm catalog "A" "1000" readyState).1 !! r = Some room
    ∧ Room.phase room = reveal
    ∧ member ∈ Room.players room
    ∧ default (socket_join "" "")
        ((on_room_revealConfirm catalog "A" "1000" readyState).2 !! 2)
      = io_to_emit (Player.socketId member)
          (room_reveal (getRevealForPlayer catalog room member)).
Proof.
  apply (reveal_addressed_to_member catalog asciiTrim asciiToLowerCase "A"
           (room_revealConfirm "1000") entropy0 readyState
           (on_room_revealConfirm catalog "A" "1000" readyState).1
           (on_room_revealConfirm catalog "A" "1000" readyState).2).
  - vm_compute. reflexivity.
  - vm_compute. right. right. left.
  - vm_compute. reflexivity.
Defined.

(** ** Leaving *)

Ltac state_proj :=
  cbn [State.heap State.rooms State.socketIndex State.sessionIndex State.timers
       State.detached State.nextTimer
       setHeap setRooms setSocketIndex setSessionIndex
       setTimers setDetached updRoom setTimeout clearTimeout fst snd].

Lemma truthy_Some s : s ≠ "" → truthy (Some s) = true.
Proof. intros. simpl. by apply bool_decide_eq_true. Qed.

Lemma socketIndex_clearTimeout t σ :
  State.socketIndex (clearTimeout t σ) = State.socketIndex σ.
Proof. by destruct t. Qed.

Lemma removePlayerFromRoom_unbinds r playerId sessionId socketId σ room player :
  State.heap σ !! r = Some room →
  Map_get playerId (Room.players room) = Some player →
  socketId ≠ "" →
  State.socketIndex (removePlayerFromRoom r playerId sessionId socketId σ).1 !! socketId
  = None.
Proof.
  intros Hroom Hplayer Hsocket. unfold removePlayerFromRoom.
  rewrite Hroom, Hplayer, (truthy_Some _ Hsocket).
  repeat case_match; state_proj; apply lookup_delete_eq.
Qed.

Lemma removePlayerFromRoom_absent r playerId sessionId socketId σ room :
  State.heap σ !! r = Some room →
  Map_get playerId (Room.players room) = None →
  removePlayerFromRoom r playerId sessionId socketId σ = (σ, []).
Proof. intros Hroom Hplayer. unfold removePlayerFromRoom. by rewrite Hroom, Hplayer. Qed.

(** X5: a second [room:leave] from the same socket changes nothing: the
    state after it is the state the first one left, and nothing is
    broadcast. *)
Theorem leave_twice socket σ σ1 out1 :
  socket ≠ "" →
  on_room_leave socket σ = (σ1, out1) →
  ∃ out2,
    on_room_leave socket σ1 = (σ1, out2)
    ∧ existsb isBroadcast out2 = false.
Proof.
  intros Hsocket Hrun. unfold on_room_leave in Hrun.
  destruct (State.socketIndex σ !! socket) as [index|] eqn:Hindex.
  2: { simplify_eq. exists []. unfold on_room_leave. by rewrite Hindex. }
  destruct (getRoom (SocketEntry.code index) σ) as [[r room]|] eqn:Hroom.
  2: { exists []. split; [|done].
       case_match; simplify_eq; unfold on_room_leave; state_proj;
         by rewrite lookup_delete_eq. }
  pose proof (getRoom_heap _ _ _ _ Hroom) as Hheap.
  destruct (Map_get (SocketEntry.playerId index) (Room.players room))
    as [player|] eqn:Hplayer.
  - pose proof (removePlayerFromRoom_unbinds r _ (SocketEntry.sessionId index)
                  socket σ room player Hheap Hplayer Hsocket) as Hgone.
    destruct (removePlayerFromRoom r _ _ socket σ) as [σ' out']. simplify_eq.
    exists []. unfold on_room_leave. simpl in Hgone. by rewrite Hgone.
  - rewrite (removePlayerFromRoom_absent _ _ _ _ _ _ Hheap Hplayer) in Hrun.
    simplify_eq. eexists. unfold on_room_leave. rewrite Hindex, Hroom.
    rewrite (removePlayerFromRoom_absent _ _ _ _ _ _ Hheap Hplayer).
    split; [reflexivity|done].
Qed.

Lemma leave_twice_witness :
  ∃ out2,
    on_room_leave "A" (on_room_leave "A" lobbyState).1
    = ((on_room_leave "A" lobbyState).1, out2)
    ∧ existsb isBroadcast out2 = false.
Proof.
  apply (leave_twice "A" lobbyState (on_room_leave "A" lobbyState).1
           (on_room_leave "A" lobbyState).2).
  - discriminate.
  - vm_compute. reflexivity.
Defined.

Lemma Map_get_updPlayer k f m :
  (∀ p, Player.id (f p) = Player.id p) →
  Map_get k (updPlayer k f m) = f <$> Map_get k m.
Proof.
  intros Hf. unfold Map_get, updPlayer. induction m as [|p m IH]; [done|].
  rewrite fmap_cons. cbn [find]. destruct (decide (Player.id p = k)) as [Hp|Hp].
  - rewrite (bool_decide_eq_true_2 (Player.id p = k)) by done.
    rewrite Hf. by rewrite !bool_decide_eq_true_2.
  - rewrite (bool_decide_eq_false_2 (Player.id p = k)) by done.
    by rewrite bool_decide_eq_false_2.
Qed.

Lemma Map_get_created uuid name socket sessionId :
  Map_get uuid [createPlayer uuid name socket sessionId]
  = Some (createPlayer uuid name socket sessionId).
Proof. unfold Map_get. simpl. by rewrite bool_decide_eq_true_2. Qed.

Lemma Map_delete_created uuid name socket sessionId :
  Map_delete uuid [createPlayer uuid name socket sessionId] = [].
Proof.
  unfold Map_delete. simpl. rewrite bool_decide_eq_false_2; [done|].
  intros Hne. by apply Hne.
Qed.

(** The state right after [room:create] succeeded. *)
Lemma on_room_create_binds socket name rawSessionId e σ σ' out :
  on_room_create socket name rawSessionId e σ = Some (σ', out) →
  truthy name = true →
  ∃ code r,
    State.rooms σ !! code = None
    ∧ State.rooms σ' = <[code := r]> (State.rooms σ)
    ∧ State.heap σ' !! r = Some (createdRoom socket name rawSessionId e code)
    ∧ State.socketIndex σ' !! socket
      = Some (SocketEntry.mk code (playerUUID e) (sessionIdOf rawSessionId e))
    ∧ State.sessionIndex σ' !! sessionIdOf rawSessionId e
      = Some (SessionEntry.mk code (playerUUID e)).
Proof.
  intros Hrun Hname.
  pose proof (on_room_create_effect socket name rawSessionId e σ) as Heff.
  rewrite Hrun, Hname in Heff.
  destruct Heff as (code & r & Hcode & Hfree & _ & Hrooms & Hnew & _).
  exists code, r. split; [done|]. split; [done|]. split; [done|].
  unfold on_room_create in Hrun. rewrite Hname, Hcode in Hrun. simpl in Hrun.
  injection Hrun as <- _. unfold bindSession. state_proj.
  rewrite lookup_insert_eq. simpl. rewrite bool_decide_eq_true_2 by done.
  state_proj. split; apply lookup_insert_eq.
Qed.

(** X6: when the creator of a room leaves right after creating it, the
    room table is what it was before the room was created, the socket is
    unbound, and nothing is broadcast: the room, being empty, is deleted. *)
Theorem create_then_leave socket name rawSessionId e σ σ1 out1 σ2 out2 :
  socket ≠ "" →
  truthy name = true →
  on_room_create socket name rawSessionId e σ = Some (σ1, out1) →
  on_room_leave socket σ1 = (σ2, out2) →
  State.rooms σ2 = State.rooms σ
  ∧ State.socketIndex σ2 !! socket = None
  ∧ existsb isBroadcast out2 = false.
Proof.
  intros Hsocket Hname Hcreate Hleave.
  destruct (on_room_create_binds _ _ _ _ _ _ _ Hcreate Hname)
    as (code & r & Hfree & Hrooms & Hheap & Hindex & _).
  unfold on_room_leave in Hleave. rewrite Hindex in Hleave. simpl in Hleave.
  assert (Hroom : getRoom code σ1
                  = Some (r, createdRoom socket name rawSessionId e code)).
  { apply getRoom_Some. split; [|done]. rewrite Hrooms. apply lookup_insert_eq. }
  rewrite Hroom in Hleave. unfold removePlayerFromRoom in Hleave.
  rewrite Hheap in Hleave.
  change (Room.players (createdRoom socket name rawSessionId e code))
    with [createPlayer (playerUUID e) (default "" name) socket
                       (sessionIdOf rawSessionId e)] in Hleave.
  cbn [SocketEntry.playerId SocketEntry.sessionId SocketEntry.code] in Hleave.
  rewrite Map_get_created, Map_delete_created in Hleave.
  rewrite (truthy_Some _ Hsocket) in Hleave. cbn [length] in Hleave.
  rewrite bool_decide_eq_true_2 in Hleave by done.
  destruct (truthy (Some (sessionIdOf rawSessionId e)));
    injection Hleave as <- <-; state_proj;
    rewrite Hrooms, (delete_insert_id _ _ _ Hfree), lookup_delete_eq; done.
Qed.

Lemma create_then_leave_witness :
  State.rooms (on_room_leave "A" (runASCII
     (on_socket "A" (room_create (Some "Ann") None) entropyA) initial)).1
  = State.rooms initial
  ∧ State.socketIndex (on_room_leave "A" (runASCII
      (on_socket "A" (room_create (Some "Ann") None) entropyA) initial)).1 !! "A" = None
  ∧ existsb isBroadcast (on_room_leave "A" (runASCII
      (on_socket "A" (room_create (Some "Ann") None) entropyA) initial)).2 = false.
Proof.
  apply (create_then_leave "A" (Some "Ann") None entropyA initial
           (runASCII (on_socket "A" (room_create (Some "Ann") None) entropyA) initial)
           (default [] (snd <$> on_room_create "A" (Some "Ann") None entropyA initial))).
  - discriminate.
  - reflexivity.
  - vm_compute. reflexivity.
  - vm_compute. reflexivity.
Defined.

(** ** Disconnecting and coming back *)

Lemma Map_get_id k m p : Map_get k m = Some p → Player.id p = k.
Proof. intros [_ Hid]%find_some. by apply bool_decide_eq_true in Hid. Qed.

Lemma on_disconnect_bound socket σ index r room player :
  State.socketIndex σ !! socket = Some index →
  getRoom (SocketEntry.code index) σ = Some (r, room) →
  Map_get (SocketEntry.playerId index) (Room.players room) = Some player →
  (on_disconnect socket σ).1 = afterDisconnect socket r player σ.
Proof.
  intros Hindex Hroom Hplayer. unfold on_disconnect, afterDisconnect.
  rewrite Hindex, Hroom, Hplayer. unfold setTimeout.
  by destruct (Player.disconnectTimer player).
Qed.

Lemma afterDisconnect_facts socket r room player σ :
  State.heap σ !! r = Some room →
  Map_get (Player.id player) (Room.players room) = Some player →
  let σ1 := afterDisconnect socket r player σ in
  let t := State.nextTimer σ in
  State.rooms σ1 = State.rooms σ
  ∧ State.sessionIndex σ1 = State.sessionIndex σ
  ∧ State.timers σ1 !! t = Some (r, Player.id player)
  ∧ State.heap σ1 !! r
    = Some (setPlayers (updPlayer (Player.id player) (disconnected t)) room)
  ∧ Map_get (Player.id player)
      (updPlayer (Player.id player) (disconnected t) (Room.players room))
    = Some (disconnected t player).
Proof.
  intros Hheap Hplayer. unfold afterDisconnect.
  split; [by destruct (Player.disconnectTimer player)|].
  split; [by destruct (Player.disconnectTimer player)|].
  split.
  { state_proj. destruct (Player.disconnectTimer player); state_proj;
      apply lookup_insert_eq. }
  split.
  { state_proj. rewrite lookup_alter_eq.
    destruct (Player.disconnectTimer player); state_proj; by rewrite Hheap. }
  rewrite Map_get_updPlayer by done. by rewrite Hplayer.
Qed.

(** X7: a player whose socket disconnects and whose session is restored
    from another socket: the disconnect arms a timer for the player; the
    restore clears it, so that it can no longer fire; the player is in the
    room as before, connected, bound to the new socket, with the role and
    the submission kept, and the roster has the same players. *)
Theorem reconnect_cancels_removal games socket socket' sessionId σ index r room player :
  State.socketIndex σ !! socket = Some index →
  getRoom (SocketEntry.code index) σ = Some (r, room) →
  Map_get (SocketEntry.playerId index) (Room.players room) = Some player →
  sessionId ≠ "" →
  State.sessionIndex σ !! sessionId
  = Some (SessionEntry.mk (SocketEntry.code index) (SocketEntry.playerId index)) →
  let t := State.nextTimer σ in
  let σ1 := (on_disconnect socket σ).1 in
  let σ2 := (on_session_restore games socket' (Some sessionId) σ1).1 in
  State.timers σ1 !! t = Some (r, Player.id player)
  ∧ State.timers σ2 !! t = None
  ∧ on_timeout t σ2 = None
  ∧ ∃ room2 player2,
      State.heap σ2 !! r = Some room2
      ∧ playerIds room2 = playerIds room
      ∧ Map_get (Player.id player) (Room.players room2) = Some player2
      ∧ Player.connected player2 = true
      ∧ Player.disconnectTimer player2 = None
      ∧ Player.socketId player2 = socket'
      ∧ Player.roleId player2 = Player.roleId player
      ∧ Player.hasSubmittedRole player2 = Player.hasSubmittedRole player.
Proof.
  intros Hindex Hroom Hplayer Hsid Hsession t σ1 σ2.
  destruct (proj1 (getRoom_Some _ _ _ _) Hroom) as [Hrooms Hheap].
  pose proof (Map_get_id _ _ _ Hplayer) as Hid.
  rewrite <- Hid in Hplayer, Hsession.
  assert (Hσ1 : σ1 = afterDisconnect socket r player σ).
  { subst σ1. rewrite Hid in Hplayer. by eapply on_disconnect_bound. }
  destruct (afterDisconnect_facts socket r room player σ Hheap Hplayer)
    as (Hrooms1 & Hsess1 & Htimer1 & Hheap1 & Hget1).
  rewrite <- Hσ1 in Hrooms1, Hsess1, Htimer1, Hheap1. fold t in Htimer1, Hheap1, Hget1.
  split; [done|].
  set (room1 := setPlayers (updPlayer (Player.id player) (disconnected t)) room) in *.
  assert (Hσ2 : σ2 = bindSession sessionId (Room.code room1) r (Player.id player)
                       socket' σ1).
  { subst σ2. unfold on_session_restore. rewrite (truthy_Some _ Hsid). simpl.
    rewrite Hsess1, Hsession. simpl.
    assert (Hroom1 : getRoom (SocketEntry.code index) σ1 = Some (r, room1)).
    { apply getRoom_Some. by rewrite Hrooms1. }
    rewrite Hroom1. cbn [Room.players room1 setPlayers]. rewrite Hget1.
    cbn [Player.id disconnected setDisconnectTimer setConnected].
    by repeat case_match. }
  assert (Hbind : State.heap σ1 !! r
                  ≫= (λ room, Map_get (Player.id player) (Room.players room))
                  = Some (disconnected t player)).
  { rewrite Hheap1. simpl. exact Hget1. }
  rewrite Hσ2. unfold bindSession. rewrite Hbind.
  cbn [Player.disconnectTimer disconnected setDisconnectTimer setConnected].
  state_proj.
  split; [apply lookup_delete_eq|].
  split; [unfold on_timeout; state_proj; by rewrite lookup_delete_eq|].
  rewrite lookup_alter_eq, Hheap1. simpl.
  eexists _, _. split; [reflexivity|]. split.
  { unfold playerIds. simpl. by rewrite !ids_updPlayer. }
  split.
  { cbn [Room.players setPlayers room1]. rewrite Map_get_updPlayer by done.
    rewrite Hget1. reflexivity. }
  done.
Qed.

Lemma reconnect_cancels_removal_witness :
  State.timers (on_disconnect "B" lobbyState).1 !! 0 = Some (0, "p2")
  ∧ on_timeout 0
      (on_session_restore catalog "B2" (Some "s2") (on_disconnect "B" lobbyState).1).1
    = None.
Proof.
  pose proof (reconnect_cancels_removal catalog "B" "B2" "s2" lobbyState
                (SocketEntry.mk "1000" "p2" "s2") 0 (roomAt 0 lobbyState)
                (default ann (Map_get "p2" (Room.players (roomAt 0 lobbyState)))))
    as Hthm.
  cbv zeta in Hthm.
  destruct Hthm as (Hpending & _ & Hgone & _).
  - vm_compute. reflexivity.
  - vm_compute. reflexivity.
  - vm_compute. reflexivity.
  - discriminate.
  - vm_compute. reflexivity.
  - split; [exact Hpending|exact Hgone].
Defined.

(** X8: when the timer armed by a disconnect fires with nothing in
    between, the roster of the room is the old one without the player, the
    session of the player is forgotten, and the code of the room is deleted
    from the room table exactly when the room is left without players. *)
Theorem grace_expiry_removes_player socket σ index r room player :
  State.socketIndex σ !! socket = Some index →
  getRoom (SocketEntry.code index) σ = Some (r, room) →
  Map_get (SocketEntry.playerId index) (Room.players room) = Some player →
  let t := State.nextTimer σ in
  let σ1 := (on_disconnect socket σ).1 in
  ∃ σ2 out2 room2,
    on_timeout t σ1 = Some (σ2, out2)
    ∧ State.heap σ2 !! r = Some room2
    ∧ (∀ i, i ∈ playerIds room2 ↔ i ∈ playerIds room ∧ i ≠ Player.id player)
    ∧ State.sessionIndex σ2 !! Player.sessionId player = None
    ∧ State.rooms σ2 =
        (if bool_decide (Room.players room2 = [])
         then delete (Room.code room) (State.rooms σ) else State.rooms σ).
Proof.
  intros Hindex Hroom Hplayer t σ1.
  destruct (proj1 (getRoom_Some _ _ _ _) Hroom) as [Hrooms Hheap].
  pose proof (Map_get_id _ _ _ Hplayer) as Hid.
  rewrite <- Hid in Hplayer.
  assert (Hσ1 : σ1 = afterDisconnect socket r player σ).
  { subst σ1. rewrite Hid in Hplayer. by eapply on_disconnect_bound. }
  destruct (afterDisconnect_facts socket r room player σ Hheap Hplayer)
    as (Hrooms1 & Hsess1 & Htimer1 & Hheap1 & Hget1).
  rewrite <- Hσ1 in Hrooms1, Hsess1, Htimer1, Hheap1. fold t in Htimer1, Hheap1, Hget1.
  set (room1 := setPlayers (updPlayer (Player.id player) (disconnected t)) room) in *.
  unfold on_timeout. rewrite Htimer1. unfold graceExpired. state_proj.
  rewrite Hheap1. cbn [Room.players room1 setPlayers]. rewrite Hget1.
  cbn [from_option Player.connected disconnected setDisconnectTimer setConnected
       Player.id Player.sessionId].
  rewrite (bool_decide_eq_true_2 (is_Some _)) by (by eexists).
  assert (Hids : ∀ i, i ∈ Player.id <$> Map_delete (Player.id player)
                        (updPlayer (Player.id player) (disconnected t) (Room.players room))
                   ↔ i ∈ playerIds room ∧ i ≠ Player.id player).
  { intros i. rewrite ids_Map_delete, ids_updPlayer by done. done. }
  case_bool_decide as Hlen.
  - eexists _, _, _. split; [reflexivity|]. state_proj.
    rewrite lookup_alter_eq, Hheap1. simpl.
    split; [reflexivity|]. split; [exact Hids|].
    split; [apply lookup_delete_eq|].
    apply length_zero_nil in Hlen. rewrite bool_decide_eq_true_2 by done.
    by rewrite Hrooms1.
  - eexists _, _, _. split; [reflexivity|]. state_proj.
    rewrite !lookup_alter_eq, Hheap1. simpl.
    split; [reflexivity|]. split; [exact Hids|].
    split; [apply lookup_delete_eq|].
    rewrite bool_decide_eq_false_2; [done|].
    simpl. by rewrite <- length_zero_nil.
Qed.

Lemma grace_expiry_removes_player_witness :
  ∃ σ2 out2 room2,
    on_timeout 0 (on_disconnect "B" lobbyState).1 = Some (σ2, out2)
    ∧ State.heap σ2 !! 0 = Some room2
    ∧ (∀ i, i ∈ playerIds room2 ↔ i ∈ playerIds (roomAt 0 lobbyState) ∧ i ≠ "p2")
    ∧ State.sessionIndex σ2 !! "s2" = None
    ∧ State.rooms σ2 =
        (if bool_decide (Room.players room2 = [])
         then delete "1000" (State.rooms lobbyState) else State.rooms lobbyState).
Proof.
  apply (grace_expiry_removes_player "B" lobbyState (SocketEntry.mk "1000" "p2" "s2") 0
           (roomAt 0 lobbyState)
           (default ann (Map_get "p2" (Room.players (roomAt 0 lobbyState))))).
  - vm_compute. reflexivity.
  - vm_compute. reflexivity.
  - vm_compute. reflexivity.
Defined.

(** ** Room objects along a run *)

Section MutationLemmas.

Variable games : list Game.t.
Variables trim toLowerCase : string → string.

Local Abbreviation mutation := (mutation games trim toLowerCase).
Local Abbreviation mutated := (mutated games trim toLowerCase).

Lemma mutated_refl r x : mutated r x x.
Proof. apply rtc_refl. Qed.

Lemma mutated_step r x y z : mutated r x y → mutation y z → mutated r x z.
Proof. apply rtc_r. Qed.

Lemma heapRel_mutation h h1 r f :
  heapRel mutated h h1 →
  (∀ y, h1 !! r = Some y → mutation y (f y)) →
  heapRel mutated h (alter f r h1).
Proof.
  intros Hrel Hf. apply heapRel_alter; [done|].
  intros x y _ Hy Hxy. eapply mutated_step; [done|]. by apply Hf.
Qed.

Lemma heapRel_mutated_bindSession h sessionId code r playerId socket σ :
  heapRel mutated h (State.heap σ) →
  heapRel mutated h (State.heap (bindSession sessionId code r playerId socket σ)).
Proof.
  intros Hrel. unfold bindSession. destruct (_ ≫= _) as [player|]; [|done].
  simpl. rewrite heap_clearTimeout. apply heapRel_mutation; [done|].
  intros y _. by apply mut_players.
Qed.

Ltac mutated_tac :=
  repeat first
    [ apply heapRel_refl, mutated_refl
    | apply heapRel_mutated_bindSession
    | progress state_simpl ].

Lemma restore_mutated socket sessionId σ σ' out :
  on_session_restore games socket sessionId σ = (σ', out) →
  heapRel mutated (State.heap σ) (State.heap σ').
Proof.
  unfold on_session_restore. intros Hrun.
  repeat case_match; simplify_eq; mutated_tac.
Qed.

Lemma join_mutated socket code name raw e σ σ' out :
  freshPlayerId (playerUUID e) σ →
  on_room_join trim toLowerCase socket code name raw e σ = (σ', out) →
  heapRel mutated (State.heap σ) (State.heap σ').
Proof.
  unfold on_room_join. intros [_ Hfresh] Hrun.
  repeat case_match; simplify_eq; mutated_tac.
  apply heapRel_mutation; [mutated_tac|]. intros y Hy.
  match goal with H : getRoom _ _ = Some _ |- _ => apply getRoom_heap in H end.
  assert (y = t) as -> by congruence.
  apply mut_join; try done.
  - match goal with H : bool_decide (_ ≠ lobby) = false |- _ =>
      apply bool_decide_eq_false in H; by apply dec_stable in H end.
  - by eapply Hfresh.
  - intros (q & Heq & Hq)%list_elem_of_fmap.
    match goal with H : existsb _ _ = false |- _ =>
      rewrite <- not_true_iff_false, existsb_elem_of in H; apply H end.
    exists q. split; [done|]. apply bool_decide_eq_true. by rewrite <- Heq.
Qed.

Lemma selectGame_mutated socket code gameId σ σ' out :
  on_room_selectGame games socket code gameId σ = (σ', out) →
  heapRel mutated (State.heap σ) (State.heap σ').
Proof.
  unfold on_room_selectGame. intros Hrun.
  repeat case_match; simplify_eq; mutated_tac.
  apply heapRel_mutation; [mutated_tac|]. intros y _. apply mut_selectGame.
  match goal with H : negb (bool_decide _) = false |- _ =>
    apply negb_false_iff, bool_decide_eq_true in H; exact H end.
Qed.

Lemma start_mutated socket code σ σ' out :
  on_room_start socket code σ = (σ', out) →
  heapRel mutated (State.heap σ) (State.heap σ').
Proof.
  unfold on_room_start. intros Hrun.
  repeat case_match; simplify_eq; mutated_tac.
  apply heapRel_mutation; [mutated_tac|]. intros y Hy.
  match goal with H : getRoom _ _ = Some _ |- _ => apply getRoom_heap in H end.
  assert (y = t) as -> by congruence.
  apply mut_start. by apply negb_false_iff.
Qed.

Lemma reset_mutated socket code σ σ' out :
  on_room_reset socket code σ = (σ', out) →
  heapRel mutated (State.heap σ) (State.heap σ').
Proof.
  unfold on_room_reset. intros Hrun.
  repeat case_match; simplify_eq; mutated_tac.
  apply heapRel_mutation; [mutated_tac|]. intros y _. apply mut_reset.
Qed.

Lemma find_role_elem roleId (rs : list Role.t) :
  is_Some (List.find (λ role, bool_decide (Role.id role = roleId)) rs) →
  roleId ∈ Role.id <$> rs.
Proof.
  intros [role [Hin Hid]%find_some]. apply bool_decide_eq_true in Hid.
  apply list_elem_of_fmap. exists role. split; [done|]. by apply list_elem_of_In.
Qed.

Lemma submit_mutated socket code roleId σ σ' out :
  on_role_submit games socket code roleId σ = (σ', out) →
  heapRel mutated (State.heap σ) (State.heap σ').
Proof.
  unfold on_role_submit. intros Hrun.
  repeat case_match; simplify_eq; mutated_tac;
    match goal with H : getRoom _ _ = Some _ |- _ => apply getRoom_heap in H end;
    match goal with H : bool_decide (_ ≠ roles) = false |- _ =>
      apply bool_decide_eq_false in H; apply dec_stable in H end;
    match goal with H : negb (bool_decide _) = false |- _ =>
      apply negb_false_iff, bool_decide_eq_true, find_role_elem in H end.
  - apply heapRel_mutation.
    + apply heapRel_mutation; [mutated_tac|]. intros y Hy.
      assert (y = t) as -> by congruence. by eapply mut_submit.
    + intros y Hy.
      match goal with H : State.heap (updRoom _ _ _) !! _ = Some _ |- _ =>
        unfold updRoom in H; simpl in H; rewrite H in Hy end.
      injection Hy as <-.
      match goal with H : alter _ _ _ !! _ = Some _ |- _ =>
        rewrite lookup_alter_eq in H end.
      match goal with H : State.heap σ !! _ = Some _, H' : _ <$> _ = Some _ |- _ =>
        rewrite H in H'; injection H' as <- end.
      by apply mut_advance.
  - apply heapRel_mutation; [mutated_tac|]. intros y Hy.
    assert (y = t) as -> by congruence. by eapply mut_submit.
  - apply heapRel_mutation; [mutated_tac|]. intros y Hy.
    assert (y = t) as -> by congruence. by eapply mut_submit.
Qed.

Lemma revealConfirm_mutated socket code σ σ' out :
  on_room_revealConfirm games socket code σ = (σ', out) →
  heapRel mutated (State.heap σ) (State.heap σ').
Proof.
  unfold on_room_revealConfirm. intros Hrun.
  repeat case_match; simplify_eq; mutated_tac.
  match goal with H : getRoom _ _ = Some _ |- _ => apply getRoom_heap in H end.
  apply heapRel_mutation; [mutated_tac|]. intros y Hy.
  assert (y = t) as -> by congruence. apply mut_reveal.
  - match goal with H : bool_decide (_ ≠ ready) = false |- _ =>
      apply bool_decide_eq_false in H; by apply dec_stable in H end.
  - by apply negb_false_iff.
Qed.

Lemma disconnect_mutated socket σ σ' out :
  on_disconnect socket σ = (σ', out) →
  heapRel mutated (State.heap σ) (State.heap σ').
Proof.
  unfold on_disconnect, setTimeout. intros Hrun.
  repeat case_match; simplify_eq; mutated_tac.
  apply heapRel_mutation; [mutated_tac|]. intros y _. by apply mut_players.
Qed.

(** Every room object of the state after a step is a room object of the
    state before it, mutated, or the room a [room:create] built. *)
Lemma run_mutated l σ σ' out r y :
  admissible l σ →
  run games trim toLowerCase l σ = Some (σ', out) →
  State.heap σ' !! r = Some y →
  (∃ x, State.heap σ !! r = Some x ∧ mutated r x y)
  ∨ (State.heap σ !! r = None
     ∧ ∃ socket name rawSessionId e code,
         y = createdRoom socket name rawSessionId e code).
Proof.
  intros Hadm Hrun Hy.
  assert (Hrel : ∀ h', heapRel mutated (State.heap σ) h' → h' !! r = Some y →
                 ∃ x, State.heap σ !! r = Some x ∧ mutated r x y).
  { intros h' Hrel Hy'. specialize (Hrel r). rewrite Hy' in Hrel.
    destruct (State.heap σ !! r) as [x|]; [|done]. by exists x. }
  assert (Hdep : untouched σ σ' ∨ (∃ r0 k, departs σ σ' r0 k) →
                 ∃ x, State.heap σ !! r = Some x ∧ mutated r x y).
  { intros [[_ Hheap]|(r0 & k & room0 & Hroom0 & Hroom0' & Hother & _)].
    - exists y. split; [congruence|apply mutated_refl].
    - destruct (decide (r = r0)) as [->|Hne].
      + exists room0. split; [done|]. assert (y = departedRoom k room0) as -> by congruence.
        apply rtc_once, mut_depart.
      + exists y. split; [by rewrite <- Hother|apply mutated_refl]. }
  destruct l as [socket req e|t]; simpl in Hrun, Hadm.
  2: { left. apply Hdep. by eapply on_timeout_effect. }
  destruct req; try injection Hrun as Hrun.
  - left. eapply Hrel; [by eapply restore_mutated|done].
  - pose proof (on_room_create_effect socket name rawSessionId e σ) as Heff.
    simpl in Hrun. rewrite Hrun in Heff. destruct (truthy name).
    + destruct Heff as (code & r0 & _ & _ & Hfresh & _ & Hnew & Hother & _).
      destruct (decide (r = r0)) as [->|Hne].
      * right. split; [done|]. exists socket, name, rawSessionId, e, code. congruence.
      * left. exists y. split; [by rewrite <- Hother|apply mutated_refl].
    + destruct Heff as [-> _]. left. exists y. split; [done|apply mutated_refl].
  - left. eapply Hrel; [by eapply join_mutated|done].
  - left. eapply Hrel; [by eapply selectGame_mutated|done].
  - left. eapply Hrel; [by eapply start_mutated|done].
  - left. eapply Hrel; [by eapply reset_mutated|done].
  - left. apply Hdep. by eapply on_room_leave_effect.
  - left. eapply Hrel; [by eapply submit_mutated|done].
  - left. eapply Hrel; [by eapply revealConfirm_mutated|done].
  - left. eapply Hrel; [by eapply disconnect_mutated|done].
Qed.

(** The induction principle for a property of room objects. *)
Lemma room_invariant (P : Room.t → Prop) :
  (∀ socket name rawSessionId e code,
     P (createdRoom socket name rawSessionId e code)) →
  (∀ x y, mutation x y → P x → P y) →
  ∀ σ, reachable games trim toLowerCase σ →
  ∀ r room, State.heap σ !! r = Some room → P room.
Proof.
  intros Hnew Hstep σ Hreach.
  induction Hreach as [|σ l out σ' _ IH [Hadm Hrun]]; intros r room Hroom.
  - simpl in Hroom. by rewrite lookup_empty in Hroom.
  - destruct (run_mutated _ _ _ _ _ _ Hadm Hrun Hroom)
      as [(x & Hx & Hxy)|(_ & socket & name & raw & e & code & ->)]; [|apply Hnew].
    specialize (IH _ _ Hx). clear Hx. induction Hxy; eauto.
Qed.

End MutationLemmas.

(** ** Invariants of the room objects *)

Lemma elem_of_updPlayer k g m q :
  q ∈ updPlayer k g m → ∃ p, p ∈ m ∧ (q = p ∨ (Player.id p = k ∧ q = g p)).
Proof.
  unfold updPlayer. intros (p & -> & Hp)%list_elem_of_fmap. exists p.
  split; [done|]. case_bool_decide; eauto.
Qed.

Lemma elem_of_Map_set p m q : q ∈ Map_set p m → q = p ∨ q ∈ m.
Proof.
  unfold Map_set. destruct (Map_has (Player.id p) m).
  - intros (q' & -> & Hq')%list_elem_of_fmap. case_bool_decide; eauto.
  - intros [?|Hq%list_elem_of_singleton]%elem_of_app; eauto.
Qed.

Lemma elem_of_Map_delete k m q : q ∈ Map_delete k m → q ∈ m.
Proof. unfold Map_delete. by intros [? _]%elem_of_filter_bool. Qed.

Lemma elem_of_resetRoles room q :
  q ∈ Room.players (resetRoles room) →
  Player.roleId q = None ∧ Player.hasSubmittedRole q = false.
Proof. simpl. by intros (p & -> & _)%list_elem_of_fmap. Qed.

Lemma departedRoom_gameId k room : Room.gameId (departedRoom k room) = Room.gameId room.
Proof. unfold departedRoom. by case_bool_decide. Qed.

Section Invariants.

Variable games : list Game.t.
Variables trim toLowerCase : string → string.

Lemma rolesConsistent_mutation x y :
  mutation games trim toLowerCase x y → rolesConsistent games x → rolesConsistent games y.
Proof.
  intros Hmut Hx. destruct Hmut as
    [y k g Hg | y p Hphase Hfresh Hrole Hsub Hname | y gameId Hgame | y Hgame | y
    | y k roleId game Hphase Hgame Hrole | y Hphase Hall | y Hphase Hall | y k].
  - intros q (p & Hp & [->|[_ ->]])%elem_of_updPlayer; [by apply Hx|].
    destruct (Hg p) as (_ & _ & -> & ->). by apply Hx.
  - intros q [->|Hq]%elem_of_Map_set; [|by apply Hx].
    rewrite Hrole, Hsub. split; [|done]. split; [done|]. by intros [? ?].
  - intros q [-> ->]%elem_of_resetRoles. split; [|done].
    split; [done|]. by intros [? ?].
  - intros q [-> ->]%elem_of_resetRoles. split; [|done].
    split; [done|]. by intros [? ?].
  - intros q [-> ->]%elem_of_resetRoles. split; [|done].
    split; [done|]. by intros [? ?].
  - intros q (p & Hp & [->|[_ ->]])%elem_of_updPlayer; [by apply Hx|].
    simpl. split; [split; eauto|]. intros ? [= <-]. eauto.
  - exact Hx.
  - exact Hx.
  - intros q Hq. rewrite departedRoom_players in Hq. apply elem_of_Map_delete in Hq.
    rewrite departedRoom_gameId. by apply Hx.
Qed.

Lemma gameResolved_mutation x y :
  mutation games trim toLowerCase x y → gameResolved games x → gameResolved games y.
Proof.
  intros Hmut [Hcat Hsel]. destruct Hmut as
    [y k g Hg | y p Hphase Hfresh Hrole Hsub Hname | y gameId Hgame | y Hgame | y
    | y k roleId game Hphase Hgame Hrole | y Hphase Hall | y Hphase Hall | y k];
    try (split; [exact Hcat|exact Hsel]).
  - split; [by intros ? [= <-]|done].
  - split; [exact Hcat|done].
  - split; [done|done].
  - split; [exact Hcat|]. intros _. apply Hsel. by rewrite Hphase.
  - split; [exact Hcat|]. intros _. apply Hsel. by rewrite Hphase.
  - split.
    + rewrite departedRoom_gameId. exact Hcat.
    + rewrite departedRoom_gameId, departedRoom_phase. exact Hsel.
Qed.

Lemma allSubmitted_updPlayer k g room :
  keepsPlayer g →
  allSubmitted (setPlayers (updPlayer k g) room) = allSubmitted room.
Proof.
  intros Hg. unfold allSubmitted, updPlayer. simpl.
  induction (Room.players room) as [|p m IH]; simpl; [done|].
  f_equal; [|exact IH]. case_bool_decide; [|done]. by destruct (Hg p) as (_ & _ & _ & ->).
Qed.

Lemma allSubmitted_departed k room :
  allSubmitted room = true → allSubmitted (departedRoom k room) = true.
Proof.
  rewrite !allSubmitted_true. intros Hall p Hp.
  rewrite departedRoom_players in Hp. apply Hall. by eapply elem_of_Map_delete.
Qed.

Lemma submittedWhenReady_mutation x y :
  mutation games trim toLowerCase x y → submittedWhenReady x → submittedWhenReady y.
Proof.
  intros Hmut Hx. destruct Hmut as
    [y k g Hg | y p Hphase Hfresh Hrole Hsub Hname | y gameId Hgame | y Hgame | y
    | y k roleId game Hphase Hgame Hrole | y Hphase Hall | y Hphase Hall | y k];
    unfold submittedWhenReady; simpl; try (intros [?|?]; congruence); try done.
  - intros Hphase. rewrite allSubmitted_updPlayer by done. by apply Hx.
  - rewrite departedRoom_phase. intros Hphase. apply allSubmitted_departed. by apply Hx.
Qed.

Lemma normalizedNames_updPlayer k g room :
  (∀ p, Player.name (g p) = Player.name p) →
  normalizedNames trim toLowerCase (setPlayers (updPlayer k g) room)
  = normalizedNames trim toLowerCase room.
Proof.
  intros Hg. unfold normalizedNames, updPlayer. simpl. rewrite <- list_fmap_compose.
  apply list_fmap_ext. intros _ p _. simpl. case_bool_decide; [|done].
  by rewrite Hg.
Qed.

Lemma normalizedNames_resetRoles room :
  normalizedNames trim toLowerCase (resetRoles room)
  = normalizedNames trim toLowerCase room.
Proof.
  unfold normalizedNames. simpl. rewrite <- list_fmap_compose. by apply list_fmap_ext.
Qed.

Lemma normalizedNames_departed k room :
  normalizedNames trim toLowerCase (departedRoom k room)
    `sublist_of` normalizedNames trim toLowerCase room.
Proof.
  unfold normalizedNames. rewrite departedRoom_players.
  apply fmap_sublist, sublist_filter_bool.
Qed.

Lemma namesDistinct_mutation x y :
  mutation games trim toLowerCase x y →
  NoDup (normalizedNames trim toLowerCase x) →
  NoDup (normalizedNames trim toLowerCase y).
Proof.
  intros Hmut Hx. destruct Hmut as
    [y k g Hg | y p Hphase Hfresh Hrole Hsub Hname | y gameId Hgame | y Hgame | y
    | y k roleId game Hphase Hgame Hrole | y Hphase Hall | y Hphase Hall | y k];
    try done.
  - rewrite normalizedNames_updPlayer; [done|]. intros p. by destruct (Hg p) as (_ & -> & _).
  - unfold normalizedNames. simpl. rewrite (Map_set_fresh _ _ Hfresh), fmap_app.
    apply NoDup_app. split; [done|]. split; [|apply NoDup_singleton].
    intros n Hn ->%list_elem_of_singleton. by apply Hname.
  - by rewrite normalizedNames_resetRoles.
  - by rewrite normalizedNames_resetRoles.
  - by rewrite normalizedNames_resetRoles.
  - by rewrite normalizedNames_updPlayer.
  - exact (sublist_NoDup _ _ Hx (normalizedNames_departed k y)).
Qed.

Lemma idsDistinct_mutation x y :
  mutation games trim toLowerCase x y → NoDup (playerIds x) → NoDup (playerIds y).
Proof.
  intros Hmut Hx. destruct Hmut as
    [y k g Hg | y p Hphase Hfresh Hrole Hsub Hname | y gameId Hgame | y Hgame | y
    | y k roleId game Hphase Hgame Hrole | y Hphase Hall | y Hphase Hall | y k];
    try done; unfold playerIds in *; simpl.
  - rewrite ids_updPlayer; [done|]. intros p. by destruct (Hg p).
  - rewrite (Map_set_fresh _ _ Hfresh), fmap_app.
    apply NoDup_app. split; [done|]. split; [|apply NoDup_singleton].
    intros i Hi ->%list_elem_of_singleton. by apply Map_get_None in Hfresh.
  - by rewrite <- list_fmap_compose.
  - by rewrite <- list_fmap_compose.
  - by rewrite <- list_fmap_compose.
  - by rewrite ids_updPlayer.
  - rewrite departedRoom_players.
    assert (Hsub : Player.id <$> Map_delete k (Room.players y)
                     `sublist_of` Player.id <$> Room.players y)
      by apply fmap_sublist, sublist_filter_bool.
    exact (sublist_NoDup _ _ Hx Hsub).
Qed.

Lemma reachable_rolesConsistent σ r room :
  reachable games trim toLowerCase σ →
  State.heap σ !! r = Some room →
  rolesConsistent games room.
Proof.
  intros Hreach. revert r room.
  apply (room_invariant games trim toLowerCase (rolesConsistent games)); [| |done].
  - intros socket name raw e code q ->%list_elem_of_singleton. simpl.
    split; [|done]. split; [done|]. by intros [? ?].
  - apply rolesConsistent_mutation.
Qed.

Lemma reachable_gameResolved σ r room :
  reachable games trim toLowerCase σ →
  State.heap σ !! r = Some room →
  gameResolved games room
  ∧ (Room.phase room ≠ lobby →
     is_Some (getOpt (gameMap games) (Room.gameId room))).
Proof.
  intros Hreach Hroom.
  assert (Hinv : gameResolved games room).
  { revert r room Hroom.
    apply (room_invariant games trim toLowerCase (gameResolved games)); [| |done].
    - intros socket name raw e code. split; [done|]. simpl. done.
    - apply gameResolved_mutation. }
  split; [done|]. destruct Hinv as [Hcat Hsel]. intros Hphase.
  specialize (Hsel Hphase). apply truthy_true in Hsel as (g & Hg & _).
  rewrite Hg. simpl. by apply Hcat.
Qed.

Lemma reachable_submitted σ r room :
  reachable games trim toLowerCase σ →
  State.heap σ !! r = Some room →
  Room.phase room = ready ∨ Room.phase room = reveal →
  ∀ p, p ∈ Room.players room →
    Player.hasSubmittedRole p = true ∧ is_Some (Player.roleId p).
Proof.
  intros Hreach Hroom Hphase p Hp.
  assert (Hinv : submittedWhenReady room).
  { clear Hphase Hp. revert r room Hroom.
    apply (room_invariant games trim toLowerCase submittedWhenReady); [| |done].
    - intros socket name raw e code [?|?]; done.
    - apply submittedWhenReady_mutation. }
  specialize (Hinv Hphase). rewrite allSubmitted_true in Hinv.
  split; [by apply Hinv|].
  destruct (reachable_rolesConsistent σ r room Hreach Hroom p Hp) as [Hiff _].
  apply Hiff. by apply Hinv.
Qed.

Lemma reachable_namesDistinct σ r room :
  reachable games trim toLowerCase σ →
  State.heap σ !! r = Some room →
  NoDup (normalizedNames trim toLowerCase room) ∧ NoDup (playerIds room).
Proof.
  intros Hreach Hroom. split; revert r room Hroom.
  - apply (room_invariant games trim toLowerCase
             (λ room, NoDup (normalizedNames trim toLowerCase room))); [| |done].
    + intros. apply NoDup_singleton.
    + apply namesDistinct_mutation.
  - apply (room_invariant games trim toLowerCase (λ room, NoDup (playerIds room)));
      [| |done].
    + intros. apply NoDup_singleton.
    + apply idsDistinct_mutation.
Qed.

End Invariants.

(** ** Pending timers and the room table *)

Lemma armed_alter h t r playerId r' f :
  (∀ x, h !! r = Some x → r' = r → keepsArmedAt playerId x (f x)) →
  armed h t r playerId → armed (alter f r' h) t r playerId.
Proof.
  intros Hf (room & p & Hroom & Hp & Hconn & Htimer).
  destruct (decide (r' = r)) as [->|Hne].
  - destruct (Hf room Hroom eq_refl p Hp) as (p' & Hp' & Hc & Ht).
    exists (f room), p'. rewrite lookup_alter_eq, Hroom. split; [done|].
    split; [done|]. split; congruence.
  - exists room, p. by rewrite lookup_alter_ne.
Qed.

Lemma allArmed_neutral timers h r f :
  allArmed timers h →
  (∀ x playerId, h !! r = Some x → keepsArmedAt playerId x (f x)) →
  allArmed timers (alter f r h).
Proof.
  intros Hall Hf t r0 k Ht. apply armed_alter; [|by apply Hall].
  intros x Hx ->. by apply Hf.
Qed.

Lemma allArmed_cleared handle timers h : allArmed timers h → allArmed (cleared handle timers) h.
Proof.
  intros Hall t r k Ht. apply Hall. destruct handle as [t0|]; [|done].
  simpl in Ht. by apply lookup_delete_Some in Ht as [_ ?].
Qed.

(** The handle of a player is cleared and the player rewritten or deleted:
    the timers left belong to other players. *)
Lemma allArmed_player timers h r x k p0 f :
  allArmed timers h →
  h !! r = Some x →
  Map_get k (Room.players x) = Some p0 →
  (∀ playerId, playerId ≠ k → keepsArmedAt playerId x (f x)) →
  allArmed (cleared (Player.disconnectTimer p0) timers) (alter f r h).
Proof.
  intros Hall Hx Hp0 Hf t r0 k0 Ht.
  assert (Ht0 : timers !! t = Some (r0, k0)).
  { destruct (Player.disconnectTimer p0) as [t0|]; [|done].
    simpl in Ht. by apply lookup_delete_Some in Ht as [_ ?]. }
  pose proof (Hall _ _ _ Ht0) as Harmed.
  apply armed_alter; [|done]. intros x' Hx' ->.
  assert (x' = x) as -> by congruence.
  destruct (decide (k0 = k)) as [->|Hne]; [|by apply Hf].
  destruct Harmed as (room & p & Hroom & Hp & _ & Htimer).
  assert (room = x) as -> by congruence.
  assert (p = p0) as -> by congruence.
  rewrite Htimer in Ht. simpl in Ht. by rewrite lookup_delete_eq in Ht.
Qed.

Lemma allArmed_insert timers h t r k :
  allArmed timers h → armed h t r k → allArmed (<[t := (r, k)]> timers) h.
Proof.
  intros Hall Harmed t0 r0 k0 Ht0.
  apply lookup_insert_Some in Ht0 as [[<- [= <- <-]]|[_ Ht0]]; [done|by apply Hall].
Qed.

Lemma allArmed_new_room timers h r room :
  allArmed timers h → h !! r = None → allArmed timers (<[r := room]> h).
Proof.
  intros Hall Hfresh t r0 k Ht. destruct (Hall _ _ _ Ht) as (x & p & Hx & Hrest).
  exists x, p. split; [|done]. rewrite lookup_insert_ne; [done|]. congruence.
Qed.

(** *** Rosters that keep a player as it is *)

Lemma Map_get_updPlayer_ne k k' g m :
  (∀ p, Player.id (g p) = Player.id p) → k ≠ k' →
  Map_get k (updPlayer k' g m) = Map_get k m.
Proof.
  intros Hg Hne. unfold Map_get, updPlayer. induction m as [|p m IH]; [done|].
  rewrite fmap_cons. cbn [find]. destruct (decide (Player.id p = k')) as [Hp|Hp].
  - rewrite (bool_decide_eq_true_2 (Player.id p = k')) by done.
    rewrite Hg. rewrite !bool_decide_eq_false_2 by congruence. exact IH.
  - rewrite (bool_decide_eq_false_2 (Player.id p = k')) by done.
    destruct (bool_decide (Player.id p = k)); [done|exact IH].
Qed.

Lemma Map_get_fmap k g m :
  (∀ p, Player.id (g p) = Player.id p) →
  Map_get k (g <$> m) = g <$> Map_get k m.
Proof.
  intros Hg. unfold Map_get. induction m as [|p m IH]; [done|].
  rewrite fmap_cons. cbn [find]. rewrite Hg.
  destruct (bool_decide (Player.id p = k)); [done|exact IH].
Qed.

Lemma Map_get_Map_delete_ne k k' m :
  k ≠ k' → Map_get k (Map_delete k' m) = Map_get k m.
Proof.
  intros Hne. unfold Map_get, Map_delete. induction m as [|p m IH]; [done|].
  simpl. case_bool_decide as Hp; simpl.
  - destruct (bool_decide (Player.id p = k)); [done|exact IH].
  - rewrite (bool_decide_eq_false_2 (Player.id p = k)); [exact IH|].
    intros Hk. apply Hne. congruence.
Qed.

Lemma Map_get_app_l k m m' p :
  Map_get k m = Some p → Map_get k (m ++ m') = Some p.
Proof.
  unfold Map_get. induction m as [|q m IH]; [done|]. simpl.
  destruct (bool_decide (Player.id q = k)); [done|exact IH].
Qed.

Lemma keepsArmedAt_same k x y :
  Room.players y = Room.players x → keepsArmedAt k x y.
Proof. intros Heq p Hp. exists p. by rewrite Heq. Qed.

Lemma keepsArmedAt_updPlayer_ne k k' g x :
  (∀ p, Player.id (g p) = Player.id p) → k ≠ k' →
  keepsArmedAt k x (setPlayers (updPlayer k' g) x).
Proof.
  intros Hg Hne p Hp. exists p. simpl. by rewrite Map_get_updPlayer_ne.
Qed.

Lemma keepsArmedAt_fmap k g x y :
  (∀ p, Player.id (g p) = Player.id p
        ∧ Player.connected (g p) = Player.connected p
        ∧ Player.disconnectTimer (g p) = Player.disconnectTimer p) →
  Room.players y = g <$> Room.players x →
  keepsArmedAt k x y.
Proof.
  intros Hg Heq p Hp. exists (g p). rewrite Heq, Map_get_fmap, Hp by apply Hg.
  split; [done|]. by destruct (Hg p) as (_ & -> & ->).
Qed.

Lemma keepsArmedAt_setRole k k' roleId submitted x :
  keepsArmedAt k x (setPlayers (updPlayer k' (setRole roleId submitted)) x).
Proof.
  intros p Hp. destruct (decide (k = k')) as [->|Hne].
  - exists (setRole roleId submitted p). simpl.
    rewrite Map_get_updPlayer by done. by rewrite Hp.
  - exists p. simpl. by rewrite Map_get_updPlayer_ne.
Qed.

Lemma keepsArmedAt_Map_delete_ne k k' x f :
  Room.players (f x) = Map_delete k' (Room.players x) → k ≠ k' →
  keepsArmedAt k x (f x).
Proof.
  intros Heq Hne p Hp. exists p. by rewrite Heq, Map_get_Map_delete_ne.
Qed.

Lemma keepsArmedAt_Map_set k q x :
  Map_get (Player.id q) (Room.players x) = None →
  keepsArmedAt k x (setPlayers (Map_set q) x).
Proof.
  intros Hfresh p Hp. exists p. simpl. rewrite (Map_set_fresh _ _ Hfresh).
  split; [by apply Map_get_app_l|done].
Qed.

(** *** The handlers keep the pending timers armed *)

Lemma timers_clearTimeout handle σ :
  State.timers (clearTimeout handle σ) = cleared handle (State.timers σ).
Proof. by destruct handle. Qed.

Lemma timersArmed_updRoom r f σ :
  timersArmed σ →
  (∀ x playerId, State.heap σ !! r = Some x → keepsArmedAt playerId x (f x)) →
  timersArmed (updRoom r f σ).
Proof. intros Hinv Hf. by apply allArmed_neutral. Qed.

Lemma timersArmed_bindSession sessionId code r playerId socket σ :
  timersArmed σ → timersArmed (bindSession sessionId code r playerId socket σ).
Proof.
  intros Hinv. unfold bindSession.
  destruct (State.heap σ !! r) as [room|] eqn:Hroom; [|done]. simpl.
  destruct (Map_get playerId (Room.players room)) as [player|] eqn:Hplayer; [|done].
  unfold timersArmed. state_proj. fold (clearTimeout (Player.disconnectTimer player) σ).
  rewrite timers_clearTimeout, heap_clearTimeout.
  eapply allArmed_player; [done..|].
  intros k Hk. by apply keepsArmedAt_updPlayer_ne.
Qed.

Lemma timersArmed_removePlayerFromRoom r playerId sessionId socketId σ :
  timersArmed σ →
  timersArmed (removePlayerFromRoom r playerId sessionId socketId σ).1.
Proof.
  intros Hinv. unfold removePlayerFromRoom.
  destruct (State.heap σ !! r) as [room|] eqn:Hroom; [|done].
  destruct (Map_get playerId (Room.players room)) as [player|] eqn:Hplayer; [|done].
  assert (Hdel : allArmed (cleared (Player.disconnectTimer player) (State.timers σ))
                   (alter (setPlayers (Map_delete playerId)) r (State.heap σ))).
  { eapply allArmed_player; [done..|].
    intros k Hk. by apply (keepsArmedAt_Map_delete_ne k playerId room
                             (setPlayers (Map_delete playerId))). }
  cbv zeta. destruct (truthy (Some sessionId)), (truthy (Some socketId));
    case_bool_decide; unfold timersArmed; state_proj;
    fold (clearTimeout (Player.disconnectTimer player) σ);
    rewrite ?timers_clearTimeout, ?heap_clearTimeout; try done;
    (apply allArmed_neutral; [done|]; intros; by apply keepsArmedAt_same).
Qed.

Section TimersArmed.

Variable games : list Game.t.
Variables trim toLowerCase : string → string.

Lemma timersArmed_initial : timersArmed initial.
Proof. intros t r k Ht. simpl in Ht. by rewrite lookup_empty in Ht. Qed.

Lemma timersArmed_restore socket sessionId σ :
  timersArmed σ → timersArmed (on_session_restore games socket sessionId σ).1.
Proof.
  intros Hinv. unfold on_session_restore.
  destruct (negb (truthy sessionId)); [done|].
  destruct (State.sessionIndex σ !! default "" sessionId) as [session|]; [|done].
  destruct (getRoom (SessionEntry.code session) σ) as [[r room]|]; [|done].
  destruct (Map_get _ (Room.players room)) as [player|]; [|done].
  pose proof (timersArmed_bindSession (default "" sessionId) (Room.code room) r
                (Player.id player) socket σ Hinv) as Hbound.
  repeat case_match; done.
Qed.

Lemma timersArmed_create socket name rawSessionId e σ σ' out :
  timersArmed σ →
  on_room_create socket name rawSessionId e σ = Some (σ', out) →
  timersArmed σ'.
Proof.
  intros Hinv. unfold on_room_create.
  destruct (negb (truthy name)); [by intros [= <- _]|].
  destruct (generateRoomCode (State.rooms σ) (draws e)) as [code|]; [|done].
  intros [= <- _]. apply timersArmed_bindSession.
  unfold timersArmed. state_proj. apply allArmed_new_room; [done|].
  apply not_elem_of_dom, is_fresh.
Qed.

Lemma timersArmed_join socket code name rawSessionId e σ :
  timersArmed σ → freshPlayerId (playerUUID e) σ →
  timersArmed (on_room_join trim toLowerCase socket code name rawSessionId e σ).1.
Proof.
  intros Hinv [_ Hfresh]. unfold on_room_join.
  destruct (negb (truthy code) || negb (truthy name)); [done|].
  destruct (getRoom (default "" code) σ) as [[r room]|] eqn:Hroom; [|done].
  destruct (existsb _ (Room.players room)); [done|].
  case_bool_decide; [done|]. cbn [fst].
  apply timersArmed_bindSession, timersArmed_updRoom; [done|].
  intros x k Hx. apply keepsArmedAt_Map_set. simpl. by eapply Hfresh.
Qed.

Lemma keepsArmedAt_resetRoles k x y :
  Room.players y = Room.players (resetRoles x) → keepsArmedAt k x y.
Proof. intros Heq. by apply (keepsArmedAt_fmap k (setRole None false)). Qed.

Lemma timersArmed_selectGame socket code gameId σ :
  timersArmed σ → timersArmed (on_room_selectGame games socket code gameId σ).1.
Proof.
  intros Hinv. unfold on_room_selectGame.
  destruct (getRoom code σ) as [[r room]|]; [|done].
  destruct (negb (isOwnerSocket socket room σ)); [done|].
  destruct (negb _); [done|]. cbn [fst].
  apply timersArmed_updRoom; [done|]. intros. by apply keepsArmedAt_resetRoles.
Qed.

Lemma timersArmed_start socket code σ :
  timersArmed σ → timersArmed (on_room_start socket code σ).1.
Proof.
  intros Hinv. unfold on_room_start.
  destruct (getRoom code σ) as [[r room]|]; [|done].
  destruct (negb (isOwnerSocket socket room σ)); [done|].
  destruct (negb _); [done|]. cbn [fst].
  apply timersArmed_updRoom; [done|]. intros. by apply keepsArmedAt_resetRoles.
Qed.

Lemma timersArmed_reset socket code σ :
  timersArmed σ → timersArmed (on_room_reset socket code σ).1.
Proof.
  intros Hinv. unfold on_room_reset.
  destruct (getRoom code σ) as [[r room]|]; [|done].
  destruct (negb (isOwnerSocket socket room σ)); [done|]. cbn [fst].
  apply timersArmed_updRoom; [done|]. intros. by apply keepsArmedAt_resetRoles.
Qed.

Lemma timersArmed_leave socket σ :
  timersArmed σ → timersArmed (on_room_leave socket σ).1.
Proof.
  intros Hinv. unfold on_room_leave.
  destruct (State.socketIndex σ !! socket) as [index|]; [|done].
  destruct (getRoom (SocketEntry.code index) σ) as [[r room]|].
  - pose proof (timersArmed_removePlayerFromRoom r (SocketEntry.playerId index)
                  (SocketEntry.sessionId index) socket σ Hinv) as Hrem.
    by destruct (removePlayerFromRoom r _ _ socket σ) as [σ1 out1].
  - by destruct (truthy _).
Qed.

Lemma timersArmed_submit socket code roleId σ :
  timersArmed σ → timersArmed (on_role_submit games socket code roleId σ).1.
Proof.
  intros Hinv. unfold on_role_submit.
  destruct (getRoom code σ) as [[r room]|]; [|done].
  destruct (State.socketIndex σ !! socket) as [index|]; [|done].
  case_bool_decide; [done|].
  destruct (Map_get _ (Room.players room)) as [player|]; [|done].
  destruct (negb _); [done|].
  assert (Hset : timersArmed (updRoom r (setPlayers (updPlayer (Player.id player)
                    (setRole (Some roleId) true))) σ)).
  { apply timersArmed_updRoom; [done|]. intros. apply keepsArmedAt_setRole. }
  cbv zeta. destruct (State.heap _ !! r) as [room'|]; [|done].
  destruct (allSubmitted room'); [|done]. cbn [fst].
  apply timersArmed_updRoom; [done|]. intros. by apply keepsArmedAt_same.
Qed.

Lemma timersArmed_revealConfirm socket code σ :
  timersArmed σ → timersArmed (on_room_revealConfirm games socket code σ).1.
Proof.
  intros Hinv. unfold on_room_revealConfirm.
  destruct (getRoom code σ) as [[r room]|]; [|done].
  destruct (negb (isOwnerSocket socket room σ)); [done|].
  case_bool_decide; [done|]. destruct (negb _); [done|]. cbn [fst].
  apply timersArmed_updRoom; [done|]. intros. by apply keepsArmedAt_same.
Qed.

Lemma timersArmed_disconnect socket σ :
  timersArmed σ → timersArmed (on_disconnect socket σ).1.
Proof.
  intros Hinv. unfold on_disconnect.
  destruct (State.socketIndex σ !! socket) as [index|]; [|done].
  destruct (getRoom (SocketEntry.code index) σ) as [[r room]|] eqn:Hroom; [|done].
  apply getRoom_heap in Hroom.
  destruct (Map_get _ (Room.players room)) as [player|] eqn:Hplayer; [|done].
  pose proof (Map_get_id _ _ _ Hplayer) as Hid.
  unfold setTimeout, timersArmed. state_proj.
  fold (clearTimeout (Player.disconnectTimer player) (setSocketIndex (delete socket) σ)).
  rewrite timers_clearTimeout, heap_clearTimeout.
  state_proj. apply allArmed_insert.
  - eapply (allArmed_player _ _ _ _ (Player.id player)); [done..| |].
    + rewrite Hid. exact Hplayer.
    + intros k Hk. by apply keepsArmedAt_updPlayer_ne.
  - eexists _, _. rewrite lookup_alter_eq, Hroom. split; [done|].
    cbn [Room.players setPlayers]. rewrite Map_get_updPlayer by done.
    rewrite Hid, Hplayer. done.
Qed.

Lemma timersArmed_handle socket req e σ σ' out :
  timersArmed σ →
  admissible (on_socket socket req e) σ →
  handle games trim toLowerCase socket req e σ = Some (σ', out) →
  timersArmed σ'.
Proof.
  intros Hinv Hadm Hrun. destruct req; simpl in Hrun;
    try (injection Hrun as Hrun; apply (f_equal fst) in Hrun;
         cbn [fst] in Hrun; subst σ').
  - by apply timersArmed_restore.
  - by eapply timersArmed_create.
  - by apply timersArmed_join.
  - by apply timersArmed_selectGame.
  - by apply timersArmed_start.
  - by apply timersArmed_reset.
  - by apply timersArmed_leave.
  - by apply timersArmed_submit.
  - by apply timersArmed_revealConfirm.
  - by apply timersArmed_disconnect.
Qed.

End TimersArmed.

(** *** The timer callback on an armed timer *)

Lemma graceExpired_armed r playerId σ room player :
  State.heap σ !! r = Some room →
  Map_get playerId (Room.players room) = Some player →
  Player.connected player = false →
  ∃ σ' out,
    graceExpired r playerId σ = (σ', out)
    ∧ departs σ σ' r playerId
    ∧ State.timers σ' = State.timers σ
    ∧ State.sessionIndex σ' = delete (Player.sessionId player) (State.sessionIndex σ)
    ∧ State.socketIndex σ' = State.socketIndex σ
    ∧ out = if bool_decide (Room.players (departedRoom playerId room) = [])
            then [] else emitRoomState (departedRoom playerId room).
Proof.
  intros Hheap Hplayer Hconn. pose proof (Map_get_id _ _ _ Hplayer) as Hid.
  unfold graceExpired. rewrite Hheap. cbv zeta. rewrite Hplayer.
  cbn [from_option]. rewrite Hconn, Hid.
  rewrite (bool_decide_eq_true_2 (is_Some _)) by (by eexists).
  rewrite departedRoom_players. unfold departedRoom.
  destruct (bool_decide (length (Map_delete playerId (Room.players room)) = 0))
    eqn:Hempty.
  - eexists _, _. split; [done|].
    apply bool_decide_eq_true, length_zero_nil in Hempty as Hnil.
    rewrite (bool_decide_eq_true_2 (_ = [])) by done.
    split; [|done]. exists room. split; [done|]. unfold departedRoom. rewrite Hempty.
    departs_tac Hheap.
  - eexists _, _. split; [done|].
    apply bool_decide_eq_false in Hempty as Hnil.
    rewrite (bool_decide_eq_false_2 (_ = [])) by (intros Heq; by rewrite Heq in Hnil).
    split; [|split; [done|split; [done|split; [done|]]]].
    + exists room. split; [done|]. unfold departedRoom. rewrite Hempty.
      departs_tac Hheap.
    + unfold emitRoomStateAt. state_proj. by rewrite !lookup_alter_eq, Hheap.
Qed.

Lemma on_timeout_armed t r playerId σ :
  timersArmed σ →
  State.timers σ !! t = Some (r, playerId) →
  ∃ room player σ' out,
    State.heap σ !! r = Some room
    ∧ Map_get playerId (Room.players room) = Some player
    ∧ Player.connected player = false
    ∧ Player.disconnectTimer player = Some t
    ∧ on_timeout t σ = Some (σ', out)
    ∧ departs σ σ' r playerId
    ∧ State.timers σ' = delete t (State.timers σ)
    ∧ State.sessionIndex σ' = delete (Player.sessionId player) (State.sessionIndex σ)
    ∧ State.socketIndex σ' = State.socketIndex σ
    ∧ out = if bool_decide (Room.players (departedRoom playerId room) = [])
            then [] else emitRoomState (departedRoom playerId room).
Proof.
  intros Hinv Ht. destruct (Hinv _ _ _ Ht) as (room & player & Hroom & Hplayer & Hconn & Hhandle).
  destruct (graceExpired_armed r playerId (setTimers (delete t) σ) room player)
    as (σ' & out & Hrun & Hdep & Htimers & Hrest); [done..|].
  exists room, player, σ', out. unfold on_timeout. rewrite Ht, Hrun.
  repeat (split; [done|]). done.
Qed.

Lemma timersArmed_on_timeout t σ σ' out :
  timersArmed σ → on_timeout t σ = Some (σ', out) → timersArmed σ'.
Proof.
  intros Hinv Hrun.
  destruct (State.timers σ !! t) as [[r playerId]|] eqn:Ht;
    [|by unfold on_timeout in Hrun; rewrite Ht in Hrun].
  destruct (on_timeout_armed _ _ _ _ Hinv Ht)
    as (room & player & σ1 & out1 & Hroom & Hplayer & _ & Hhandle & Hrun1
        & (room1 & Hroom1 & Hafter & Hother & _) & Htimers & _).
  assert (σ1 = σ') as -> by congruence.
  assert (room1 = room) as -> by congruence.
  intros t0 r0 k0 Ht0. rewrite Htimers in Ht0.
  apply lookup_delete_Some in Ht0 as [Hne Ht0].
  destruct (Hinv _ _ _ Ht0) as (x & p & Hx & Hp & Hconn & Htimer).
  destruct (decide (r0 = r)) as [->|Hr].
  - assert (x = room) as -> by congruence.
    exists (departedRoom playerId room), p. split; [done|].
    rewrite departedRoom_players. split; [|done].
    rewrite Map_get_Map_delete_ne; [done|]. intros ->. congruence.
  - exists x, p. by rewrite Hother.
Qed.

Lemma reachable_timersArmed games trim toLowerCase σ :
  reachable games trim toLowerCase σ → timersArmed σ.
Proof.
  induction 1 as [|σ l out σ' _ IH [Hadm Hrun]].
  - apply timersArmed_initial.
  - destruct l as [socket req e|t]; simpl in Hrun.
    + by eapply timersArmed_handle.
    + by eapply timersArmed_on_timeout.
Qed.

(** *** Room objects with players are in the room table *)

Lemma Map_get_member k m p : Map_get k m = Some p → k ∈ Player.id <$> m.
Proof.
  intros Hp. destruct (decide (k ∈ Player.id <$> m)) as [|Hno]; [done|].
  apply Map_get_None in Hno. congruence.
Qed.

Lemma on_room_leave_member socket σ σ' out :
  on_room_leave socket σ = (σ', out) →
  untouched σ σ' ∨
  ∃ r departed room,
    State.heap σ !! r = Some room ∧ departed ∈ playerIds room
    ∧ departs σ σ' r departed.
Proof.
  unfold on_room_leave. intros Hrun.
  destruct (State.socketIndex σ !! socket) as [index|]; [|left; by simplify_eq].
  destruct (getRoom (SocketEntry.code index) σ) as [[r room]|] eqn:Hroom.
  - apply getRoom_heap in Hroom.
    destruct (removePlayerFromRoom r _ _ socket σ) as [σ1 out1] eqn:Hrem.
    simplify_eq.
    destruct (Map_get (SocketEntry.playerId index) (Room.players room))
      as [player|] eqn:Hplayer.
    + apply removePlayerFromRoom_effect in Hrem as [?|?]; [by left|].
      right. exists r, (SocketEntry.playerId index), room.
      split; [done|]. split; [by eapply Map_get_member|done].
    + left. unfold removePlayerFromRoom in Hrem. rewrite Hroom, Hplayer in Hrem.
      by simplify_eq.
  - left. destruct (truthy _); by simplify_eq.
Qed.

Lemma roomsListed_departs σ σ' r departed room :
  roomsListed σ →
  State.heap σ !! r = Some room → departed ∈ playerIds room →
  departs σ σ' r departed →
  roomsListed σ'.
Proof.
  intros Hinv Hroom Hmember (room0 & Hroom0 & Hafter & Hother & Hrooms).
  assert (room0 = room) as -> by congruence.
  assert (Hlisted : State.rooms σ !! Room.code room = Some r).
  { apply Hinv; [done|]. intros Hnil. unfold playerIds in Hmember.
    rewrite Hnil in Hmember. by apply elem_of_nil in Hmember. }
  intros r' room' Hroom' Hplayers'. destruct (decide (r' = r)) as [->|Hne].
  - assert (room' = departedRoom departed room) as -> by congruence.
    rewrite departedRoom_code. rewrite departedRoom_players in Hplayers'.
    rewrite Hrooms, bool_decide_eq_false_2; [done|].
    intros Hlen. by apply length_zero_nil in Hlen.
  - rewrite Hother in Hroom' by done.
    pose proof (Hinv _ _ Hroom' Hplayers') as Hlisted'.
    rewrite Hrooms. case_bool_decide; [|done].
    rewrite lookup_delete_ne; [done|]. intros Hcode. congruence.
Qed.

Lemma roomsListed_in_place l σ σ' :
  roomsInv σ → roomsListed σ → stepInPlace l σ σ' → roomsListed σ'.
Proof.
  intros [Hlive _] Hinv [Hrooms Hheap] r y Hy Hplayers.
  specialize (Hheap r). rewrite Hy in Hheap.
  destruct (State.heap σ !! r) as [x|] eqn:Hx; [|done].
  destruct Hheap as [(Hcode & _ & _ & Hempty) _]. rewrite Hrooms, Hcode.
  destruct (decide (Room.players x = [])) as [Hnil|Hne]; [|by apply Hinv].
  destruct (Hempty Hnil) as [?|[code Hlisted]]; [done|].
  destruct (Hlive _ _ Hlisted) as (x' & Hx' & _ & Hne). congruence.
Qed.

Lemma roomsListed_create socket name rawSessionId e σ σ' out :
  roomsListed σ →
  on_room_create socket name rawSessionId e σ = Some (σ', out) →
  roomsListed σ'.
Proof.
  intros Hinv Hrun.
  pose proof (on_room_create_effect socket name rawSessionId e σ) as Heff.
  rewrite Hrun in Heff. destruct (truthy name).
  - destruct Heff as (code & r & _ & Hfree & Hfresh & Hrooms & Hnew & Hother & _).
    intros r' room' Hroom' Hplayers'. rewrite Hrooms.
    destruct (decide (r' = r)) as [->|Hne].
    + assert (room' = createdRoom socket name rawSessionId e code) as -> by congruence.
      simpl. by rewrite lookup_insert_eq.
    + rewrite Hother in Hroom' by done.
      pose proof (Hinv _ _ Hroom' Hplayers') as Hlisted.
      rewrite lookup_insert_ne; [done|]. intros Hcode. congruence.
  - by destruct Heff as [-> _].
Qed.

Lemma roomsListed_untouched σ σ' : roomsListed σ → untouched σ σ' → roomsListed σ'.
Proof. intros Hinv [Hrooms Hheap] r room. rewrite Hrooms, Hheap. apply Hinv. Qed.

Lemma reachable_roomsListed games trim toLowerCase σ :
  reachable games trim toLowerCase σ → roomsListed σ.
Proof.
  induction 1 as [|σ l out σ' Hreach IH [Hadm Hrun]].
  - intros r room Hroom. simpl in Hroom. by rewrite lookup_empty in Hroom.
  - pose proof (reachable_roomsInv _ _ _ _ Hreach) as Hrooms.
    pose proof (reachable_timersArmed _ _ _ _ Hreach) as Htimers.
    destruct l as [socket req e|t].
    + destruct req;
        try (eapply roomsListed_in_place; [done|done|];
             eapply (run_in_place games trim toLowerCase); [exact Hrun|done|];
             by intros ???? [=]).
      * simpl in Hrun. by eapply roomsListed_create.
      * simpl in Hrun. injection Hrun as Hrun.
        apply on_room_leave_member in Hrun
          as [?|(r & departed & room & Hroom & Hmember & Hdep)].
        -- by eapply roomsListed_untouched.
        -- by eapply roomsListed_departs.
    + simpl in Hrun.
      destruct (State.timers σ !! t) as [[r playerId]|] eqn:Ht;
        [|by unfold on_timeout in Hrun; rewrite Ht in Hrun].
      destruct (on_timeout_armed _ _ _ _ Htimers Ht)
        as (room & player & σ1 & out1 & Hroom & Hplayer & _ & _ & Hrun1 & Hdep & _).
      assert (σ1 = σ') as -> by congruence.
      eapply roomsListed_departs; [done|exact Hroom| |exact Hdep].
      by eapply Map_get_member.
Qed.

(** ** The invariants, and what follows from them *)

Lemma revealState_reachable : reachable catalog asciiTrim asciiToLowerCase revealState.
Proof.
  apply (runRequests_reachable inReveal initial); [apply reachable_initial|].
  vm_compute. reflexivity.
Qed.

Lemma readyState_reachable : reachable catalog asciiTrim asciiToLowerCase readyState.
Proof.
  apply (runRequests_reachable inReady initial); [apply reachable_initial|].
  vm_compute. reflexivity.
Qed.

Lemma bobAwayState_reachable : reachable catalog asciiTrim asciiToLowerCase bobAwayState.
Proof.
  apply (runRequests_reachable bobAway initial); [apply reachable_initial|].
  vm_compute. reflexivity.
Qed.

(** X9: in every reachable state, for every player of every room object,
    [hasSubmittedRole] is set exactly when [roleId] is not null, and a
    [roleId] that is set is the id of a role of the game the room has
    selected, which is in the catalog. *)
Theorem roles_consistent games trim toLowerCase σ r room :
  reachable games trim toLowerCase σ →
  State.heap σ !! r = Some room →
  rolesConsistent games room.
Proof. apply reachable_rolesConsistent. Qed.

Lemma roles_consistent_witness : rolesConsistent catalog (roomAt 0 revealState).
Proof.
  apply (roles_consistent catalog asciiTrim asciiToLowerCase revealState 0).
  - exact revealState_reachable.
  - vm_compute. reflexivity.
Defined.

(** X10: in every reachable state the [gameId] of a room object is null or
    the id of a game of the catalog, and a room whose phase is not [lobby]
    has a game selected: [gameMap.get(room.gameId)] finds it. *)
Theorem game_resolved games trim toLowerCase σ r room :
  reachable games trim toLowerCase σ →
  State.heap σ !! r = Some room →
  gameResolved games room
  ∧ (Room.phase room ≠ lobby →
     is_Some (getOpt (gameMap games) (Room.gameId room))).
Proof. apply reachable_gameResolved. Qed.

Lemma game_resolved_witness :
  gameResolved catalog (roomAt 0 revealState)
  ∧ (Room.phase (roomAt 0 revealState) ≠ lobby →
     is_Some (getOpt (gameMap catalog) (Room.gameId (roomAt 0 revealState)))).
Proof.
  apply (game_resolved catalog asciiTrim asciiToLowerCase revealState 0).
  - exact revealState_reachable.
  - vm_compute. reflexivity.
Defined.

(** X11: in every reachable state, every player of a room in phase [ready]
    or [reveal] has submitted a role: [hasSubmittedRole] is true and
    [roleId] is set. *)
Theorem ready_means_all_submitted games trim toLowerCase σ r room :
  reachable games trim toLowerCase σ →
  State.heap σ !! r = Some room →
  Room.phase room = ready ∨ Room.phase room = reveal →
  ∀ p, p ∈ Room.players room →
    Player.hasSubmittedRole p = true ∧ is_Some (Player.roleId p).
Proof. apply reachable_submitted. Qed.

Lemma ready_means_all_submitted_witness :
  Room.phase (roomAt 0 readyState) = ready
  ∧ Forall (λ p, Player.hasSubmittedRole p = true ∧ is_Some (Player.roleId p))
           (Room.players (roomAt 0 readyState)).
Proof.
  split; [vm_compute; reflexivity|]. apply Forall_forall.
  apply (ready_means_all_submitted catalog asciiTrim asciiToLowerCase readyState 0).
  - exact readyState_reachable.
  - vm_compute. reflexivity.
  - left. vm_compute. reflexivity.
Defined.

(** X12: in every reachable state the players of a room object have
    pairwise distinct normalized names and pairwise distinct ids. *)
Theorem names_distinct games trim toLowerCase σ r room :
  reachable games trim toLowerCase σ →
  State.heap σ !! r = Some room →
  NoDup (normalizedNames trim toLowerCase room) ∧ NoDup (playerIds room).
Proof. apply reachable_namesDistinct. Qed.

Lemma names_distinct_witness :
  NoDup (normalizedNames asciiTrim asciiToLowerCase (roomAt 0 lobbyState))
  ∧ NoDup (playerIds (roomAt 0 lobbyState)).
Proof.
  apply (names_distinct catalog asciiTrim asciiToLowerCase lobbyState 0).
  - exact lobbyState_reachable.
  - vm_compute. reflexivity.
Defined.

(** X13: in a reachable state [room:revealConfirm] never answers "Not
    everyone has confirmed a role": a room in phase [ready] has every role
    submitted, so the handler's last test always passes. *)
Theorem revealConfirm_never_unconfirmed games trim toLowerCase socket code σ :
  reachable games trim toLowerCase σ →
  socket_emit socket (room_error "Not everyone has confirmed a role")
    ∉ (on_room_revealConfirm games socket code σ).2.
Proof.
  intros Hreach. unfold on_room_revealConfirm.
  destruct (getRoom code σ) as [[r room]|] eqn:Hroom;
    [|by intros [=]%list_elem_of_singleton].
  apply getRoom_heap in Hroom.
  destruct (negb (isOwnerSocket socket room σ));
    [by intros [=]%list_elem_of_singleton|].
  case_bool_decide as Hphase; [by intros [=]%list_elem_of_singleton|].
  destruct (allSubmitted room) eqn:Hall.
  - cbn [negb snd]. rewrite elem_of_app, list_elem_of_fmap.
    intros [[=]%list_elem_of_singleton|(member & [=] & _)].
  - apply allSubmitted_false in Hall as (p & Hp & Hno).
    destruct (reachable_submitted games trim toLowerCase σ r room Hreach Hroom
                (or_introl Hphase) p Hp) as [Hyes _].
    congruence.
Qed.

Lemma revealConfirm_never_unconfirmed_witness :
  Room.phase (roomAt 0 readyState) = ready
  ∧ socket_emit "A" (room_error "Not everyone has confirmed a role")
      ∉ (on_room_revealConfirm catalog "A" "1000" readyState).2.
Proof.
  split; [vm_compute; reflexivity|].
  apply (revealConfirm_never_unconfirmed catalog asciiTrim asciiToLowerCase).
  exact readyState_reachable.
Defined.

(** X14: in a reachable state a pending grace timer always finds what it
    captured: its player is in the roster of its room object, marked
    disconnected, with this timer as [disconnectTimer].  When it fires, the
    callback does not return early on [player.connected]: it deletes the
    player from the room and the session from the session index, and
    broadcasts the room state unless the room is now empty. *)
Theorem pending_timer_removes_its_player games trim toLowerCase σ t r playerId :
  reachable games trim toLowerCase σ →
  State.timers σ !! t = Some (r, playerId) →
  ∃ room player σ' out,
    State.heap σ !! r = Some room
    ∧ Map_get playerId (Room.players room) = Some player
    ∧ Player.connected player = false
    ∧ Player.disconnectTimer player = Some t
    ∧ on_timeout t σ = Some (σ', out)
    ∧ departs σ σ' r playerId
    ∧ State.timers σ' = delete t (State.timers σ)
    ∧ State.sessionIndex σ' = delete (Player.sessionId player) (State.sessionIndex σ)
    ∧ State.socketIndex σ' = State.socketIndex σ
    ∧ out = if bool_decide (Room.players (departedRoom playerId room) = [])
            then [] else emitRoomState (departedRoom playerId room).
Proof.
  intros Hreach. apply on_timeout_armed. by eapply reachable_timersArmed.
Qed.

Lemma pending_timer_removes_its_player_witness :
  ∃ room player σ' out,
    State.heap bobAwayState !! 0 = Some room
    ∧ Map_get "p2" (Room.players room) = Some player
    ∧ Player.connected player = false
    ∧ Player.disconnectTimer player = Some 0
    ∧ on_timeout 0 bobAwayState = Some (σ', out)
    ∧ departs bobAwayState σ' 0 "p2"
    ∧ State.timers σ' = delete 0 (State.timers bobAwayState)
    ∧ State.sessionIndex σ'
      = delete (Player.sessionId player) (State.sessionIndex bobAwayState)
    ∧ State.socketIndex σ' = State.socketIndex bobAwayState
    ∧ out = if bool_decide (Room.players (departedRoom "p2" room) = [])
            then [] else emitRoomState (departedRoom "p2" room).
Proof.
  apply (pending_timer_removes_its_player catalog asciiTrim asciiToLowerCase).
  - exact bobAwayState_reachable.
  - vm_compute. reflexivity.
Defined.

(** X15: in a reachable state a room object that still has players is the
    live room of its code: [rooms.get(room.code)] is this object.  So two
    room objects with players never have the same code, and the
    [rooms.delete(room.code)] of a departure deletes the entry of the room
    that was emptied. *)
Theorem populated_room_is_listed games trim toLowerCase σ r room :
  reachable games trim toLowerCase σ →
  State.heap σ !! r = Some room →
  Room.players room ≠ [] →
  getRoom (Room.code room) σ = Some (r, room)
  ∧ ∀ r' room', State.heap σ !! r' = Some room' → Room.players room' ≠ [] →
      Room.code room' = Room.code room → r' = r.
Proof.
  intros Hreach Hroom Hplayers.
  pose proof (reachable_roomsListed _ _ _ _ Hreach) as Hlisted.
  split.
  - apply getRoom_Some. split; [by apply Hlisted|done].
  - intros r' room' Hroom' Hplayers' Hcode.
    pose proof (Hlisted _ _ Hroom Hplayers) as H1.
    pose proof (Hlisted _ _ Hroom' Hplayers') as H2. congruence.
Qed.

Lemma populated_room_is_listed_witness :
  getRoom (Room.code (roomAt 0 lobbyState)) lobbyState = Some (0, roomAt 0 lobbyState)
  ∧ ∀ r' room', State.heap lobbyState !! r' = Some room' → Room.players room' ≠ [] →
      Room.code room' = Room.code (roomAt 0 lobbyState) → r' = 0.
Proof.
  apply (populated_room_is_listed catalog asciiTrim asciiToLowerCase lobbyState 0).
  - exact lobbyState_reachable.
  - vm_compute. reflexivity.
  - vm_compute. discriminate.
Defined.

(** X16: [room:selectGame], [room:start], [room:reset] and
    [room:revealConfirm] on an existing room from a socket that is not bound
    to the owner of the room change nothing: the handler answers the socket
    with one error and returns, whatever the phase, the game or the roles. *)
Theorem owner_only games trim toLowerCase socket req e code r room σ :
  ownerRequest req = Some code →
  getRoom code σ = Some (r, room) →
  isOwnerSocket socket room σ = false →
  ∃ message,
    handle games trim toLowerCase socket req e σ = Some (σ, emitError socket message).
Proof.
  intros Hreq Hroom Howner.
  destruct req; simplify_eq/=.
  - exists "Only the host can select the game".
    unfold on_room_selectGame. by rewrite Hroom, Howner.
  - exists "Only the host can start the game".
    unfold on_room_start. by rewrite Hroom, Howner.
  - exists "Only the host can reset the game".
    unfold on_room_reset. by rewrite Hroom, Howner.
  - exists "Only the host can reveal roles".
    unfold on_room_revealConfirm. by rewrite Hroom, Howner.
Qed.

Lemma owner_only_witness :
  ∃ message,
    handle catalog asciiTrim asciiToLowerCase "B" (room_revealConfirm "1000") entropy0
           readyState
    = Some (readyState, emitError "B" message).
Proof.
  apply (owner_only catalog asciiTrim asciiToLowerCase "B" (room_revealConfirm "1000")
           entropy0 "1000" 0 (roomAt 0 readyState) readyState).
  - reflexivity.
  - vm_compute. reflexivity.
  - vm_compute. reflexivity.
Defined.

(** X17: after a [room:selectGame], [room:start] or [room:reset] that is
    not answered with an error, the room has the same players in the same
    order, none of them has a role or has submitted, and every other room
    object is as it was. *)
Theorem round_starts_clean games trim toLowerCase socket req e code σ σ' out :
  roundRequest req = Some code →
  handle games trim toLowerCase socket req e σ = Some (σ', out) →
  existsb isError out = false →
  ∃ r room room',
    getRoom code σ = Some (r, room)
    ∧ getRoom code σ' = Some (r, room')
    ∧ Room.players room' = setRole None false <$> Room.players room
    ∧ playerIds room' = playerIds room
    ∧ (∀ p, p ∈ Room.players room' →
         Player.roleId p = None ∧ Player.hasSubmittedRole p = false)
    ∧ ∀ r', r' ≠ r → State.heap σ' !! r' = State.heap σ !! r'.
Proof.
  intros Hreq Hrun Hok.
  assert (Hgoal : ∀ f : Room.t → Room.t,
            (∀ x, Room.players (f x) = Room.players (resetRoles x)) →
            ∀ r room, getRoom code σ = Some (r, room) →
            ∃ r0 room0 room',
              getRoom code σ = Some (r0, room0)
              ∧ getRoom code (updRoom r f σ) = Some (r0, room')
              ∧ Room.players room' = setRole None false <$> Room.players room0
              ∧ playerIds room' = playerIds room0
              ∧ (∀ p, p ∈ Room.players room' →
                   Player.roleId p = None ∧ Player.hasSubmittedRole p = false)
              ∧ ∀ r', r' ≠ r0 →
                  State.heap (updRoom r f σ) !! r' = State.heap σ !! r').
  { intros f Hf r room Hroom. exists r, room, (f room).
    apply getRoom_Some in Hroom as Hboth. destruct Hboth as [Hcode Hheap].
    split; [done|]. split.
    { apply getRoom_Some. state_proj. by rewrite lookup_alter_eq, Hheap. }
    split; [apply Hf|]. split.
    { unfold playerIds. rewrite Hf. simpl. rewrite <- list_fmap_compose.
      by apply list_fmap_ext. }
    split.
    { intros p. rewrite Hf. apply elem_of_resetRoles. }
    intros r' Hne. state_proj. by rewrite lookup_alter_ne. }
  destruct req; simplify_eq/=.
  - unfold on_room_selectGame in *.
    destruct (getRoom code σ) as [[r room]|] eqn:Hroom; [|by simplify_eq].
    destruct (negb (isOwnerSocket socket room σ)); [by simplify_eq|].
    destruct (negb _); [by simplify_eq|]. simplify_eq.
    by eapply (Hgoal (λ room, resetRoles (setPhase lobby (setGameId (Some gameId) room)))).
  - unfold on_room_start in *.
    destruct (getRoom code σ) as [[r room]|] eqn:Hroom; [|by simplify_eq].
    destruct (negb (isOwnerSocket socket room σ)); [by simplify_eq|].
    destruct (negb _); [by simplify_eq|]. simplify_eq.
    by eapply (Hgoal (λ room, resetRoles (setPhase roles room))).
  - unfold on_room_reset in *.
    destruct (getRoom code σ) as [[r room]|] eqn:Hroom; [|by simplify_eq].
    destruct (negb (isOwnerSocket socket room σ)); [by simplify_eq|]. simplify_eq.
    by eapply (Hgoal (λ room, resetRoles (setPhase lobby (setGameId None room)))).
Qed.

Lemma round_starts_clean_witness :
  ∃ r room room',
    getRoom "1000" revealState = Some (r, room)
    ∧ getRoom "1000" (on_room_reset "A" "1000" revealState).1 = Some (r, room')
    ∧ Room.players room' = setRole None false <$> Room.players room
    ∧ playerIds room' = playerIds room
    ∧ (∀ p, p ∈ Room.players room' →
         Player.roleId p = None ∧ Player.hasSubmittedRole p = false)
    ∧ ∀ r', r' ≠ r →
        State.heap (on_room_reset "A" "1000" revealState).1 !! r'
        = State.heap revealState !! r'.
Proof.
  apply (round_starts_clean catalog asciiTrim asciiToLowerCase "A"
           (room_reset_request "1000") entropy0 "1000" revealState
           (on_room_reset "A" "1000" revealState).1
           (on_room_reset "A" "1000" revealState).2).
  - reflexivity.
  - vm_compute. reflexivity.
  - vm_compute. reflexivity.
Defined.

(** ** Joining and submitting *)

(** X18: a join that is not answered with an error happened in phase
    [lobby] with a name no member had; the room object is the old one with
    the new player - connected, without role - at the end of the roster, the
    room table and the timers are unchanged, the socket and the session are
    bound to the new player, and the messages are the join of the socket to
    the room, [room:joined] with [isOwner] false, and the broadcast of the
    new room state. *)
Theorem join_admits_player trim toLowerCase socket code name rawSessionId e σ σ' out
    r room :
  getRoom (default "" code) σ = Some (r, room) →
  freshPlayerId (playerUUID e) σ →
  on_room_join trim toLowerCase socket code name rawSessionId e σ = (σ', out) →
  existsb isError out = false →
  let sessionId := sessionIdOf rawSessionId e in
  let player := createPlayer (playerUUID e) (default "" name) socket sessionId in
  let room' := setPlayers (λ m, m ++ [player]) room in
  Room.phase room = lobby
  ∧ (normalizeName trim toLowerCase name ∉ normalizedNames trim toLowerCase room)
  ∧ State.heap σ' = <[r := room']> (State.heap σ)
  ∧ State.rooms σ' = State.rooms σ
  ∧ State.socketIndex σ' !! socket
    = Some (SocketEntry.mk (default "" code) (playerUUID e) sessionId)
  ∧ State.sessionIndex σ' !! sessionId
    = Some (SessionEntry.mk (default "" code) (playerUUID e))
  ∧ State.timers σ' = State.timers σ
  ∧ out = [socket_join socket (default "" code);
           socket_emit socket
             (room_joined (playerUUID e) false (default "" code) sessionId);
           io_to_emit (Room.code room) (room_state (serializeRoom room'))].
Proof.
  intros Hroom [_ Hfresh] Hrun Hok.
  pose proof (getRoom_heap _ _ _ _ Hroom) as Hheap.
  specialize (Hfresh _ _ Hheap).
  unfold on_room_join in Hrun. rewrite Hroom in Hrun.
  destruct (negb (truthy code) || negb (truthy name)); [by simplify_eq|].
  destruct (existsb _ (Room.players room)) eqn:Htaken; [by simplify_eq|].
  case_bool_decide as Hphase; [by simplify_eq|].
  cbv zeta.
  set (sessionId := sessionIdOf rawSessionId e) in *.
  set (player := createPlayer (playerUUID e) (default "" name) socket sessionId) in *.
  change (playerUUID e) with (Player.id player) in Hfresh, Hrun |- *.
  unfold bindSession in Hrun. revert Hrun. state_proj.
  rewrite lookup_alter_eq, Hheap. cbn [fmap option_fmap option_map mbind option_bind].
  cbn [Room.players setPlayers].
  rewrite (Map_set_fresh _ _ Hfresh), (Map_get_app_fresh _ _ Hfresh).
  change (Player.disconnectTimer player) with (@None nat).
  state_proj. unfold emitRoomStateAt. state_proj.
  rewrite !lookup_alter_eq, Hheap. cbn [fmap option_fmap option_map].
  assert (Hafter :
    setPlayers (updPlayer (Player.id player)
                  (λ p, setDisconnectTimer None
                          (setConnected true (setBinding socket sessionId p))))
               (setPlayers (Map_set player) room)
    = setPlayers (λ m, m ++ [player]) room).
  { unfold setPlayers. cbn [Room.code Room.ownerId Room.gameId Room.phase Room.players].
    rewrite (Map_set_fresh _ _ Hfresh).
    by rewrite (updPlayer_app_fresh _ _ _ Hfresh). }
  rewrite Hafter. intros [= <- <-]. state_proj.
  split; [done|]. split.
  { intros (p & Hname & Hp)%list_elem_of_fmap.
    apply not_true_iff_false in Htaken. apply Htaken, existsb_elem_of.
    exists p. split; [done|]. by apply bool_decide_eq_true. }
  split.
  { apply map_eq. intros r'. destruct (decide (r' = r)) as [->|Hne].
    - by rewrite !lookup_alter_eq, lookup_insert_eq, Hheap, <- Hafter.
    - by rewrite !lookup_alter_ne, lookup_insert_ne. }
  split; [done|]. split; [by rewrite lookup_insert_eq|].
  split; [by rewrite lookup_insert_eq|]. done.
Qed.

Lemma join_admits_player_witness :
  Room.phase (roomAt 0 lobbyState) = lobby
  ∧ State.heap (on_room_join asciiTrim asciiToLowerCase "C" (Some "1000") (Some "Cy")
                  None entropyC lobbyState).1 !! 0
    = Some (setPlayers (λ m, m ++ [createPlayer "p3" "Cy" "C" "s3"])
              (roomAt 0 lobbyState)).
Proof.
  pose proof (join_admits_player asciiTrim asciiToLowerCase "C" (Some "1000")
                (Some "Cy") None entropyC lobbyState
                (on_room_join asciiTrim asciiToLowerCase "C" (Some "1000") (Some "Cy")
                   None entropyC lobbyState).1
                (on_room_join asciiTrim asciiToLowerCase "C" (Some "1000") (Some "Cy")
                   None entropyC lobbyState).2
                0 (roomAt 0 lobbyState)) as Hthm.
  cbv zeta in Hthm. destruct Hthm as (Hphase & _ & Hheap & _).
  - vm_compute. reflexivity.
  - apply freshPlayerIdb_true. vm_compute. reflexivity.
  - vm_compute. reflexivity.
  - vm_compute. reflexivity.
  - split; [exact Hphase|]. rewrite Hheap. apply lookup_insert_eq.
Defined.

Lemma updPlayer_idemp k g m :
  (∀ p, Player.id (g p) = Player.id p) → (∀ p, g (g p) = g p) →
  updPlayer k g (updPlayer k g m) = updPlayer k g m.
Proof.
  intros Hid Hg. unfold updPlayer. rewrite <- list_fmap_compose.
  apply list_fmap_ext. intros i p _. simpl.
  destruct (decide (Player.id p = k)) as [Hp|Hp].
  - rewrite (bool_decide_eq_true_2 (Player.id p = k)) by done.
    rewrite Hid. rewrite bool_decide_eq_true_2 by done. apply Hg.
  - by rewrite !(bool_decide_eq_false_2 (Player.id p = k)) by done.
Qed.

(** X19: a [role:submit] repeated with the same arguments changes
    nothing: the state after the second is the state after the first,
    whether the first was applied (the second is then refused when the room
    went to [ready], and writes the same role again when it did not) or
    refused. *)
Theorem submit_twice games socket code roleId σ :
  (on_role_submit games socket code roleId
     (on_role_submit games socket code roleId σ).1).1
  = (on_role_submit games socket code roleId σ).1.
Proof.
  set (σ1 := (on_role_submit games socket code roleId σ).1).
  assert (Hcases :
    σ1 = σ ∨
    ∃ r room index player,
      getRoom code σ = Some (r, room)
      ∧ State.socketIndex σ !! socket = Some index
      ∧ Room.phase room = roles
      ∧ Map_get (SocketEntry.playerId index) (Room.players room) = Some player
      ∧ negb (match getOpt (gameMap games) (Room.gameId room) with
              | None => false
              | Some game =>
                  bool_decide (is_Some
                    (List.find (λ role, bool_decide (Role.id role = roleId))
                               (Game.roles game)))
              end) = false
      ∧ let submitted := setPlayers (updPlayer (Player.id player)
                           (setRole (Some roleId) true)) room in
        σ1 = if allSubmitted submitted
             then updRoom r (setPhase ready)
                    (updRoom r (setPlayers (updPlayer (Player.id player)
                       (setRole (Some roleId) true))) σ)
             else updRoom r (setPlayers (updPlayer (Player.id player)
                       (setRole (Some roleId) true))) σ).
  { subst σ1. unfold on_role_submit.
    destruct (getRoom code σ) as [[r room]|] eqn:Hroom; [|by left].
    destruct (State.socketIndex σ !! socket) as [index|] eqn:Hindex; [|by left].
    case_bool_decide as Hphase; [by left|].
    destruct (Map_get _ (Room.players room)) as [player|] eqn:Hplayer; [|by left].
    destruct (negb _) eqn:Hknown; [by left|].
    right. exists r, room, index, player. repeat (split; [done|]).
    cbv zeta. state_proj. apply getRoom_heap in Hroom.
    rewrite lookup_alter_eq, Hroom. cbn [fmap option_fmap option_map].
    by destruct (allSubmitted _). }
  destruct Hcases as [Hsame|(r & room & index & player & Hroom & Hindex & Hphase
                            & Hplayer & Hknown & Hσ1)].
  { rewrite Hsame. exact Hsame. }
  cbv zeta in Hσ1. apply getRoom_Some in Hroom as [Hcode Hheap].
  pose proof (Map_get_id _ _ _ Hplayer) as Hid.
  set (f := setPlayers (updPlayer (Player.id player) (setRole (Some roleId) true))) in *.
  destruct (allSubmitted (f room)) eqn:Hall.
  - (* the room went to [ready]: the second submission is refused *)
    unfold on_role_submit.
    assert (Hroom1 : getRoom code σ1 = Some (r, setPhase ready (f room))).
    { apply getRoom_Some. rewrite Hσ1. state_proj.
      by rewrite !lookup_alter_eq, Hheap. }
    rewrite Hroom1. assert (State.socketIndex σ1 = State.socketIndex σ) as ->
      by (by rewrite Hσ1).
    rewrite Hindex. by rewrite bool_decide_eq_true_2.
  - unfold on_role_submit.
    assert (Hroom1 : getRoom code σ1 = Some (r, f room)).
    { apply getRoom_Some. rewrite Hσ1. state_proj. by rewrite !lookup_alter_eq, Hheap. }
    rewrite Hroom1. assert (State.socketIndex σ1 = State.socketIndex σ) as ->
      by (by rewrite Hσ1).
    rewrite Hindex. rewrite bool_decide_eq_false_2 by (intros Hne; by apply Hne).
    assert (Hplayer1 : Map_get (SocketEntry.playerId index) (Room.players (f room))
                       = Some (setRole (Some roleId) true player)).
    { subst f. cbn [Room.players setPlayers]. rewrite Hid.
      rewrite Map_get_updPlayer by done. by rewrite Hplayer. }
    rewrite Hplayer1. change (Room.gameId (f room)) with (Room.gameId room).
    rewrite Hknown.
    change (Player.id (setRole (Some roleId) true player)) with (Player.id player).
    fold f.
    assert (Hfix : updRoom r f σ1 = σ1).
    { rewrite Hσ1. unfold updRoom. destruct σ as [rooms heap det si se tm nt].
      unfold setHeap. cbn. f_equal. apply map_eq. intros r'.
      destruct (decide (r' = r)) as [->|Hne].
      - rewrite !lookup_alter_eq. cbn in Hheap. rewrite Hheap. simpl. f_equal.
        subst f. destruct room as [c o g ph m]. unfold setPlayers. simpl. f_equal.
        by apply updPlayer_idemp.
      - by rewrite !lookup_alter_ne. }
    cbv zeta. rewrite Hfix.
    apply getRoom_Some in Hroom1 as [_ Hheap1]. rewrite Hheap1, Hall. done.
Qed.

(** * The client *)

Lemma allDigits_digitsOnly text : allDigits (Client.digitsOnly text) = true.
Proof.
  induction text as [|c rest IH]; simpl; [done|].
  destruct (isDigit c) eqn:Hc; simpl; [by rewrite Hc|done].
Qed.

Lemma allDigits_substring n m s :
  allDigits s = true → allDigits (String.substring n m s) = true.
Proof.
  revert n m. induction s as [|c s IH]; intros n m Hs.
  - by destruct n, m.
  - simpl in Hs. apply andb_true_iff in Hs as [Hc Hs].
    destruct n as [|n]; simpl.
    + destruct m as [|m]; simpl; [done|]. rewrite Hc. by apply IH.
    + by apply IH.
Qed.

Lemma length_substring0 m s : String.length (String.substring 0 m s) ≤ m.
Proof.
  revert m. induction s as [|c s IH]; intros m; destruct m as [|m]; simpl; try lia.
  specialize (IH m). lia.
Qed.

Lemma allDigits_app s1 s2 :
  allDigits (s1 +:+ s2) = (allDigits s1 && allDigits s2).
Proof.
  induction s1 as [|c s1 IH]; simpl; [done|]. by rewrite IH, andb_assoc.
Qed.

Lemma length_app_string s1 s2 :
  String.length (s1 +:+ s2) = String.length s1 + String.length s2.
Proof. induction s1 as [|c s1 IH]; simpl; [done|]. by rewrite IH. Qed.

Lemma join_cells digits :
  Forall Client.cell digits →
  allDigits (Client.join digits) = true
  ∧ String.length (Client.join digits) ≤ length digits.
Proof.
  induction 1 as [|x digits Hx _ [IH1 IH2]]; simpl; [done|].
  change (String.append x (Client.join digits)) with (x +:+ Client.join digits).
  rewrite allDigits_app, length_app_string, IH1.
  destruct Hx as [->|(c & Hc & ->)]; simpl.
  - split; [done|lia].
  - rewrite Hc. split; [done|]. simpl. lia.
Qed.

Lemma cell_charAt s i : allDigits s = true → Client.cell (Client.charAt s i).
Proof.
  revert i. induction s as [|c s IH]; intros i Hs.
  - left. by destruct i.
  - simpl in Hs. apply andb_true_iff in Hs as [Hc Hs]. destruct i as [|i].
    + right. by exists c.
    + unfold Client.charAt. simpl. by apply IH.
Qed.

Lemma cells_digitsOf s : allDigits s = true → Forall Client.cell (Client.digitsOf s).
Proof.
  intros Hs. unfold Client.digitsOf. apply Forall_fmap, Forall_forall.
  intros i _. by apply cell_charAt.
Qed.

Lemma join_digitsOf s : Client.join (Client.digitsOf s) = Client.slice0 Client.joinCodeLength s.
Proof. by destruct s as [|a [|b [|c [|d [|e s]]]]]. Qed.

Lemma cell_lastChar raw : allDigits raw = true → Client.cell (Client.lastChar raw).
Proof. apply cell_charAt. Qed.

Lemma cells_arraySet index d digits :
  Client.cell d → Forall Client.cell digits →
  Forall Client.cell (Client.arraySet index d digits).
Proof.
  intros Hd Hdigits. unfold Client.arraySet. case_bool_decide.
  - by apply Forall_insert.
  - apply Forall_app. split; [done|]. apply Forall_app. split.
    + apply Forall_replicate. by left.
    + by apply Forall_singleton.
Qed.

Lemma length_arraySet index d digits :
  index < length digits → length (Client.arraySet index d digits) = length digits.
Proof.
  intros Hlt. unfold Client.arraySet. rewrite bool_decide_eq_true_2 by done.
  apply length_insert.
Qed.

(** The code field after one event. *)
Lemma onFormEvent_digits joinCode ev :
  Client.rendered ev →
  allDigits joinCode = true →
  allDigits (Client.onFormEvent joinCode ev) = true
  ∧ (String.length joinCode ≤ Client.joinCodeLength →
     String.length (Client.onFormEvent joinCode ev) ≤ Client.joinCodeLength).
Proof.
  intros Hev Hcode. destruct ev as [index value|text|code]; simpl in *.
  - unfold Client.handleJoinCodeDigitChange.
    set (d := if truthy _ then _ else _).
    assert (Hd : Client.cell d).
    { subst d. destruct (truthy _); [|by left].
      apply cell_lastChar, allDigits_digitsOnly. }
    destruct (join_cells (Client.arraySet index d (Client.digitsOf joinCode)))
      as [Hall Hlen].
    { apply cells_arraySet; [done|]. by apply cells_digitsOf. }
    split; [done|]. intros _. rewrite length_arraySet in Hlen; [done|].
    unfold Client.digitsOf. by rewrite length_fmap, length_seq.
  - unfold Client.handleJoinCodePaste. destruct (negb _); [done|].
    rewrite join_digitsOf. unfold Client.slice0. split.
    + apply allDigits_substring, allDigits_substring, allDigits_digitsOnly.
    + intros _. apply length_substring0.
  - unfold Client.codeFromQuery. destruct (truthy code); [|done].
    unfold Client.slice0. split.
    + apply allDigits_substring, allDigits_digitsOnly.
    + intros _. apply length_substring0.
Qed.

(** X20: the code field of the join form only ever holds decimal digits, at
    most [joinCodeLength] of them: from the empty field, whatever is typed
    into one of the four inputs, pasted, or given in the [code] parameter of
    the address. *)
Theorem join_code_stays_digits (events : list Client.FormEvent) :
  Forall Client.rendered events →
  allDigits (foldl Client.onFormEvent EmptyString events) = true
  ∧ String.length (foldl Client.onFormEvent EmptyString events) ≤ Client.joinCodeLength.
Proof.
  intros Hevents.
  assert (Hgen : ∀ joinCode,
            allDigits joinCode = true →
            String.length joinCode ≤ Client.joinCodeLength →
            allDigits (foldl Client.onFormEvent joinCode events) = true
            ∧ String.length (foldl Client.onFormEvent joinCode events)
              ≤ Client.joinCodeLength).
  { induction Hevents as [|ev events Hev _ IH]; intros joinCode Hall Hlen; [done|].
    simpl. destruct (onFormEvent_digits joinCode ev Hev Hall) as [Hall' Hlen'].
    apply IH; [done|]. by apply Hlen'. }
  apply Hgen; [done|]. simpl. unfold Client.joinCodeLength. lia.
Qed.

Lemma join_code_stays_digits_witness :
  foldl Client.onFormEvent EmptyString
    [Client.paste "12a3"; Client.digit_change 3 "x9"; Client.digit_change 0 ""]
  = "239"
  ∧ allDigits "239" = true
  ∧ String.length "239" ≤ Client.joinCodeLength.
Proof.
  split; [vm_compute; reflexivity|].
  apply (join_code_stays_digits
           [Client.paste "12a3"; Client.digit_change 3 "x9"; Client.digit_change 0 ""]).
  repeat constructor; simpl; unfold Client.joinCodeLength; lia.
Defined.

Lemma digitsOnly_digits s : allDigits s = true → Client.digitsOnly s = s.
Proof.
  induction s as [|c s IH]; simpl; [done|].
  intros [Hc Hs]%andb_true_iff. rewrite Hc. f_equal. by apply IH.
Qed.

Lemma substring0_all m s : String.length s ≤ m → String.substring 0 m s = s.
Proof.
  revert m. induction s as [|c s IH]; intros m Hlen.
  - by destruct m.
  - destruct m as [|m]; simpl in *; [lia|]. f_equal. apply IH. lia.
Qed.

Section ClientServer.

Variable trim : string → string.
Variable jsLength : string → nat.

(** X21: a code that the server generated is accepted by the join form as
    it is: pasted into the code field or given in the [code] parameter of
    the address it becomes the content of the field, whatever the field
    held; it passes the form's test of four digits; and [joinRoom] sends it
    unchanged, with the trimmed name. *)
Theorem generated_code_joins (rooms : gmap string nat) (draws : list N)
    (code joinCode : string) :
  Forall (λ n, 1000 ≤ n ≤ 9999)%N draws →
  generateRoomCode rooms draws = Some code →
  trim code = code →
  Client.handleJoinCodePaste code joinCode = code
  ∧ Client.codeFromQuery (Some code) joinCode = code
  ∧ Client.isJoinCodeValid trim code = true
  ∧ ∀ socket joinName sessionId,
      trim joinName ≠ EmptyString → jsLength (trim joinName) ≤ 10 →
      Client.joinRoom trim jsLength (Some socket) joinName code sessionId
      = Some (room_join (Some code) (Some (trim joinName))
                        (Some (default EmptyString sessionId))).
Proof.
  intros Hrange (n & Hn & ->)%generateRoomCode_elem Htrim.
  rewrite Forall_forall in Hrange. specialize (Hrange n Hn).
  destruct (pretty_four_digits n Hrange) as [Hlen Hdig].
  assert (Hne : pretty n ≠ EmptyString) by (intros Heq; by rewrite Heq in Hlen).
  assert (Hslice : Client.slice0 Client.joinCodeLength (Client.digitsOnly (pretty n))
                   = pretty n).
  { rewrite digitsOnly_digits by done. apply substring0_all.
    rewrite Hlen. unfold Client.joinCodeLength. lia. }
  split.
  { unfold Client.handleJoinCodePaste. rewrite Hslice.
    rewrite truthy_Some by done. cbn [negb]. rewrite join_digitsOf.
    apply substring0_all. rewrite Hlen. unfold Client.joinCodeLength. lia. }
  split.
  { unfold Client.codeFromQuery. rewrite truthy_Some by done. exact Hslice. }
  split.
  { unfold Client.isJoinCodeValid. rewrite Htrim, Hdig, Hlen.
    by rewrite bool_decide_eq_true_2. }
  intros socket joinName sessionId Hname Hlength. unfold Client.joinRoom.
  rewrite Htrim, !truthy_Some by done.
  rewrite (bool_decide_eq_true_2 (is_Some _)) by (by eexists).
  rewrite (bool_decide_eq_false_2 (10 < _)) by lia. done.
Qed.

(** X22: a [room:create] that the client sends carries the trimmed name,
    which is not empty and at most ten long, and the server never refuses
    it: the answer has no error, and the room created has as its only
    player and owner a player of that name. *)
Theorem client_create_accepted socket createName sessionId req
    games trimS toLowerCase serverSocket e σ σ' out :
  Client.createRoom trim jsLength socket createName sessionId = Some req →
  handle games trimS toLowerCase serverSocket req e σ = Some (σ', out) →
  trim createName ≠ EmptyString
  ∧ jsLength (trim createName) ≤ 10
  ∧ existsb isError out = false
  ∧ ∃ code r room,
      State.rooms σ !! code = None
      ∧ getRoom code σ' = Some (r, room)
      ∧ Room.phase room = lobby
      ∧ Player.name <$> Room.players room = [trim createName]
      ∧ playerIds room = [Room.ownerId room].
Proof.
  unfold Client.createRoom. intros Hsend Hrun.
  destruct (bool_decide (is_Some socket)); [|done].
  destruct (truthy (Some (trim createName))) eqn:Hname; [|done].
  case_bool_decide as Hlen; [done|]. simpl in Hsend. injection Hsend as <-.
  simpl in Hrun.
  pose proof (on_room_create_effect serverSocket (Some (trim createName))
                (Some (default EmptyString sessionId)) e σ) as Heff.
  rewrite Hrun, Hname in Heff.
  destruct Heff as (code & r & _ & Hfree & _ & Hrooms & Hroom & _ & Hok).
  split; [by apply bool_decide_eq_true in Hname|]. split; [lia|]. split; [done|].
  exists code, r, (createdRoom serverSocket (Some (trim createName))
                     (Some (default EmptyString sessionId)) e code).
  split; [done|]. split; [|done].
  apply getRoom_Some. split; [|done]. rewrite Hrooms. apply lookup_insert_eq.
Qed.

(** X23: a [room:join] that the client sends is never answered "Code and
    name are required": it carries the trimmed name and the trimmed code,
    both not empty. *)
Theorem client_join_has_fields socket joinName joinCode sessionId req
    games trimS toLowerCase serverSocket e σ σ' out :
  Client.joinRoom trim jsLength socket joinName joinCode sessionId = Some req →
  handle games trimS toLowerCase serverSocket req e σ = Some (σ', out) →
  req = room_join (Some (trim joinCode)) (Some (trim joinName))
                  (Some (default EmptyString sessionId))
  ∧ jsLength (trim joinName) ≤ 10
  ∧ socket_emit serverSocket (room_error "Code and name are required") ∉ out.
Proof.
  unfold Client.joinRoom. intros Hsend Hrun.
  destruct (bool_decide (is_Some socket)); [|done].
  destruct (truthy (Some (trim joinName))) eqn:Hname; [|done].
  case_bool_decide as Hlen; [done|].
  destruct (truthy (Some (trim joinCode))) eqn:Hcode; [|done].
  simpl in Hsend. injection Hsend as <-. split; [done|]. split; [lia|].
  simpl in Hrun. injection Hrun as Hrun. unfold on_room_join in Hrun.
  rewrite Hname, Hcode in Hrun. simpl in Hrun.
  destruct (getRoom (trim joinCode) σ) as [[r room]|];
    [|injection Hrun as _ <-; by intros [=]%list_elem_of_singleton].
  destruct (existsb _ (Room.players room));
    [injection Hrun as _ <-; by intros [=]%list_elem_of_singleton|].
  case_bool_decide;
    [injection Hrun as _ <-; by intros [=]%list_elem_of_singleton|].
  injection Hrun as _ <-. intros Hin.
  assert (Herr : existsb isError
            ([socket_join serverSocket (trim joinCode);
              socket_emit serverSocket
                (room_joined (playerUUID e) false (trim joinCode)
                   (sessionIdOf (Some (default EmptyString sessionId)) e))]
             ++ emitRoomStateAt r
                  (bindSession (sessionIdOf (Some (default EmptyString sessionId)) e)
                     (trim joinCode) r (playerUUID e) serverSocket
                     (updRoom r (setPlayers (Map_set
                        (createPlayer (playerUUID e) (trim joinName) serverSocket
                           (sessionIdOf (Some (default EmptyString sessionId)) e)))) σ)))
            = true).
  { eapply existsb_elem; [exact Hin|done]. }
  rewrite existsb_app, noError_emitRoomStateAt in Herr. done.
Qed.

End ClientServer.

Lemma generated_code_joins_witness :
  Client.handleJoinCodePaste "4711" "12" = "4711"
  ∧ Client.codeFromQuery (Some "4711") "12" = "4711"
  ∧ Client.isJoinCodeValid asciiTrim "4711" = true
  ∧ ∀ socket joinName sessionId,
      asciiTrim joinName ≠ EmptyString → String.length (asciiTrim joinName) ≤ 10 →
      Client.joinRoom asciiTrim String.length (Some socket) joinName "4711" sessionId
      = Some (room_join (Some "4711") (Some (asciiTrim joinName))
                        (Some (default EmptyString sessionId))).
Proof.
  apply (generated_code_joins asciiTrim String.length {["1000" := 0]}
           [1000%N; 4711%N] "4711" "12").
  - constructor; [lia|]. constructor; [lia|]. constructor.
  - vm_compute. reflexivity.
  - vm_compute. reflexivity.
Defined.

Lemma client_create_accepted_witness :
  asciiTrim "  Ann " ≠ EmptyString
  ∧ String.length (asciiTrim "  Ann ") ≤ 10
  ∧ existsb isError
      (default [] (snd <$> on_room_create "A" (Some "Ann") (Some "") entropyA initial))
    = false
  ∧ ∃ code r room,
      State.rooms initial !! code = None
      ∧ getRoom code
          (runASCII (on_socket "A" (room_create (Some "Ann") (Some "")) entropyA) initial)
        = Some (r, room)
      ∧ Room.phase room = lobby
      ∧ Player.name <$> Room.players room = [asciiTrim "  Ann "]
      ∧ playerIds room = [Room.ownerId room].
Proof.
  apply (client_create_accepted asciiTrim String.length (Some "A") "  Ann " None
           (room_create (Some "Ann") (Some ""))
           catalog asciiTrim asciiToLowerCase "A" entropyA initial).
  - vm_compute. reflexivity.
  - vm_compute. reflexivity.
Defined.

Lemma client_join_has_fields_witness :
  room_join (Some "1000") (Some "Cy") (Some "")
  = room_join (Some (asciiTrim "1000")) (Some (asciiTrim " Cy")) (Some "")
  ∧ String.length (asciiTrim " Cy") ≤ 10
  ∧ socket_emit "C" (room_error "Code and name are required")
      ∉ (on_room_join asciiTrim asciiToLowerCase "C" (Some "1000") (Some "Cy") (Some "")
           entropyC lobbyState).2.
Proof.
  apply (client_join_has_fields asciiTrim String.length (Some "C") " Cy" "1000" None
           (room_join (Some "1000") (Some "Cy") (Some ""))
           catalog asciiTrim asciiToLowerCase "C" entropyC lobbyState
           (on_room_join asciiTrim asciiToLowerCase "C" (Some "1000") (Some "Cy")
              (Some "") entropyC lobbyState).1).
  - vm_compute. reflexivity.
  - vm_compute. reflexivity.
Defined.
